(** * nix-diff-action: the diff pipeline, its services and its text filters

    A shallow embedding of the TypeScript sources
    ([services/utils.ts], [services/git.ts], [services/nix.ts],
    [programs/full.ts], [programs/shared.ts]) together with the properties
    the specification states about them.

    Strings are JavaScript strings: finite sequences of UTF-16 code units.
    Effects are the programs of the Effect runtime, read as functions from
    the host (subprocess behaviour, the Node library) and the history of
    external interactions to an exit value and the interactions emitted. *)

From Stdlib Require Import List NArith ZArith Bool Lia Arith.
From Stdlib Require Import Strings.Ascii.
From Stdlib Require Strings.String.
From Stdlib Require Import Numbers.DecimalString.
Import ListNotations.
Import String.StringSyntax.
Local Open Scope string_scope.

(* ===================================================================== *)
(** * JavaScript strings *)
(* ===================================================================== *)

Module Js.

(** A code unit is a number below 65536; a string is a list of them. *)
Definition jsstring := list N.

(** An ASCII literal as a JavaScript string. *)
Definition str (s : String.string) : jsstring :=
  map N_of_ascii (String.list_ascii_of_string s).

Definition LF : N := 10.
Definition CR : N := 13.
Definition DASH : N := 45.

(** ["\n"] *)
Definition nl : jsstring := [LF].

(** [===] on strings. *)
Fixpoint jseq (a b : jsstring) : bool :=
  match a, b with
  | [], [] => true
  | x :: a', y :: b' => N.eqb x y && jseq a' b'
  | _, _ => false
  end.

(** ECMAScript LineTerminator: LF, CR, LS, PS. *)
Definition isLineTerminator (c : N) : bool :=
  N.eqb c 10 || N.eqb c 13 || N.eqb c 8232 || N.eqb c 8233.

(** ECMAScript WhiteSpace together with LineTerminator: what
    [String.prototype.trim] strips and what [\s] matches. *)
Definition isSpace (c : N) : bool :=
  N.eqb c 9 || N.eqb c 11 || N.eqb c 12 || N.eqb c 32 || N.eqb c 160
  || N.eqb c 5760 || (N.leb 8192 c && N.leb c 8202)
  || N.eqb c 8239 || N.eqb c 8287 || N.eqb c 12288 || N.eqb c 65279
  || isLineTerminator c.

Fixpoint trimStart (s : jsstring) : jsstring :=
  match s with
  | c :: s' => if isSpace c then trimStart s' else s
  | [] => []
  end.

Definition trimEnd (s : jsstring) : jsstring := rev (trimStart (rev s)).

Definition trim (s : jsstring) : jsstring := trimEnd (trimStart s).

(** [s === ""]. *)
Definition isEmpty (s : jsstring) : bool :=
  match s with [] => true | _ => false end.

Fixpoint startsWith (s prefix : jsstring) {struct prefix} : bool :=
  match prefix, s with
  | [], _ => true
  | p :: prefix', c :: s' => N.eqb p c && startsWith s' prefix'
  | _ :: _, [] => false
  end.

Definition endsWith (s suffix : jsstring) : bool :=
  startsWith (rev s) (rev suffix).

(** [s.includes(needle)]. *)
Fixpoint includes (s needle : jsstring) : bool :=
  startsWith s needle
  || match s with
     | [] => false
     | _ :: s' => includes s' needle
     end.

(** [xs.join(sep)]. *)
Fixpoint join (sep : jsstring) (xs : list jsstring) : jsstring :=
  match xs with
  | [] => []
  | [x] => x
  | x :: xs' => x ++ sep ++ join sep xs'
  end.

(** [s.split("\n")]. *)
Fixpoint splitLF (s : jsstring) : list jsstring :=
  match s with
  | [] => [[]]
  | c :: r =>
    if N.eqb c LF then [] :: splitLF r
    else match splitLF r with
         | l :: ls => (c :: l) :: ls
         | [] => [[c]]
         end
  end.

(** [s.split(/\r?\n/)]: the scan takes, at each position, CR LF as one
    separator, else a lone LF; a CR not followed by LF stays in its
    line. *)
Fixpoint splitLines (s : jsstring) : list jsstring :=
  match s with
  | [] => [[]]
  | c :: r =>
    if N.eqb c LF then [] :: splitLines r
    else
      let keep := match splitLines r with
                  | l :: ls => (c :: l) :: ls
                  | [] => [[c]]
                  end in
      match r with
      | d :: r' => if N.eqb c CR && N.eqb d LF then [] :: splitLines r' else keep
      | [] => keep
      end
  end.

(** [s.replace(re, by)] for a global regular expression [re] that is one
    character class: every code unit of the class becomes [by]. *)
Definition replaceEach (cls : N -> bool) (by_ : jsstring) (s : jsstring) : jsstring :=
  flat_map (fun c => if cls c then by_ else [c]) s.

(** The decimal rendering of a length, as in a template literal. *)
Definition decimal (n : nat) : jsstring :=
  str (NilZero.string_of_uint (Nat.to_uint n)).

End Js.
Import Js.

(* ===================================================================== *)
(** * Regular expressions (the fragment the sources use)

    A backtracking matcher in continuation-passing style, as the
    ECMAScript specification defines pattern matching: every node takes
    the continuation that matches the rest of the pattern, and a
    quantifier tries its alternatives in priority order. *)
(* ===================================================================== *)

Module Regex.

Inductive quant := One | Opt | Star | Plus | PlusLazy.

Inductive node :=
| Chars (cls : N -> bool) (q : quant)   (* a character class, quantified *)
| Bol                                    (* ^ *)
| Eol                                    (* $ *)
| GroupOpen                              (* ( *)
| GroupClose.                            (* ) *)

(** What the matcher knows besides the remaining input: the code unit
    before the current position, the text of the groups still open
    (innermost first, reversed), and the groups already closed (latest
    first).  Group 0, the whole match, is open from the start. *)
Record ctx := { prev : option N; opened : list jsstring; closed : list jsstring }.

Definition eat (c : N) (x : ctx) : ctx :=
  {| prev := Some c; opened := map (cons c) (opened x); closed := closed x |}.

Definition result := (ctx * jsstring)%type.
Definition cont := ctx -> jsstring -> option result.

Definition orElse (a : option result) (b : unit -> option result) : option result :=
  match a with Some r => Some r | None => b tt end.

Definition one (cls : N -> bool) (k : cont) : cont :=
  fun x s =>
    match s with
    | c :: s' => if cls c then k (eat c x) s' else None
    | [] => None
    end.

(** Greedy repetition: as many as possible first, then fewer. *)
Fixpoint greedy (cls : N -> bool) (k : cont) (x : ctx) (s : jsstring) : option result :=
  match s with
  | c :: s' =>
    if cls c then orElse (greedy cls k (eat c x) s') (fun _ => k x s) else k x s
  | [] => k x s
  end.

(** Lazy repetition: as few as possible first, then more. *)
Fixpoint lazy (cls : N -> bool) (k : cont) (x : ctx) (s : jsstring) : option result :=
  orElse (k x s)
         (fun _ => match s with
                   | c :: s' => if cls c then lazy cls k (eat c x) s' else None
                   | [] => None
                   end).

Definition atLineStart (multiline : bool) (x : ctx) : bool :=
  match prev x with
  | None => true
  | Some c => multiline && isLineTerminator c
  end.

Definition atLineEnd (multiline : bool) (s : jsstring) : bool :=
  match s with
  | [] => true
  | c :: _ => multiline && isLineTerminator c
  end.

Definition step (multiline : bool) (n : node) (k : cont) : cont :=
  match n with
  | Chars cls One => one cls k
  | Chars cls Opt => fun x s => orElse (one cls k x s) (fun _ => k x s)
  | Chars cls Star => greedy cls k
  | Chars cls Plus => one cls (greedy cls k)
  | Chars cls PlusLazy => one cls (lazy cls k)
  | Bol => fun x s => if atLineStart multiline x then k x s else None
  | Eol => fun x s => if atLineEnd multiline s then k x s else None
  | GroupOpen =>
    fun x s => k {| prev := prev x; opened := [] :: opened x; closed := closed x |} s
  | GroupClose =>
    fun x s =>
      match opened x with
      | g :: gs => k {| prev := prev x; opened := gs; closed := rev g :: closed x |} s
      | [] => None
      end
  end.

Definition accept : cont := fun x s => Some (x, s).

Definition matcher (multiline : bool) (re : list node) : cont :=
  fold_right (step multiline) accept re.

(** The match array: the whole match, then the groups in order. *)
Definition matchArray (r : result) : list jsstring :=
  match opened (fst r) with
  | whole :: _ => rev whole :: rev (closed (fst r))
  | [] => rev (closed (fst r))
  end.

(** The leftmost match: try every start position in turn. *)
Fixpoint search (multiline : bool) (re : list node) (before : option N) (s : jsstring)
  : option result :=
  orElse (matcher multiline re {| prev := before; opened := [[]]; closed := [] |} s)
         (fun _ => match s with
                   | c :: s' => search multiline re (Some c) s'
                   | [] => None
                   end).

(** [s.match(re)] for a regular expression without the [g] flag. *)
Definition jsmatch (multiline : bool) (re : list node) (s : jsstring)
  : option (list jsstring) :=
  option_map matchArray (search multiline re None s).

(** Character classes. *)
Definition lit (a : ascii) : N -> bool := N.eqb (N_of_ascii a).
Definition dot (c : N) : bool := negb (isLineTerminator c).          (* . *)
Definition space (c : N) : bool := isSpace c.                        (* \s *)
Definition nonSpace (c : N) : bool := negb (isSpace c).              (* \S *)
Definition digit (c : N) : bool := N.leb 48 c && N.leb c 57.         (* \d *)
Definition upper (c : N) : bool := N.leb 65 c && N.leb c 90.         (* A-Z *)
Definition lower (c : N) : bool := N.leb 97 c && N.leb c 122.        (* a-z *)

(** The literal [text] as a sequence of nodes. *)
Definition lits (text : String.string) : list node :=
  map (fun a => Chars (lit a) One) (String.list_ascii_of_string text).

End Regex.

(* ===================================================================== *)
(** * services/utils.ts: the heuristic filters *)
(* ===================================================================== *)

Module Utils.
Import Regex.

(** [/^<<<\s*(.+)$/m] *)
Definition reBasePath : list node :=
  [Bol] ++ lits "<<<" ++ [Chars space Star; GroupOpen; Chars dot Plus; GroupClose; Eol].

(** [/^>>>\s*(.+)$/m] *)
Definition rePrPath : list node :=
  [Bol] ++ lits ">>>" ++ [Chars space Star; GroupOpen; Chars dot Plus; GroupClose; Eol].

(** [!diff || diff.trim() === ""] for a string. *)
Definition blank (diff : jsstring) : bool := isEmpty diff || isEmpty (trim diff).

(** [hasDixChanges]; [None] is [undefined]. *)
Definition hasDixChanges (diff : option jsstring) : bool :=
  match diff with
  | None => false
  | Some d =>
    if blank d then false
    else
      match jsmatch true reBasePath d, jsmatch true rePrPath d with
      | Some baseMatch, Some prMatch =>
        negb (jseq (trim (nth 1 baseMatch [])) (trim (nth 1 prMatch [])))
      | _, _ => true    (* cannot parse, assume changes *)
      end
  end.

(** [hasPackageChanges] *)
Definition hasPackageChanges (diff : option jsstring) : bool :=
  match diff with
  | None => false
  | Some d => if blank d then false else Nat.ltb 5 (length (splitLines d))
  end.

(** [/^\[([A-Z.]+)\]\s+(\S+)\s+(.+?)\s+->\s+(.+)$/] *)
Definition reUpdateLine : list node :=
  [Bol; Chars (lit "[") One;
   GroupOpen; Chars (fun c => upper c || lit "." c) Plus; GroupClose;
   Chars (lit "]") One; Chars space Plus;
   GroupOpen; Chars nonSpace Plus; GroupClose;
   Chars space Plus;
   GroupOpen; Chars dot PlusLazy; GroupClose;
   Chars space Plus; Chars (lit "-") One; Chars (lit ">") One; Chars space Plus;
   GroupOpen; Chars dot Plus; GroupClose;
   Eol].

(** [/^(\d+\.\d+)\..+\.drv$/] *)
Definition reMajorMinor : list node :=
  [Bol; GroupOpen; Chars digit Plus; Chars (lit ".") One; Chars digit Plus; GroupClose;
   Chars (lit ".") One; Chars dot Plus] ++ lits ".drv" ++ [Eol].

Definition extractMajorMinor (version : jsstring) : option jsstring :=
  match jsmatch false reMajorMinor version with
  | Some versionMatch => Some (nth 1 versionMatch [])
  | None => None
  end.

Definition isNixpkgsMinorUpdateLine (line : jsstring) : bool :=
  match jsmatch false reUpdateLine line with
  | None => false
  | Some m =>
    let status := nth 1 m [] in
    if negb (jseq status (str "U.")) then false
    else
      let packageName := nth 2 m [] in
      if negb (startsWith packageName (str "nixos-system-"))
         && negb (jseq packageName (str "darwin-system"))
      then false
      else
        let beforeVersion := trim (nth 3 m []) in
        let afterVersion := trim (nth 4 m []) in
        if includes beforeVersion (str ",") || includes afterVersion (str ",") then false
        else if negb (endsWith beforeVersion (str ".drv"))
                || negb (endsWith afterVersion (str ".drv")) then false
        else
          match extractMajorMinor beforeVersion, extractMajorMinor afterVersion with
          | Some beforeMajorMinor, Some afterMajorMinor =>
            jseq beforeMajorMinor afterMajorMinor
          | _, _ => false
          end
  end.

(** [line.trim() === "CHANGED"] *)
Definition isChangedHeader (line : jsstring) : bool := jseq (trim line) (str "CHANGED").

(** [filteredLines[j]?.trim() === ""] *)
Definition blankAt (filteredLines : list jsstring) (j : nat) : bool :=
  match nth_error filteredLines j with
  | Some l => isEmpty (trim l)
  | None => false
  end.

(** The [for] loop of [filterNixpkgsMinorUpdates] over the indices of
    [filteredLines], building [output]. *)
Definition dropEmptiedHeaders (filteredLines : list jsstring) : list jsstring :=
  fold_left
    (fun output i =>
       let line := nth i filteredLines [] in
       if isChangedHeader line && blankAt filteredLines (i + 1)
       then output                       (* continue *)
       else output ++ [line])            (* output.push(line) *)
    (seq 0 (length filteredLines)) [].

Definition filteredLinesOf (diff : jsstring) : list jsstring :=
  filter (fun line => negb (isNixpkgsMinorUpdateLine line)) (splitLines diff).

Definition filterNixpkgsMinorUpdates (diff : jsstring) : jsstring :=
  if blank diff then diff
  else join [LF] (dropEmptiedHeaders (filteredLinesOf diff)).

End Utils.

(* ===================================================================== *)
(** * The Effect runtime and the host *)
(* ===================================================================== *)

Module Effect.

Inductive Tool := Git | Nix.
Inductive LogLevel := Info | Warning.

(** The interactions of the program with the outside. *)
Inductive Cmd :=
| Exec (tool : Tool) (args : list jsstring) (ignoreReturnCode : bool)
    (* exec.exec(tool, args, { ignoreReturnCode }) *)
| SaveState (name value : jsstring)            (* core.saveState *)
| Log (level : LogLevel) (message : jsstring). (* Effect.logInfo, Effect.logWarning *)

(** A trace is series-parallel: a step is one interaction, finished
    before the next step starts, or a group of fibers that run
    concurrently with each other. *)
#[warnings="-register-all"] Inductive Step :=
| Solo (c : Cmd)
| Conc (fibers : list (list Step)).

Definition Trace := list Step.

(** What a subprocess does: it cannot be started, or it exits with a
    status and its two output streams. *)
Inductive ProcOutcome :=
| SpawnFailed
| Exited (code : Z) (stdout stderr : jsstring).

(** The host: subprocess behaviour (as a function of what happened
    before), the text of the error of a rejected [exec], and the Node
    library calls the sources make. *)
Record Host := {
  proc : Trace -> Tool -> list jsstring -> ProcOutcome;
  describe : Tool -> ProcOutcome -> jsstring;
  tmpdirReal : jsstring;                          (* fs.realpathSync(os.tmpdir()) *)
  pathJoin : jsstring -> jsstring -> jsstring;     (* path.join *)
  pathRelative : jsstring -> jsstring -> jsstring  (* path.relative *)
}.

(** A finalizer of the scope: given the history, the steps it emits. *)
Definition Finalizer := Host -> Trace -> Trace.

(** The mutable state of a run: the [prefetchLogged] Ref of the Nix
    service and the finalizers registered in the current scope. *)
Record Store := { prefetchLogged : bool; finalizers : list Finalizer }.

Inductive Exit (A E : Type) :=
| Success (a : A)
| Failure (e : E).
Arguments Success {A E} a.
Arguments Failure {A E} e.

(** [Effect<A, E>]: from the host, the history and the store to the exit,
    the steps emitted and the new store. *)
Definition Effect (A E : Type) := Host -> Trace -> Store -> Exit A E * Trace * Store.

Definition succeed {A E} (a : A) : Effect A E := fun _ _ st => (Success a, [], st).
Definition fail {A E} (e : E) : Effect A E := fun _ _ st => (Failure e, [], st).
Definition void {E} : Effect unit E := succeed tt.

Definition flatMap {A B E} (m : Effect A E) (k : A -> Effect B E) : Effect B E :=
  fun h hist st =>
    match m h hist st with
    | (Success a, em1, st1) =>
      let '(r, em2, st2) := k a h (hist ++ em1) st1 in (r, em1 ++ em2, st2)
    | (Failure e, em1, st1) => (Failure e, em1, st1)
    end.

Definition map {A B E} (f : A -> B) (m : Effect A E) : Effect B E :=
  flatMap m (fun a => succeed (f a)).

Definition as_ {A B E} (b : B) (m : Effect A E) : Effect B E := map (fun _ => b) m.

(** An effect that cannot fail, used where failures are possible. *)
Definition widen {A E} (m : Effect A Empty_set) : Effect A E :=
  fun h hist st =>
    match m h hist st with
    | (Success a, em, st1) => (Success a, em, st1)
    | (Failure e, _, _) => match e with end
    end.

Definition mapError {A E E'} (f : E -> E') (m : Effect A E) : Effect A E' :=
  fun h hist st =>
    match m h hist st with
    | (Success a, em, st1) => (Success a, em, st1)
    | (Failure e, em, st1) => (Failure (f e), em, st1)
    end.

Definition catchAll {A E E'} (m : Effect A E) (handler : E -> Effect A E') : Effect A E' :=
  fun h hist st =>
    match m h hist st with
    | (Success a, em1, st1) => (Success a, em1, st1)
    | (Failure e, em1, st1) =>
      let '(r, em2, st2) := handler e h (hist ++ em1) st1 in (r, em1 ++ em2, st2)
    end.

Definition orElseSucceed {A E} (m : Effect A E) (a : A) : Effect A Empty_set :=
  catchAll m (fun _ => succeed a).

(** [Effect.ignore]: success and failure both become [void]. *)
Definition ignore {A E} (m : Effect A E) : Effect unit Empty_set :=
  catchAll (as_ tt m) (fun _ => succeed tt).

Definition emit {E} (c : Cmd) : Effect unit E := fun _ _ st => (Success tt, [Solo c], st).
Definition logInfo {E} (message : jsstring) : Effect unit E := emit (Log Info message).
Definition logWarning {E} (message : jsstring) : Effect unit E := emit (Log Warning message).

(** What the listeners of an [exec] call have collected. *)
Record ExecOutput := { exitCode : Z; stdout : jsstring; stderr : jsstring }.

(** The error of a rejected [exec] promise, with the output collected
    until then. *)
Record Rejection := { reason : jsstring; collected : ExecOutput }.

(** [Effect.tryPromise(() => exec.exec(tool, args, { ignoreReturnCode }))]:
    the promise rejects when the process cannot be started, and on a
    non-zero exit status unless [ignoreReturnCode] is set. *)
Definition exec (tool : Tool) (args : list jsstring) (ignoreReturnCode : bool)
  : Effect ExecOutput Rejection :=
  fun h hist st =>
    let outcome := proc h hist tool args in
    let r :=
      match outcome with
      | SpawnFailed =>
        Failure {| reason := describe h tool outcome;
                   collected := {| exitCode := (-1)%Z; stdout := []; stderr := [] |} |}
      | Exited code out err =>
        let o := {| exitCode := code; stdout := out; stderr := err |} in
        if negb ignoreReturnCode && negb (Z.eqb code 0)
        then Failure {| reason := describe h tool outcome; collected := o |}
        else Success o
      end in
    (r, [Solo (Exec tool args ignoreReturnCode)], st).

(** [Effect.all] of two effects without options, and [Effect.forEach]:
    one after the other, stopping at the first failure. *)
Definition all2 {A B E} (a : Effect A E) (b : Effect B E) : Effect (A * B) E :=
  flatMap a (fun x => flatMap b (fun y => succeed (x, y))).

Fixpoint forEach {A B E} (xs : list A) (f : A -> Effect B E) : Effect (list B) E :=
  match xs with
  | [] => succeed []
  | x :: xs' => flatMap (f x) (fun y => flatMap (forEach xs' f) (fun ys => succeed (y :: ys)))
  end.

(** [Effect.all(effects, { concurrency })] for effects that cannot fail:
    the fibers all start from the same history and their steps form one
    concurrent group; their writes to the store are taken in list
    order. *)
Fixpoint runFibers {A} (es : list (Effect A Empty_set)) (h : Host) (hist : Trace) (st : Store)
  : list A * list Trace * Store :=
  match es with
  | [] => ([], [], st)
  | e :: es' =>
    match e h hist st with
    | (Success a, em, st1) =>
      let '(xs, ems, st2) := runFibers es' h hist st1 in (a :: xs, em :: ems, st2)
    | (Failure x, _, _) => match x with end
    end
  end.

Definition allConcurrent {A E} (es : list (Effect A Empty_set)) : Effect (list A) E :=
  fun h hist st =>
    let '(xs, ems, st') := runFibers es h hist st in (Success xs, [Conc ems], st').

(** [Effect.acquireRelease]: after a successful acquisition the release
    action is registered in the scope. *)
Definition acquireRelease {A E} (acquire : Effect A E) (release : A -> Effect unit Empty_set)
  : Effect A E :=
  fun h hist st =>
    match acquire h hist st with
    | (Success a, em, st1) =>
      let fin : Finalizer :=
        fun h' hist' => snd (fst (release a h' hist' {| prefetchLogged := false; finalizers := [] |})) in
      (Success a, em, {| prefetchLogged := prefetchLogged st1; finalizers := fin :: finalizers st1 |})
    | (Failure e, em, st1) => (Failure e, em, st1)
    end.

(** The finalizers run latest first, each seeing what came before. *)
Fixpoint runFinalizers (fs : list Finalizer) (h : Host) (hist : Trace) : Trace :=
  match fs with
  | [] => []
  | f :: fs' => let em := f h hist in em ++ runFinalizers fs' h (hist ++ em)
  end.

(** [Effect.scoped]: a fresh scope, closed on success and on failure. *)
Definition scoped {A E} (m : Effect A E) : Effect A E :=
  fun h hist st =>
    let '(r, em, st1) := m h hist {| prefetchLogged := prefetchLogged st; finalizers := [] |} in
    (r, em ++ runFinalizers (finalizers st1) h (hist ++ em),
     {| prefetchLogged := prefetchLogged st1; finalizers := finalizers st |}).

(** All the interactions of a trace, those of concurrent fibers included. *)
Fixpoint stepCmds (s : Step) : list Cmd :=
  match s with
  | Solo c => [c]
  | Conc fibers => flat_map (flat_map stepCmds) fibers
  end.

Definition commands (t : Trace) : list Cmd := flat_map stepCmds t.

End Effect.

Declare Scope effect_scope.
Delimit Scope effect_scope with effect.
Notation "x <- m ;; k" := (Effect.flatMap m (fun x => k))
  (at level 61, m at next level, right associativity) : effect_scope.
Notation "m ;;; k" := (Effect.flatMap m (fun _ => k))
  (at level 61, right associativity) : effect_scope.

(* ===================================================================== *)
(** * errors.ts, types.ts, schemas.ts *)
(* ===================================================================== *)

(** The tagged errors of the diff pipeline. *)
Inductive AppError :=
| GitWorktreeError (operation message : jsstring)
| NixPathInfoError (flakeRef message : jsstring)
| NixBuildError (flakeRef message : jsstring)
| NixDixError (basePath prPath message : jsstring).

Record WorktreeInfo := { path : jsstring }.

Record NixOutputConfig := { displayName : jsstring; attribute : jsstring }.

Record DiffResult := {
  dr_displayName : jsstring;
  dr_attributePath : jsstring;
  dr_baseRef : jsstring;
  dr_prRef : jsstring;
  dr_diff : jsstring
}.

(** [a || b] on strings: [b] when [a] is empty. *)
Definition orDefault (a b : jsstring) : jsstring := if isEmpty a then b else a.

(* ===================================================================== *)
(** * services/git.ts *)
(* ===================================================================== *)

Module Git.
Import Effect.
Local Open Scope effect_scope.

(** [[a-zA-Z0-9-]] *)
Definition branchChar (c : N) : bool :=
  Regex.lower c || Regex.upper c || Regex.digit c || N.eqb c DASH.

(** [ref.replace(/[^a-zA-Z0-9-]/g, "-")] *)
Definition sanitizeBranchName (ref : jsstring) : jsstring :=
  replaceEach (fun c => negb (branchChar c)) (str "-") ref.

Definition execGit (args : list jsstring) (ignoreReturnCode : bool)
  : Effect Z AppError :=
  mapError
    (fun _ => GitWorktreeError (hd (str "unknown") args)
                               (str "Failed to execute git " ++ join (str " ") args))
    (map exitCode (exec Git args ignoreReturnCode)).

(** Returns false if the check fails. *)
Definition worktreeExists (path : jsstring) : Effect bool Empty_set :=
  catchAll
    (map (fun o => includes (stdout o) (str "worktree " ++ path))
         (exec Git [str "worktree"; str "list"; str "--porcelain"] false))
    (fun error =>
       as_ false (logWarning (str "Failed to check worktree existence: " ++ reason error))).

(** Only remove the worktree if it exists. *)
Definition removeWorktree (path : jsstring) : Effect unit Empty_set :=
  ignore
    (exists_ <- widen (worktreeExists path) ;;
     if (exists_ : bool)
     then as_ tt (execGit [str "worktree"; str "remove"; str "--force"; path] true)
     else void).

Definition fetchRef (baseRef : jsstring) : Effect Z AppError :=
  mapError
    (fun _ => GitWorktreeError (str "fetch") (str "Failed to fetch " ++ baseRef))
    (map exitCode
         (exec Git [str "fetch"; str "origin";
                    str "+" ++ baseRef ++ str ":refs/remotes/origin/" ++ baseRef;
                    str "--depth=1"] false)).

Definition addWorktree (worktreePath baseRef : jsstring) : Effect Z AppError :=
  mapError
    (fun _ => GitWorktreeError (str "create") (str "Failed to create worktree for " ++ baseRef))
    (map exitCode
         (exec Git [str "worktree"; str "add"; str "--detach"; worktreePath;
                    str "origin/" ++ baseRef] false)).

(** The path [createWorktree] composes. *)
Definition worktreePathOf (h : Host) (baseRef runId : jsstring) : jsstring :=
  pathJoin h (tmpdirReal h)
           (str "dix-base-" ++ sanitizeBranchName baseRef ++ str "-" ++ runId).

Record GitService := {
  createWorktree : jsstring -> jsstring -> Effect WorktreeInfo AppError
}.

Definition GitServiceLive : GitService := {|
  createWorktree baseRef runId :=
    fun h =>
      let worktreePath := worktreePathOf h baseRef runId in
      acquireRelease
        (widen (removeWorktree worktreePath) ;;;
         fetchRef baseRef ;;;
         addWorktree worktreePath baseRef ;;;
         emit (SaveState (str "worktreePath") worktreePath) ;;;
         logInfo (str "Created worktree for base branch " ++ baseRef ++ str " at "
                      ++ worktreePath) ;;;
         succeed {| path := worktreePath |})
        (fun worktree =>
           removeWorktree (path worktree) ;;;
           logInfo (str "Cleaned up worktree at " ++ path worktree))
        h
|}.

End Git.

(* ===================================================================== *)
(** * services/nix.ts *)
(* ===================================================================== *)

Module Nix.
Import Effect.
Local Open Scope effect_scope.

(** [execNix]: the exit status is -1 when [exec] itself fails; the
    chunks the listeners collected are joined and trimmed. *)
Definition execNix (args : list jsstring) (ignoreReturnCode : bool)
  : Effect ExecOutput Empty_set :=
  map (fun o => {| exitCode := exitCode o;
                   stdout := trim (stdout o);
                   stderr := trim (stderr o) |})
      (catchAll
         (exec Nix args ignoreReturnCode)
         (fun error =>
            as_ {| exitCode := (-1)%Z;
                   stdout := stdout (collected error);
                   stderr := stderr (collected error) |}
                (logWarning (str "nix exec failed unexpectedly: " ++ reason error)))).

Definition execPrefetch (flakeRef : jsstring) : Effect Z Empty_set :=
  orElseSucceed
    (map exitCode (exec Nix [str "flake"; str "prefetch-inputs"; flakeRef] true))
    1%Z.

Definition getPrefetchLogged : Effect bool Empty_set :=
  fun _ _ st => (Success (prefetchLogged st), [], st).

Definition setPrefetchLogged (b : bool) : Effect unit Empty_set :=
  fun _ _ st => (Success tt, [], {| prefetchLogged := b; finalizers := finalizers st |}).

Record NixService := {
  prefetchFlakeInputs : jsstring -> Effect unit Empty_set;
  getNixPath : jsstring -> bool -> Effect jsstring AppError;
  getDixDiff : jsstring -> jsstring -> jsstring -> Effect jsstring AppError
}.

Definition NixServiceLive : NixService := {|
  prefetchFlakeInputs flakeRef :=
    exitCode <- execPrefetch flakeRef ;;
    if negb (Z.eqb exitCode 0) then
      alreadyLogged <- getPrefetchLogged ;;
      if negb alreadyLogged then
        setPrefetchLogged true ;;;
        logInfo (str "Skipping parallel input fetch: nix flake prefetch-inputs requires Nix 2.31.0+")
      else void
    else void;

  getNixPath flakeRef build :=
    (if build then
       buildResult <- widen (execNix [str "build"; flakeRef; str "--no-link"] true) ;;
       if negb (Z.eqb (exitCode buildResult) 0)
       then fail (NixBuildError flakeRef (orDefault (stderr buildResult) (str "unknown error")))
       else void
     else void) ;;;
    let args := if build then [str "path-info"; flakeRef]
                else [str "path-info"; str "--derivation"; flakeRef] in
    r <- widen (execNix args true) ;;
    if negb (Z.eqb (exitCode r) 0)
    then fail (NixPathInfoError flakeRef (orDefault (stderr r) (str "unknown error")))
    else if isEmpty (stdout r)
    then fail (NixPathInfoError flakeRef (str "nix path-info returned empty output"))
    else succeed (stdout r);

  getDixDiff basePath prPath inputsFromPath :=
    let inputsFromRef := str "path:" ++ inputsFromPath in
    r <- widen (execNix [str "run"; str "nixpkgs#dix"; str "--inputs-from"; inputsFromRef;
                         str "--"; basePath; prPath] true) ;;
    if negb (Z.eqb (exitCode r) 0)
    then fail (NixDixError basePath prPath
                           (orDefault (stderr r) (str "dix failed with no error message")))
    else
      (if negb (isEmpty (stderr r)) then logInfo (str "dix stderr: " ++ stderr r) else void) ;;;
      succeed (stdout r)
|}.

End Nix.

(* ===================================================================== *)
(** * programs/full.ts and the scoped call of programs/shared.ts *)
(* ===================================================================== *)

Module Full.
Import Effect Git Nix.
Local Open Scope effect_scope.

Record ProcessDiffOptions := {
  attributes : list NixOutputConfig;
  build : bool;
  directory : jsstring;
  baseRef : jsstring;
  baseSha : jsstring;
  headSha : jsstring;
  cwd : jsstring;
  runId : jsstring
}.

Section WithServices.
Variable git : GitService.
Variable nix : NixService.

Definition processNixOutput
           (config : NixOutputConfig) (baseFlakeRef prFlakeRef baseSha headSha : jsstring)
           (build : bool) (worktreePath : jsstring) : Effect DiffResult AppError :=
  logInfo (str "Processing " ++ displayName config ++ str ": "
               ++ baseFlakeRef ++ str "#" ++ attribute config ++ str " vs "
               ++ prFlakeRef ++ str "#" ++ attribute config) ;;;
  paths <- all2 (getNixPath nix (baseFlakeRef ++ str "#" ++ attribute config) build)
                (getNixPath nix (prFlakeRef ++ str "#" ++ attribute config) build) ;;
  let basePath := fst paths in
  let prPath := snd paths in
  logInfo (str "Base path: " ++ basePath) ;;;
  logInfo (str "PR path: " ++ prPath) ;;;
  diff <- getDixDiff nix basePath prPath worktreePath ;;
  succeed {| dr_displayName := displayName config;
             dr_attributePath := attribute config;
             dr_baseRef := baseSha;
             dr_prRef := headSha;
             dr_diff := diff |}.

(** The two root references of a run. *)
Definition baseFlakeRefOf (h : Host) (options : ProcessDiffOptions) (worktree : WorktreeInfo)
  : jsstring :=
  let relativePath := pathRelative h (cwd options) (directory options) in
  if isEmpty relativePath || jseq relativePath (str ".")
  then str "path:" ++ path worktree
  else str "path:" ++ path worktree ++ str "?dir=" ++ relativePath.

Definition processDiffResults (options : ProcessDiffOptions)
  : Effect (list DiffResult) AppError :=
  worktree <- createWorktree git (baseRef options) (runId options) ;;
  fun h =>
    let baseFlakeRef := baseFlakeRefOf h options worktree in
    let prFlakeRef := directory options in
    (allConcurrent [prefetchFlakeInputs nix baseFlakeRef;
                    prefetchFlakeInputs nix prFlakeRef] ;;;
     forEach (attributes options)
             (fun config =>
                processNixOutput config baseFlakeRef prFlakeRef
                                 (baseSha options) (headSha options)
                                 (build options) (path worktree))) h.

(** [Effect.scoped(processDiffResults({ ... }))] of [runDiffPipeline]. *)
Definition runScoped (options : ProcessDiffOptions) : Effect (list DiffResult) AppError :=
  scoped (processDiffResults options).

End WithServices.

End Full.

(* ===================================================================== *)
(** * services/github.ts: the report aggregator *)
(* ===================================================================== *)

Module Github.

(** Modelled from the spec: [services/github.ts] is not among the sources,
    only its tests and its callers are. The global budget for the diff
    bodies of a report (section 4.5, step 1). *)
Definition MAX_DIFF_LENGTH : nat := N.to_nat 60000.

(** Modelled from the spec: the hard ceiling of a report, the comment-size
    limit of the host platform (section 4.5). *)
Definition MAX_COMMENT_LENGTH : nat := N.to_nat 65536.

(** Modelled from the spec: what [truncateDiff] returns, as its tests read
    it: the text and whether it was truncated. *)
Record TruncateResult := { text : jsstring; truncated : bool }.

(** Modelled from the spec: the marker appended to a truncated diff
    records the original total length, ["... (truncated, <N> chars total)"]. *)
Definition truncationMarker (total : nat) : jsstring :=
  str "... (truncated, " ++ decimal total ++ str " chars total)".

(** Modelled from the spec: [truncateDiff] of [services/github.ts]. A diff
    text that exceeds the budget is cut to that many characters and gets
    the marker; one at or under the budget passes unmodified. *)
Definition truncateDiff (diff : jsstring) (maxLength : nat) : TruncateResult :=
  if Nat.ltb maxLength (List.length diff)
  then {| text := firstn maxLength diff ++ truncationMarker (List.length diff);
          truncated := true |}
  else {| text := diff; truncated := false |}.

(** Modelled from the spec: [perResultBudget = globalBudget / count(results)],
    the same for every result. A length exceeds the quotient exactly when
    it exceeds its integer part, and a cut takes whole characters; with no
    result there is nothing to allot. *)
Definition perResultBudget (globalBudget count : nat) : nat := globalBudget / count.

(** Modelled from the spec: [checkIfAnyDiffTruncated] of
    [services/github.ts], whether any result exceeds its share. *)
Definition checkIfAnyDiffTruncated (results : list DiffResult) : bool :=
  existsb (fun r => truncated (truncateDiff (dr_diff r)
                                            (perResultBudget MAX_DIFF_LENGTH (List.length results))))
          results.

(** Modelled from the spec: the characters [sanitizeDisplayName] removes;
    its tests name backslash, asterisk, underscore, backtick, brackets,
    parentheses and hash. *)
Definition markdownChar (c : N) : bool :=
  existsb (N.eqb c) [92; 42; 95; 96; 91; 93; 40; 41; 35]%N.

(** Modelled from the spec: [sanitizeDisplayName] of [services/github.ts],
    the label of a section. *)
Definition sanitizeDisplayName (name : jsstring) : jsstring :=
  filter (fun c => negb (markdownChar c)) name.

(** Modelled from the spec: the options of [formatAggregatedComment], a
    run identifier and a repository URL, both optional. *)
Record FormatCommentOptions := { runId : option jsstring; repoUrl : option jsstring }.

(** Modelled from the spec: the head of the collapsible section of a
    result, labelled with the sanitized display name, up to the body;
    "No differences found" is shown when the diff is empty. *)
Definition sectionOpen (r : DiffResult) : jsstring :=
  str "<details>" ++ nl ++ str "<summary>" ++ sanitizeDisplayName (dr_displayName r)
      ++ str "</summary>" ++ nl ++ nl
      ++ (if isEmpty (dr_diff r) then str "No differences found" else str "```" ++ nl).

(** Modelled from the spec: the end of the section of a result. *)
Definition sectionClose (r : DiffResult) : jsstring :=
  (if isEmpty (dr_diff r) then [] else nl ++ str "```")
    ++ nl ++ nl ++ str "</details>" ++ nl ++ nl.

(** Modelled from the spec: one collapsible section per result; its body
    is the possibly truncated diff. *)
Definition formatSection (budget : nat) (r : DiffResult) : jsstring :=
  sectionOpen r ++ text (truncateDiff (dr_diff r) budget) ++ sectionClose r.

(** Modelled from the spec: the marker comment is specific to the result
    when exactly one target is present and generic otherwise. *)
Definition commentMarker (results : list DiffResult) : jsstring :=
  match results with
  | [r] => str "<!-- nix-diff-action:" ++ dr_displayName r ++ str " -->"
  | _ => str "<!-- nix-diff-action -->"
  end.

(** Modelled from the spec: when a result was truncated and the caller
    gives a run identifier and a repository URL, a link to the untruncated
    data. *)
Definition artifactLink (results : list DiffResult) (options : FormatCommentOptions) : jsstring :=
  match runId options, repoUrl options with
  | Some run, Some url =>
    if checkIfAnyDiffTruncated results
    then str "[View full diff in artifacts](" ++ url ++ str "/actions/runs/" ++ run ++ str ")"
             ++ nl ++ nl
    else []
  | _, _ => []
  end.

(** Modelled from the spec: the footer carries the commit SHA. *)
Definition commentFooter (commitSha : jsstring) : jsstring :=
  str "<!-- nix-diff-action-footer sha=" ++ commitSha ++ str " -->" ++ nl
      ++ str "Generated by [nix-diff-action](https://github.com/natsukium/nix-diff-action)"
      ++ str " with [dix](https://github.com/faukah/dix)".

(** Modelled from the spec: [formatAggregatedComment] of
    [services/github.ts], steps 1 to 6 of section 4.5. *)
Definition formatAggregatedComment
           (results : list DiffResult) (commitSha : jsstring) (options : FormatCommentOptions)
  : jsstring :=
  let budget := perResultBudget MAX_DIFF_LENGTH (List.length results) in
  commentMarker results ++ nl ++ str "## Nix Diff" ++ nl ++ nl
    ++ concat (List.map (formatSection budget) results)
    ++ artifactLink results options
    ++ commentFooter commitSha.

End Github.

(* ===================================================================== *)
(** * Views used in the proofs, and sample inputs *)
(* ===================================================================== *)

(** [sub] is a subsequence of [l]: some elements of [l], in order. *)
Inductive subseq {A : Type} : list A -> list A -> Prop :=
| subseq_nil : subseq [] []
| subseq_skip x sub l : subseq sub l -> subseq sub (x :: l)
| subseq_keep x sub l : subseq sub l -> subseq (x :: sub) (x :: l).

(** The same as a test. *)
Fixpoint subseqb (sub l : list jsstring) : bool :=
  match sub, l with
  | [], _ => true
  | _ :: _, [] => false
  | x :: sub', y :: l' => (jseq x y && subseqb sub' l') || subseqb sub l'
  end.

(** The loop of [filterNixpkgsMinorUpdates] by recursion on the lines:
    a CHANGED header goes when the line after it is blank. *)
Fixpoint dropHeaders (ls : list jsstring) : list jsstring :=
  match ls with
  | [] => []
  | l :: rest =>
    if Utils.isChangedHeader l && Utils.blankAt rest 0 then dropHeaders rest
    else l :: dropHeaders rest
  end.

(** A line ends in a carriage return. *)
Definition endsInCR (l : jsstring) : bool := endsWith l [CR].

(** No line but the last ends in a carriage return. *)
Definition crSafe (ls : list jsstring) : bool :=
  forallb (fun l => negb (endsInCR l)) (removelast ls).

(** Two CHANGED headers in a row, followed by a blank line. *)
Fixpoint stackedHeaders (ls : list jsstring) : bool :=
  match ls with
  | a :: rest =>
    (Utils.isChangedHeader a
     && match rest with
        | b :: c :: _ => Utils.isChangedHeader b && isEmpty (trim c)
        | _ => false
        end)
    || stackedHeaders rest
  | [] => false
  end.

(** A line without line feed. *)
Definition noLF (l : jsstring) : Prop := ~ In LF l.

(** Sample diff texts. *)
Definition diffSamePaths : jsstring :=
  str "<<< /nix/store/c46h-nix-shell.drv" ++ nl ++
  str ">>>   /nix/store/c46h-nix-shell.drv" ++ nl ++ nl ++
  str "SIZE: 14.6 MiB -> 14.6 MiB".

Definition diffStackedHeaders : jsstring :=
  str "CHANGED" ++ nl ++ str "CHANGED" ++ nl ++ nl.

Definition diffMinorUpdate : jsstring :=
  str "<<< /nix/store/old-nixos-system-eule-26.05.20251225.3e2499d.drv" ++ nl ++
  str ">>> /nix/store/new-nixos-system-eule-26.05.20251228.c0b0e0f.drv" ++ nl ++ nl ++
  str "CHANGED" ++ nl ++
  str "[U.] nixos-system-eule 26.05.20251225.3e2499d.drv -> 26.05.20251228.c0b0e0f.drv" ++ nl ++
  str "[U.] hello 1.0.drv -> 1.1.drv" ++ nl ++ nl ++
  str "SIZE: 10.0 MiB -> 10.0 MiB" ++ nl ++
  str "DIFF: 100 KiB".

(** The three components of the outcome of an effect. *)
Definition exitOf {A E} (o : Effect.Exit A E * Effect.Trace * Effect.Store) : Effect.Exit A E :=
  fst (fst o).
Definition emittedOf {A E} (o : Effect.Exit A E * Effect.Trace * Effect.Store) : Effect.Trace :=
  snd (fst o).
Definition storeOf {A E} (o : Effect.Exit A E * Effect.Trace * Effect.Store) : Effect.Store :=
  snd o.

(** What [execNix] returns for a command, and the steps it emits, given
    what the host makes of the command after the history [hist]. *)
Definition nixResult (h : Effect.Host) (hist : Effect.Trace) (args : list jsstring)
  : Effect.ExecOutput :=
  match Effect.proc h hist Effect.Nix args with
  | Effect.SpawnFailed =>
    {| Effect.exitCode := (-1)%Z; Effect.stdout := []; Effect.stderr := [] |}
  | Effect.Exited code out err =>
    {| Effect.exitCode := code; Effect.stdout := trim out; Effect.stderr := trim err |}
  end.

Definition nixSteps (h : Effect.Host) (hist : Effect.Trace) (args : list jsstring)
  : Effect.Trace :=
  Effect.Solo (Effect.Exec Effect.Nix args true)
  :: match Effect.proc h hist Effect.Nix args with
     | Effect.SpawnFailed =>
       [Effect.Solo (Effect.Log Effect.Warning
                       (str "nix exec failed unexpectedly: "
                            ++ Effect.describe h Effect.Nix Effect.SpawnFailed))]
     | Effect.Exited _ _ _ => []
     end.

(** The commands of [getNixPath] and [getDixDiff]. *)
Definition buildArgs (flakeRef : jsstring) : list jsstring :=
  [str "build"; flakeRef; str "--no-link"].

Definition pathInfoArgs (flakeRef : jsstring) (build : bool) : list jsstring :=
  if build then [str "path-info"; flakeRef]
  else [str "path-info"; str "--derivation"; flakeRef].

Definition dixArgs (basePath prPath inputsFromPath : jsstring) : list jsstring :=
  [str "run"; str "nixpkgs#dix"; str "--inputs-from"; str "path:" ++ inputsFromPath;
   str "--"; basePath; prPath].

Definition worktreeListArgs : list jsstring :=
  [str "worktree"; str "list"; str "--porcelain"].

Definition worktreeRemoveArgs (path : jsstring) : list jsstring :=
  [str "worktree"; str "remove"; str "--force"; path].

(** The existence probe fails: [git worktree list] cannot be started or
    exits with a non-zero status. *)
Definition probeFails (h : Effect.Host) (hist : Effect.Trace) : bool :=
  match Effect.proc h hist Effect.Git worktreeListArgs with
  | Effect.SpawnFailed => true
  | Effect.Exited code _ _ => negb (Z.eqb code 0)
  end.

(** The existence probe runs and lists the path. *)
Definition probeFinds (h : Effect.Host) (hist : Effect.Trace) (path : jsstring) : bool :=
  match Effect.proc h hist Effect.Git worktreeListArgs with
  | Effect.SpawnFailed => false
  | Effect.Exited code out _ => Z.eqb code 0 && includes out (str "worktree " ++ path)
  end.

(** The store at the start of a run. *)
Definition store0 : Effect.Store :=
  {| Effect.prefetchLogged := false; Effect.finalizers := [] |}.

(** Sample hosts: POSIX paths without dots, a temp directory [/tmp], and
    subprocesses that answer by tool and first argument only. *)
Definition sampleJoin (a b : jsstring) : jsstring := a ++ str "/" ++ b.

Definition sampleRelative (from to : jsstring) : jsstring :=
  if jseq from to then [] else skipn (List.length from + 1) to.

Definition sampleHost (p : Effect.Tool -> list jsstring -> Effect.ProcOutcome) : Effect.Host :=
  {| Effect.proc := fun _ => p;
     Effect.describe := fun _ _ => str "Error: the process failed";
     Effect.tmpdirReal := str "/tmp";
     Effect.pathJoin := sampleJoin;
     Effect.pathRelative := sampleRelative |}.

(** Every command succeeds; [nix path-info] prints a store path and the
    diff tool prints nothing. *)
Definition hostOk : Effect.Host :=
  sampleHost (fun tool args =>
                match tool with
                | Effect.Git => Effect.Exited 0 [] []
                | Effect.Nix =>
                  if jseq (hd [] args) (str "path-info")
                  then Effect.Exited 0 (str "/nix/store/abc-system.drv" ++ nl) []
                  else Effect.Exited 0 [] []
                end).

(** [nix build] exits with status 1 and writes nothing. *)
Definition hostBuildSilent : Effect.Host :=
  sampleHost (fun tool args =>
                match tool with
                | Effect.Git => Effect.Exited 0 [] []
                | Effect.Nix =>
                  if jseq (hd [] args) (str "build") then Effect.Exited 1 [] []
                  else Effect.Exited 0 (str "/nix/store/abc-system" ++ nl) []
                end).

(** [nix build] exits with status 1 and an error on stderr. *)
Definition hostBuildFails : Effect.Host :=
  sampleHost (fun tool args =>
                match tool with
                | Effect.Git => Effect.Exited 0 [] []
                | Effect.Nix =>
                  if jseq (hd [] args) (str "build")
                  then Effect.Exited 1 [] (str "error: builder failed" ++ nl)
                  else Effect.Exited 0 (str "/nix/store/abc-system" ++ nl) []
                end).

(** [nix path-info] exits with status 1. *)
Definition hostPathInfoFails : Effect.Host :=
  sampleHost (fun tool args =>
                match tool with
                | Effect.Git => Effect.Exited 0 [] []
                | Effect.Nix =>
                  if jseq (hd [] args) (str "path-info")
                  then Effect.Exited 1 [] (str "error: flake has no such attribute")
                  else Effect.Exited 0 [] []
                end).

(** [git worktree list] cannot be started. *)
Definition hostNoGit : Effect.Host :=
  sampleHost (fun tool args =>
                match tool with
                | Effect.Git => Effect.SpawnFailed
                | Effect.Nix => Effect.Exited 0 [] []
                end).

(** [git worktree list] lists a checkout at [/tmp/dix-base-main-42]. *)
Definition hostStaleWorktree : Effect.Host :=
  sampleHost (fun tool args =>
                match tool with
                | Effect.Git =>
                  if jseq (hd [] (tl args)) (str "list")
                  then Effect.Exited 0 (str "worktree /tmp/dix-base-main-42" ++ nl) []
                  else Effect.Exited 128 [] (str "fatal: cannot remove")
                | Effect.Nix => Effect.Exited 0 [] []
                end).

Definition sampleRef : jsstring := str "/workspace/repo#packages.x86_64-linux.default".

(** Every interaction an effect emits on the host [h] satisfies [P]. *)
Definition emitsOn {A E} (h : Effect.Host) (P : Effect.Cmd -> Prop) (m : Effect.Effect A E)
  : Prop :=
  forall hist st, Forall P (Effect.commands (emittedOf (m h hist st))).




(** The schedule of a run: what the Nix commands of a trace are, and
    which of them ran one after the other or concurrently. *)
Inductive Phase :=
| Prefetch (flakeRef : jsstring)
| Build (flakeRef : jsstring)
| PathInfo (flakeRef : jsstring) (derivation : bool)
| Diff (inputsFromRef : jsstring)
| OtherNix (args : list jsstring).

Inductive Slot :=
| Seq (p : Phase)
| Par (fibers : list (list Phase)).

Definition classify (args : list jsstring) : Phase :=
  match args with
  | [a; b] =>
    if jseq a (str "path-info") then PathInfo b false else OtherNix args
  | [a; b; c] =>
    if jseq a (str "flake") then Prefetch c
    else if jseq a (str "build") then Build b
    else if jseq a (str "path-info") && jseq b (str "--derivation") then PathInfo c true
    else OtherNix args
  | a :: _ =>
    if jseq a (str "run") then Diff (nth 3 args []) else OtherNix args
  | [] => OtherNix []
  end.

Definition phaseOf (c : Effect.Cmd) : list Phase :=
  match c with
  | Effect.Exec Effect.Nix args _ => [classify args]
  | _ => []
  end.

Definition slotOf (s : Effect.Step) : list Slot :=
  match s with
  | Effect.Solo c => List.map Seq (phaseOf c)
  | Effect.Conc fibers =>
    [Par (List.map (fun fiber => flat_map phaseOf (Effect.commands fiber)) fibers)]
  end.

Definition schedule (t : Effect.Trace) : list Slot := flat_map slotOf t.

(** The schedule of one artifact resolution, of one target, of a run. *)
Definition resolveSlots (build : bool) (flakeRef : jsstring) : list Slot :=
  if build then [Seq (Build flakeRef); Seq (PathInfo flakeRef false)]
  else [Seq (PathInfo flakeRef true)].

Definition targetSlots (build : bool) (baseFlakeRef prFlakeRef worktreePath : jsstring)
           (config : NixOutputConfig) : list Slot :=
  resolveSlots build (baseFlakeRef ++ str "#" ++ attribute config)
  ++ resolveSlots build (prFlakeRef ++ str "#" ++ attribute config)
  ++ [Seq (Diff (str "path:" ++ worktreePath))].

Definition pipelineSlots (h : Effect.Host) (options : Full.ProcessDiffOptions) : list Slot :=
  let worktree := {| path := Git.worktreePathOf h (Full.baseRef options) (Full.runId options) |} in
  let baseFlakeRef := Full.baseFlakeRefOf h options worktree in
  let prFlakeRef := Full.directory options in
  Par [[Prefetch baseFlakeRef]; [Prefetch prFlakeRef]]
  :: flat_map (targetSlots (Full.build options) baseFlakeRef prFlakeRef (path worktree))
              (Full.attributes options).

(** [a] is an initial part of [b]. *)
Definition isPrefix {A} (a b : list A) : Prop := exists rest, b = a ++ rest.

(** An effect runs to the schedule [slots] on the host [h]: it emits an
    initial part of it, and all of it when it succeeds. *)
Definition runsTo {A E} (h : Effect.Host) (slots : list Slot) (m : Effect.Effect A E) : Prop :=
  forall hist st,
    isPrefix (schedule (emittedOf (m h hist st))) slots /\
    (forall a, exitOf (m h hist st) = Effect.Success a ->
               schedule (emittedOf (m h hist st)) = slots).

(** At least one artifact resolution runs inside a concurrent group. *)
Definition isResolution (p : Phase) : bool :=
  match p with Build _ | PathInfo _ _ => true | _ => false end.

Definition resolvesConcurrently (slots : list Slot) : bool :=
  existsb (fun s => match s with
                    | Par fibers => existsb (existsb isResolution) fibers
                    | Seq _ => false
                    end) slots.

(** Sample runs: two targets, compared in the workspace root. *)
Definition sampleOptions : Full.ProcessDiffOptions :=
  {| Full.attributes :=
       [ {| displayName := str "host1"; attribute := str "nixosConfigurations.host1" |};
         {| displayName := str "host2"; attribute := str "nixosConfigurations.host2" |} ];
     Full.build := false;
     Full.directory := str "/workspace/repo";
     Full.baseRef := str "main";
     Full.baseSha := str "abc123def456";
     Full.headSha := str "789ghi012jkl";
     Full.cwd := str "/workspace/repo";
     Full.runId := str "42" |}.

Definition sampleRun :=
  Full.processDiffResults Git.GitServiceLive Nix.NixServiceLive sampleOptions hostOk [] store0.

(** What the sample run returns: one result per target, with empty diffs. *)
Definition sampleResults : list DiffResult :=
  [ {| dr_displayName := str "host1"; dr_attributePath := str "nixosConfigurations.host1";
       dr_baseRef := str "abc123def456"; dr_prRef := str "789ghi012jkl"; dr_diff := [] |};
    {| dr_displayName := str "host2"; dr_attributePath := str "nixosConfigurations.host2";
       dr_baseRef := str "abc123def456"; dr_prRef := str "789ghi012jkl"; dr_diff := [] |} ].

(** An effect that emits no Nix command and forks no fiber on [h]. *)
Definition quiet {A E} (h : Effect.Host) (m : Effect.Effect A E) : Prop :=
  forall hist st, schedule (emittedOf (m h hist st)) = [].

(** The total length of the section bodies of a report, of the markers in
    them, and of everything else in the report. *)
Definition bodiesLength (budget : nat) (results : list DiffResult) : nat :=
  list_sum (List.map (fun r => List.length (Github.text (Github.truncateDiff (dr_diff r) budget)))
                     results).

Definition markersLength (budget : nat) (results : list DiffResult) : nat :=
  list_sum (List.map (fun r => if Github.truncated (Github.truncateDiff (dr_diff r) budget)
                               then List.length (Github.truncationMarker (List.length (dr_diff r)))
                               else 0)
                     results).

Definition overheadLength (results : list DiffResult) (commitSha : jsstring)
           (options : Github.FormatCommentOptions) : nat :=
  List.length (Github.commentMarker results ++ nl ++ str "## Nix Diff" ++ nl ++ nl)
  + list_sum (List.map (fun r => List.length (Github.sectionOpen r)
                                 + List.length (Github.sectionClose r)) results)
  + List.length (Github.artifactLink results options)
  + List.length (Github.commentFooter commitSha).

(** Sample reports. *)
Definition noOptions : Github.FormatCommentOptions :=
  {| Github.runId := None; Github.repoUrl := None |}.

Definition resultWithDiff (name : jsstring) (diff : jsstring) : DiffResult :=
  {| dr_displayName := name; dr_attributePath := str "nixosConfigurations.host";
     dr_baseRef := str "abc123def456"; dr_prRef := str "789ghi012jkl"; dr_diff := diff |}.

(** One target with a diff of 70000 characters. *)
Definition oneLargeResult : list DiffResult :=
  [resultWithDiff (str "host1") (repeat 97%N (N.to_nat 70000))].

(** The results the aggregator's tests generate: target [i] is named
    [host<i>], with a diff of [size] copies of one character. *)
Definition generatedResult (size : nat) (c : N) (i : nat) : DiffResult :=
  {| dr_displayName := str "host" ++ decimal i;
     dr_attributePath := str "nixosConfigurations.host" ++ decimal i ++ str "...";
     dr_baseRef := str "github:owner/repo";
     dr_prRef := str ".";
     dr_diff := repeat c size |}.

Definition generatedResults (count size : nat) (c : N) : list DiffResult :=
  List.map (generatedResult size c) (seq 1 count).

(** Two targets with diffs of 50000 characters, and five with diffs of
    30000 characters, as in the tests. *)
Definition twoLargeResults : list DiffResult := generatedResults 2 (N.to_nat 50000) 98%N.

Definition fiveLargeResults : list DiffResult := generatedResults 5 (N.to_nat 30000) 99%N.

(** Three hundred targets, [host1] to [host300], each with a diff of 201
    characters. *)
Definition manyTargets : list DiffResult := generatedResults 300 201 120%N.

(** No two names of the list are the same. *)
Fixpoint allDistinct (names : list jsstring) : bool :=
  match names with
  | [] => true
  | n :: rest => negb (existsb (jseq n) rest) && allDistinct rest
  end.

(** How often a text occurs in another. *)
Fixpoint occurrences (needle s : jsstring) : nat :=
  (if startsWith s needle then 1 else 0)
  + match s with
    | [] => 0
    | _ :: s' => occurrences needle s'
    end.

Definition sampleSha : jsstring := str "abc123def456".

(** The matcher context after the code units [w] have been consumed. *)
Definition eats (w : jsstring) (x : Regex.ctx) : Regex.ctx :=
  fold_left (fun x c => Regex.eat c x) w x.

(** The numbers of repetitions a quantifier admits. *)
Definition admits (q : Regex.quant) (n : nat) : Prop :=
  match q with
  | Regex.One => n = 1
  | Regex.Opt => n <= 1
  | Regex.Star => True
  | Regex.Plus | Regex.PlusLazy => 1 <= n
  end.

(** What it means for one node, and for a pattern, to take the matcher
    from the context [x] and the input [s] to [x'] and [s']: the meaning
    of the pattern, without the priorities among the ways to match. *)
Definition nodeTakes (multiline : bool) (n : Regex.node)
           (x : Regex.ctx) (s : jsstring) (x' : Regex.ctx) (s' : jsstring) : Prop :=
  match n with
  | Regex.Chars cls q =>
    exists w, s = w ++ s' /\ x' = eats w x /\ forallb cls w = true /\ admits q (List.length w)
  | Regex.Bol => Regex.atLineStart multiline x = true /\ x' = x /\ s' = s
  | Regex.Eol => Regex.atLineEnd multiline s = true /\ x' = x /\ s' = s
  | Regex.GroupOpen =>
    x' = {| Regex.prev := Regex.prev x; Regex.opened := [] :: Regex.opened x;
            Regex.closed := Regex.closed x |} /\ s' = s
  | Regex.GroupClose =>
    exists g gs,
      Regex.opened x = g :: gs /\
      x' = {| Regex.prev := Regex.prev x; Regex.opened := gs;
              Regex.closed := rev g :: Regex.closed x |} /\ s' = s
  end.

Fixpoint patternTakes (multiline : bool) (re : list Regex.node)
         (x : Regex.ctx) (s : jsstring) (x' : Regex.ctx) (s' : jsstring) : Prop :=
  match re with
  | [] => x' = x /\ s' = s
  | n :: re' =>
    exists x1 s1, nodeTakes multiline n x s x1 s1 /\ patternTakes multiline re' x1 s1 x' s'
  end.

(** The text before a position is empty or ends in a line terminator;
    the text after it is empty or starts with one. *)
Definition endsLine (pre : jsstring) : Prop :=
  pre = [] \/ exists pre' c, pre = pre' ++ [c] /\ isLineTerminator c = true.

Definition startsLine (post : jsstring) : Prop :=
  post = [] \/ exists c post', post = c :: post' /\ isLineTerminator c = true.

(** The pattern of a path line with the marker [marker]:
    [/^<marker>\s*(.+)$/m]. *)
Definition rePathLine (marker : String.string) : list Regex.node :=
  [Regex.Bol] ++ Regex.lits marker
    ++ [Regex.Chars Regex.space Regex.Star; Regex.GroupOpen;
        Regex.Chars Regex.dot Regex.Plus; Regex.GroupClose; Regex.Eol].

(** The code unit before the position that follows [skipped], when
    [before] is the one before [skipped]. *)
Definition lastOr (before : option N) (skipped : jsstring) : option N :=
  match rev skipped with
  | c :: _ => Some c
  | [] => before
  end.

(** The diff texts of the tests of the source. *)
Definition diffPathsDiffer : jsstring :=
  str "<<< /nix/store/abc123-old.drv" ++ nl ++
  str ">>> /nix/store/def456-new.drv" ++ nl ++ nl ++
  str "SIZE: 10.0 MiB -> 12.0 MiB" ++ nl ++
  str "DIFF: 500 KiB".

Definition diffNoBasePath : jsstring :=
  str ">>> /nix/store/def456-new.drv" ++ nl ++ nl ++ str "SIZE: 10.0 MiB".

Definition diffNoPrPath : jsstring :=
  str "<<< /nix/store/abc123-old.drv" ++ nl ++ nl ++ str "SIZE: 10.0 MiB".

Definition diffOnlyMinorUpdate : jsstring :=
  str "<<< /nix/store/old-nixos-system-eule-26.05.20251225.3e2499d.drv" ++ nl ++
  str ">>> /nix/store/new-nixos-system-eule-26.05.20251228.c0b0e0f.drv" ++ nl ++ nl ++
  str "CHANGED" ++ nl ++
  str "[U.] nixos-system-eule 26.05.20251225.3e2499d.drv -> 26.05.20251228.c0b0e0f.drv" ++ nl ++ nl ++
  str "SIZE: 10.0 MiB -> 10.0 MiB" ++ nl ++
  str "DIFF: -248 bytes".

(* ===================================================================== *)
(** * cleanup.ts: the post step of the action *)
(* ===================================================================== *)

Module Cleanup.
Import Effect Git.
Local Open Scope effect_scope.

Section WithState.

(** [core.getState]: the state saved by the main step, the empty string
    for a name that was never saved. *)
Variable getState : jsstring -> jsstring.

Definition cleanup : Effect unit Empty_set :=
  let worktreePath := getState (str "worktreePath") in
  if isEmpty worktreePath
  then logInfo (str "No worktree path saved, skipping cleanup")
  else removeWorktree worktreePath ;;;
       logInfo (str "Cleaned up worktree at " ++ worktreePath).

(** [cleanup.pipe(Effect.catchAll(...))]: [cleanup] has no error to catch. *)
Definition run : Effect unit Empty_set :=
  catchAll cleanup (fun error : Empty_set => match error with end).

End WithState.

End Cleanup.

(* ===================================================================== *)
(** * Further views used in the proofs *)
(* ===================================================================== *)

(** A string that does not begin, or end, with white space. *)
Definition startsClean (s : jsstring) : bool :=
  match s with
  | c :: _ => negb (isSpace c)
  | [] => true
  end.

Definition endsClean (s : jsstring) : bool := startsClean (rev s).

(** The text with every CR LF turned into LF. *)
Fixpoint normalizeCRLF (s : jsstring) : jsstring :=
  match s with
  | [] => []
  | c :: r =>
    match r with
    | d :: r' =>
      if N.eqb c CR && N.eqb d LF then LF :: normalizeCRLF r' else c :: normalizeCRLF r
    | [] => [c]
    end
  end.

(** The number of line feeds of a text. *)
Definition countLF (s : jsstring) : nat := count_occ N.eq_dec s LF.

(** Some CHANGED header stands directly before a blank line. *)
Fixpoint headerBeforeBlank (ls : list jsstring) : bool :=
  match ls with
  | a :: rest => (Utils.isChangedHeader a && Utils.blankAt rest 0) || headerBeforeBlank rest
  | [] => false
  end.

(** A line the filter has no reason to touch: neither a minor update of
    the system nor a CHANGED header. *)
Definition plainLine (l : jsstring) : bool :=
  negb (Utils.isNixpkgsMinorUpdateLine l) && negb (Utils.isChangedHeader l).

(** [nix path-info] exits with status 0 and prints a blank line. *)
Definition hostBlankPathInfo : Effect.Host :=
  sampleHost (fun tool args =>
                match tool with
                | Effect.Git => Effect.Exited 0 [] []
                | Effect.Nix => Effect.Exited 0 (str "  " ++ nl) []
                end).

(** The diff tool exits with status 0, prints a diff and chatters on stderr. *)
Definition hostDixChatters : Effect.Host :=
  sampleHost (fun tool args =>
                match tool with
                | Effect.Git => Effect.Exited 0 [] []
                | Effect.Nix =>
                  if jseq (hd [] args) (str "run")
                  then Effect.Exited 0 (str "<<< /a" ++ nl ++ str ">>> /b" ++ nl)
                                     (str "warning: Git tree is dirty" ++ nl)
                  else Effect.Exited 0 (str "/nix/store/abc-system.drv" ++ nl) []
                end).

(** The diff tool exits with status 1 and writes nothing. *)
Definition hostDixFails : Effect.Host :=
  sampleHost (fun tool args =>
                match tool with
                | Effect.Git => Effect.Exited 0 [] []
                | Effect.Nix =>
                  if jseq (hd [] args) (str "run") then Effect.Exited 1 [] []
                  else Effect.Exited 0 (str "/nix/store/abc-system.drv" ++ nl) []
                end).

(** No line of the list is a minor update of the system. *)
Definition noMinorUpdates (ls : list jsstring) : bool :=
  forallb (fun l => negb (Utils.isNixpkgsMinorUpdateLine l)) ls.

(** A report with CR LF line ends and nothing to filter. *)
Definition diffWindowsLineEnds : jsstring :=
  str "<<< /nix/store/aaa-system.drv" ++ [CR; LF]
  ++ str ">>> /nix/store/bbb-system.drv" ++ [CR; LF]
  ++ str "[U.] firefox 120.0 -> 121.0" ++ [CR; LF].

(** A report of six lines. *)
Definition diffSixLines : jsstring :=
  str "<<< /a" ++ nl ++ str ">>> /b" ++ nl ++ nl ++ str "CHANGED" ++ nl
  ++ str "[U.] firefox 120.0 -> 121.0" ++ nl.

(** The commands of [fetchRef] and [addWorktree]. *)
Definition fetchArgs (baseRef : jsstring) : list jsstring :=
  [str "fetch"; str "origin"; str "+" ++ baseRef ++ str ":refs/remotes/origin/" ++ baseRef;
   str "--depth=1"].

Definition addArgs (worktreePath baseRef : jsstring) : list jsstring :=
  [str "worktree"; str "add"; str "--detach"; worktreePath; str "origin/" ++ baseRef].

(** A git command, run after the history [hist], starts and exits with
    status 0. *)
Definition gitOk (h : Effect.Host) (hist : Effect.Trace) (args : list jsstring) : bool :=
  match Effect.proc h hist Effect.Git args with
  | Effect.SpawnFailed => false
  | Effect.Exited code _ _ => Z.eqb code 0
  end.

(** The release action [createWorktree] registers for the checkout at
    [path], as a finalizer of the scope. *)
Definition releaseOf (path : jsstring) : Effect.Finalizer :=
  fun h hist =>
    emittedOf (Effect.flatMap (Git.removeWorktree path)
                              (fun _ => Effect.logInfo (str "Cleaned up worktree at " ++ path))
                              h hist store0).

(** [git fetch] exits with status 128. *)
Definition hostFetchFails : Effect.Host :=
  sampleHost (fun tool args =>
                match tool with
                | Effect.Git =>
                  if jseq (hd [] args) (str "fetch")
                  then Effect.Exited 128 [] (str "fatal: couldn't find remote ref")
                  else Effect.Exited 0 [] []
                | Effect.Nix => Effect.Exited 0 [] []
                end).

(** [git worktree add] exits with status 128. *)
Definition hostAddFails : Effect.Host :=
  sampleHost (fun tool args =>
                match tool with
                | Effect.Git =>
                  if jseq (hd [] (tl args)) (str "add")
                  then Effect.Exited 128 [] (str "fatal: already exists")
                  else Effect.Exited 0 [] []
                | Effect.Nix => Effect.Exited 0 [] []
                end).

(** An effect that leaves the finalizers of the scope as they are. *)
Definition keepsFinalizers {A E} (h : Effect.Host) (m : Effect.Effect A E) : Prop :=
  forall hist st, Effect.finalizers (storeOf (m h hist st)) = Effect.finalizers st.

(** The store of a fresh scope opened from the store [st]. *)
Definition freshScope (st : Effect.Store) : Effect.Store :=
  {| Effect.prefetchLogged := Effect.prefetchLogged st; Effect.finalizers := [] |}.

(** A store with a finalizer registered by an enclosing scope. *)
Definition storeOuter : Effect.Store :=
  {| Effect.prefetchLogged := false;
     Effect.finalizers := [fun _ _ => [Effect.Solo (Effect.Log Effect.Info (str "outer"))]] |}.

(** The command of [execPrefetch], and whether it starts and exits with
    status 0 after the history [hist]. *)
Definition prefetchArgs (flakeRef : jsstring) : list jsstring :=
  [str "flake"; str "prefetch-inputs"; flakeRef].

Definition prefetchOk (h : Effect.Host) (hist : Effect.Trace) (flakeRef : jsstring) : bool :=
  match Effect.proc h hist Effect.Nix (prefetchArgs flakeRef) with
  | Effect.SpawnFailed => false
  | Effect.Exited code _ _ => Z.eqb code 0
  end.

(** The notice of [prefetchFlakeInputs], and how often a trace holds it. *)
Definition skipNotice : jsstring :=
  str "Skipping parallel input fetch: nix flake prefetch-inputs requires Nix 2.31.0+".

Definition isSkipNotice (c : Effect.Cmd) : bool :=
  match c with
  | Effect.Log Effect.Info message => jseq message skipNotice
  | _ => false
  end.

Definition notices (t : Effect.Trace) : nat :=
  List.length (filter isSkipNotice (Effect.commands t)).

(** [nix flake prefetch-inputs] is not known to the installed Nix. *)
Definition hostOldNix : Effect.Host :=
  sampleHost (fun tool args =>
                match tool with
                | Effect.Git => Effect.Exited 0 [] []
                | Effect.Nix =>
                  if jseq (hd [] args) (str "flake")
                  then Effect.Exited 1 [] (str "error: 'prefetch-inputs' is not a recognised command")
                  else Effect.Exited 0 (str "/nix/store/abc-system.drv" ++ nl) []
                end).

(** What [core.getState] gives in the post step for what the main step
    emitted: the value of the last [core.saveState] of the name, the
    empty string when there is none. *)
Definition savesOf (name : jsstring) (c : Effect.Cmd) : list jsstring :=
  match c with
  | Effect.SaveState n v => if jseq n name then [v] else []
  | _ => []
  end.

Definition savedValues (t : Effect.Trace) (name : jsstring) : list jsstring :=
  flat_map (savesOf name) (Effect.commands t).

Definition savedState (t : Effect.Trace) (name : jsstring) : jsstring :=
  last (savedValues t name) [].

(** The options of a run with another list of targets. *)
Definition withAttributes (options : Full.ProcessDiffOptions) (targets : list NixOutputConfig)
  : Full.ProcessDiffOptions :=
  {| Full.attributes := targets;
     Full.build := Full.build options;
     Full.directory := Full.directory options;
     Full.baseRef := Full.baseRef options;
     Full.baseSha := Full.baseSha options;
     Full.headSha := Full.headSha options;
     Full.cwd := Full.cwd options;
     Full.runId := Full.runId options |}.

(** Every failure of an effect on the host [h] satisfies [Q]. *)
Definition failsOn {A E} (h : Effect.Host) (Q : E -> Prop) (m : Effect.Effect A E) : Prop :=
  forall hist st e, exitOf (m h hist st) = Effect.Failure e -> Q e.

(** The two references a target is resolved at: in the checkout of the
    base ref and in the directory of the pull request. *)
Definition targetRefs (h : Effect.Host) (options : Full.ProcessDiffOptions)
           (config : NixOutputConfig) : list jsstring :=
  [Full.baseFlakeRefOf h options
                       {| path := Git.worktreePathOf h (Full.baseRef options)
                                                     (Full.runId options) |}
   ++ str "#" ++ attribute config;
   Full.directory options ++ str "#" ++ attribute config].

(** The errors a run of the pipeline can end with. *)
Inductive pipelineError (h : Effect.Host) (options : Full.ProcessDiffOptions)
  : AppError -> Prop :=
| FetchFailed :
    pipelineError h options
                  (GitWorktreeError (str "fetch")
                                    (str "Failed to fetch " ++ Full.baseRef options))
| CreateFailed :
    pipelineError h options
                  (GitWorktreeError (str "create")
                                    (str "Failed to create worktree for "
                                         ++ Full.baseRef options))
| BuildFailed (config : NixOutputConfig) (flakeRef message : jsstring) :
    In config (Full.attributes options) -> In flakeRef (targetRefs h options config) ->
    Full.build options = true -> message <> [] ->
    pipelineError h options (NixBuildError flakeRef message)
| PathInfoFailed (config : NixOutputConfig) (flakeRef message : jsstring) :
    In config (Full.attributes options) -> In flakeRef (targetRefs h options config) ->
    message <> [] ->
    pipelineError h options (NixPathInfoError flakeRef message)
| DixFailed (basePath prPath message : jsstring) :
    basePath <> [] -> prPath <> [] -> message <> [] ->
    pipelineError h options (NixDixError basePath prPath message).

(** A run of white space, at least one code unit long. *)
Definition gap (ws : jsstring) : Prop := ws <> [] /\ forallb isSpace ws = true.

(** The text of a path on a header line of the diff tool: not empty,
    not starting with white space, without a line terminator. *)
Definition pathText (p : jsstring) : bool :=
  match p with
  | c :: _ => negb (isSpace c) && forallb Regex.dot p
  | [] => false
  end.

(** Nothing, or text that starts with a line terminator. *)
Definition lineBreak (post : jsstring) : bool :=
  match post with
  | c :: _ => isLineTerminator c
  | [] => true
  end.

(* ===================================================================== *)
(** * Strings: equality, trimming, splitting and joining *)
(* ===================================================================== *)

Section Strings.

Lemma jseq_eq (a b : jsstring) : jseq a b = true <-> a = b.
Proof.
  revert b; induction a as [|x a IH]; intros [|y b]; simpl; split; try congruence; intros H.
  - apply andb_true_iff in H as [H1 H2]. apply N.eqb_eq in H1. apply IH in H2. congruence.
  - inversion H; subst. rewrite N.eqb_refl. simpl. now apply IH.
Qed.

Lemma jseq_refl (a : jsstring) : jseq a a = true.
Proof. now apply jseq_eq. Qed.

Lemma isEmpty_eq (s : jsstring) : isEmpty s = true <-> s = [].
Proof. destruct s; simpl; split; congruence. Qed.

Lemma splitLF_nonempty (s : jsstring) : splitLF s <> [].
Proof.
  induction s as [|c s IH]; simpl; [discriminate|].
  destruct (N.eqb c LF); [discriminate|]. destruct (splitLF s); discriminate.
Qed.

Lemma splitLines_nonempty (s : jsstring) : splitLines s <> [].
Proof.
  destruct s as [|c r]; simpl; [discriminate|].
  destruct (N.eqb c LF); [discriminate|].
  destruct r as [|d r'].
  - destruct (splitLines []); discriminate.
  - destruct (N.eqb c CR && N.eqb d LF); [discriminate|].
    destruct (splitLines (d :: r')); discriminate.
Qed.

(** Induction on strings two code units at a time, as [splitLines] recurses. *)
Lemma jsstring_ind2 (P : jsstring -> Prop) :
  P [] ->
  (forall c r, P r -> (forall d r', r = d :: r' -> P r') -> P (c :: r)) ->
  forall s, P s.
Proof.
  intros H0 Hstep s.
  assert (H : P s /\ (forall d r', s = d :: r' -> P r')).
  { induction s as [|c r [IH1 IH2]].
    - split; [exact H0 | discriminate].
    - split.
      + apply Hstep; assumption.
      + intros d r' E. inversion E; subst. exact IH1. }
  exact (proj1 H).
Qed.

Lemma splitLines_noLF (s : jsstring) : Forall noLF (splitLines s).
Proof.
  induction s as [|c r IH1 IH2] using jsstring_ind2.
  - repeat constructor. intros [].
  - simpl. destruct (N.eqb c LF) eqn:Ec.
    + constructor; [intros [] | exact IH1].
    + assert (Hkeep : Forall noLF match splitLines r with
                                    | l :: ls => (c :: l) :: ls
                                    | [] => [[c]]
                                    end).
      { destruct (splitLines r) as [|l ls].
        - repeat constructor. intros [E|[]]. subst c. discriminate.
        - inversion IH1; subst. constructor; [|assumption].
          intros [E|Hin]; [subst c; discriminate | contradiction]. }
      destruct r as [|d r']; [exact Hkeep|].
      destruct (N.eqb c CR && N.eqb d LF); [|exact Hkeep].
      constructor; [intros [] | exact (IH2 d r' eq_refl)].
Qed.

Lemma splitLF_line (l : jsstring) : noLF l -> splitLF l = [l].
Proof.
  induction l as [|c l IH]; intros H; simpl; [reflexivity|].
  destruct (N.eqb c LF) eqn:Ec.
  - apply N.eqb_eq in Ec. exfalso. apply H. now left.
  - rewrite IH; [reflexivity|]. intros Hin. apply H. now right.
Qed.

Lemma splitLF_app (l rest : jsstring) :
  noLF l -> splitLF (l ++ LF :: rest) = l :: splitLF rest.
Proof.
  induction l as [|c l IH]; intros H; simpl; [reflexivity|].
  destruct (N.eqb c LF) eqn:Ec.
  - apply N.eqb_eq in Ec. exfalso. apply H. now left.
  - rewrite IH; [reflexivity|]. intros Hin. apply H. now right.
Qed.

Lemma join_cons (sep x : jsstring) (y : jsstring) (ys : list jsstring) :
  join sep (x :: y :: ys) = x ++ sep ++ join sep (y :: ys).
Proof. reflexivity. Qed.

(** Splitting on LF undoes joining with LF, for lines without LF. *)
Lemma splitLF_join (ls : list jsstring) :
  ls <> [] -> Forall noLF ls -> splitLF (join [LF] ls) = ls.
Proof.
  induction ls as [|l ls IH]; intros Hne Hall; [congruence|].
  inversion Hall as [|? ? Hl Hls]; subst.
  destruct ls as [|l2 ls].
  - simpl. now apply splitLF_line.
  - rewrite join_cons. simpl app. rewrite splitLF_app by assumption.
    f_equal. apply IH; [discriminate | assumption].
Qed.

Lemma endsInCR_cons (c d : N) (l : jsstring) : endsInCR (c :: d :: l) = endsInCR (d :: l).
Proof.
  unfold endsInCR, endsWith. simpl rev at 2.
  change (rev (c :: d :: l)) with (rev (d :: l) ++ [c]).
  destruct (rev (d :: l)) as [|x xs] eqn:E.
  - exfalso. apply (f_equal (@List.length _)) in E. rewrite length_rev in E. discriminate.
  - simpl. reflexivity.
Qed.

Lemma endsInCR_single (c : N) : endsInCR [c] = N.eqb CR c.
Proof. unfold endsInCR, endsWith. simpl. now rewrite andb_true_r. Qed.

Lemma splitLines_line (l : jsstring) : noLF l -> splitLines l = [l].
Proof.
  induction l as [|c r IH1 IH2] using jsstring_ind2; intros H; simpl; [reflexivity|].
  destruct (N.eqb c LF) eqn:Ec.
  { apply N.eqb_eq in Ec. exfalso. apply H. now left. }
  assert (Hr : noLF r) by (intros Hin; apply H; now right).
  rewrite (IH1 Hr).
  destruct r as [|d r']; [reflexivity|].
  destruct (N.eqb d LF) eqn:Ed.
  { apply N.eqb_eq in Ed. exfalso. apply Hr. now left. }
  now rewrite andb_false_r.
Qed.

Lemma splitLines_app (l rest : jsstring) :
  noLF l -> endsInCR l = false -> splitLines (l ++ LF :: rest) = l :: splitLines rest.
Proof.
  induction l as [|c l IH]; intros H Hcr; [reflexivity|].
  assert (Ec : N.eqb c LF = false).
  { apply N.eqb_neq. intros E. apply H. now left. }
  assert (Hl : noLF l) by (intros Hin; apply H; now right).
  destruct l as [|d l].
  - simpl. rewrite Ec. rewrite endsInCR_single in Hcr.
    rewrite N.eqb_sym in Hcr. now rewrite Hcr.
  - rewrite endsInCR_cons in Hcr. specialize (IH Hl Hcr).
    change ((c :: d :: l) ++ LF :: rest) with (c :: (d :: l) ++ LF :: rest).
    cbn [splitLines]. fold (splitLines ((d :: l) ++ LF :: rest)).
    rewrite Ec. simpl app. simpl app in IH. rewrite IH.
    assert (Ed : N.eqb d LF = false).
    { apply N.eqb_neq. intros E. apply Hl. now left. }
    now rewrite Ed, andb_false_r.
Qed.

(** Splitting on CR LF or LF undoes joining with LF, for lines without LF
    of which only the last may end in CR. *)
Lemma splitLines_join (ls : list jsstring) :
  ls <> [] -> Forall noLF ls -> crSafe ls = true -> splitLines (join [LF] ls) = ls.
Proof.
  induction ls as [|l ls IH]; intros Hne Hall Hcr; [congruence|].
  inversion Hall as [|? ? Hl Hls]; subst.
  destruct ls as [|l2 ls].
  - simpl. now apply splitLines_line.
  - unfold crSafe in Hcr. cbn [removelast forallb] in Hcr.
    apply andb_true_iff in Hcr as [Hcr1 Hcr2]. apply negb_true_iff in Hcr1.
    rewrite join_cons. simpl app. rewrite splitLines_app by assumption.
    f_equal. apply IH; [discriminate | assumption | exact Hcr2].
Qed.

End Strings.

(* ===================================================================== *)
(** * Subsequences *)
(* ===================================================================== *)

Section Subseq.

Context {A : Type}.

Lemma subseq_nil_l (l : list A) : subseq [] l.
Proof. induction l; constructor; assumption. Qed.

Lemma subseq_refl (l : list A) : subseq l l.
Proof. induction l; constructor; assumption. Qed.

Lemma subseq_trans (a b c : list A) : subseq a b -> subseq b c -> subseq a c.
Proof.
  intros Hab Hbc. revert a Hab.
  induction Hbc as [|x b c Hbc IH|x b c Hbc IH]; intros a Hab.
  - exact Hab.
  - constructor. now apply IH.
  - inversion Hab; subst.
    + constructor. now apply IH.
    + apply subseq_keep. now apply IH.
Qed.

Lemma subseq_filter (p : A -> bool) (l : list A) : subseq (filter p l) l.
Proof.
  induction l as [|x l IH]; simpl; [constructor|].
  destruct (p x); constructor; assumption.
Qed.

Lemma subseq_Forall (P : A -> Prop) (sub l : list A) :
  subseq sub l -> Forall P l -> Forall P sub.
Proof.
  induction 1; intros Hall; [constructor | |]; inversion Hall; subst; auto.
Qed.

Lemma subseq_nil_r (sub : list A) : subseq sub [] -> sub = [].
Proof. inversion 1; reflexivity. Qed.

Lemma subseq_length (sub l : list A) : subseq sub l -> List.length sub <= List.length l.
Proof. induction 1; simpl; lia. Qed.

(** A property of all elements but the last passes to subsequences. *)
Lemma subseq_removelast (p : A -> bool) (sub l : list A) :
  subseq sub l -> forallb p (removelast l) = true -> forallb p (removelast sub) = true.
Proof.
  induction 1 as [|x sub l Hs IH|x sub l Hs IH]; intros H.
  - reflexivity.
  - destruct l as [|y l].
    + apply subseq_nil_r in Hs. now subst.
    + cbn [removelast forallb] in H. apply andb_true_iff in H as [_ H]. now apply IH.
  - destruct l as [|y l].
    + apply subseq_nil_r in Hs. now subst.
    + cbn [removelast forallb] in H. apply andb_true_iff in H as [Hx H].
      destruct sub as [|z sub]; [reflexivity|].
      cbn [removelast forallb]. rewrite Hx. now apply IH.
Qed.

End Subseq.

Lemma subseqb_complete (sub l : list jsstring) : subseq sub l -> subseqb sub l = true.
Proof.
  induction 1 as [|x sub l Hs IH|x sub l Hs IH].
  - reflexivity.
  - destruct sub; [reflexivity|]. simpl. rewrite IH. apply orb_true_r.
  - simpl. now rewrite jseq_refl, IH.
Qed.

(* ===================================================================== *)
(** * services/utils.ts: the minor-update filter *)
(* ===================================================================== *)

Section MinorUpdateFilter.

Import Utils.

(** The index loop of the source is the recursion on the lines. *)
Lemma dropEmptiedHeaders_from (suf pre acc : list jsstring) :
  fold_left
    (fun output i =>
       let line := nth i (pre ++ suf) [] in
       if isChangedHeader line && blankAt (pre ++ suf) (i + 1)
       then output else output ++ [line])
    (seq (List.length pre) (List.length suf)) acc
  = acc ++ dropHeaders suf.
Proof.
  revert pre acc. induction suf as [|l rest IH]; intros pre acc.
  - simpl. now rewrite app_nil_r.
  - cbn [List.length seq fold_left].
    assert (Hnth : nth (List.length pre) (pre ++ l :: rest) [] = l).
    { rewrite app_nth2 by lia. now rewrite Nat.sub_diag. }
    assert (Hblank : blankAt (pre ++ l :: rest) (List.length pre + 1) = blankAt rest 0).
    { unfold blankAt. rewrite nth_error_app2 by lia.
      replace (List.length pre + 1 - List.length pre) with 1 by lia. reflexivity. }
    cbv zeta. rewrite Hnth, Hblank.
    specialize (IH (pre ++ [l])).
    rewrite <- app_assoc in IH. simpl app in IH.
    rewrite length_app in IH. simpl List.length in IH.
    replace (List.length pre + 1) with (S (List.length pre)) in IH by lia.
    rewrite IH. cbn [dropHeaders].
    destruct (isChangedHeader l && blankAt rest 0); [reflexivity|].
    now rewrite <- app_assoc.
Qed.

Lemma dropEmptiedHeaders_eq (ls : list jsstring) : dropEmptiedHeaders ls = dropHeaders ls.
Proof. exact (dropEmptiedHeaders_from ls [] []). Qed.

Lemma subseq_dropHeaders (ls : list jsstring) : subseq (dropHeaders ls) ls.
Proof.
  induction ls as [|l rest IH]; simpl; [constructor|].
  destruct (isChangedHeader l && blankAt rest 0); constructor; assumption.
Qed.

Lemma filterNixpkgsMinorUpdates_blank (d : jsstring) :
  blank d = true -> filterNixpkgsMinorUpdates d = d.
Proof. unfold filterNixpkgsMinorUpdates. now intros ->. Qed.

Lemma filterNixpkgsMinorUpdates_lines (d : jsstring) :
  blank d = false ->
  filterNixpkgsMinorUpdates d = join [LF] (dropHeaders (filteredLinesOf d)).
Proof. unfold filterNixpkgsMinorUpdates. intros ->. now rewrite dropEmptiedHeaders_eq. Qed.

Lemma kept_subseq (d : jsstring) : subseq (dropHeaders (filteredLinesOf d)) (splitLines d).
Proof.
  eapply subseq_trans; [apply subseq_dropHeaders | apply subseq_filter].
Qed.

Lemma blank_nil : blank [] = true.
Proof. reflexivity. Qed.

(** A header that stays is never left in front of a blank line, unless
    two headers in a row stood before a blank line. *)
Lemma dropHeaders_idem (ls : list jsstring) :
  stackedHeaders ls = false -> dropHeaders (dropHeaders ls) = dropHeaders ls.
Proof.
  induction ls as [|a rest IH]; intros H; [reflexivity|].
  cbn [stackedHeaders] in H. apply orb_false_iff in H as [Ha Hrest].
  specialize (IH Hrest). cbn [dropHeaders].
  destruct (isChangedHeader a && blankAt rest 0) eqn:E; [exact IH|].
  cbn [dropHeaders]. rewrite IH.
  assert (E' : isChangedHeader a && blankAt (dropHeaders rest) 0 = false).
  { destruct (isChangedHeader a) eqn:Eh; [|reflexivity]. simpl in *.
    destruct rest as [|b rest']; [reflexivity|].
    cbn [dropHeaders].
    destruct (isChangedHeader b && blankAt rest' 0) eqn:Eb.
    - exfalso. apply andb_true_iff in Eb as [Eb1 Eb2].
      destruct rest' as [|c rest'']; [discriminate|].
      unfold blankAt in Eb2. simpl in Eb2. rewrite Eb1, Eb2 in Ha. discriminate.
    - exact E. }
  now rewrite E'.
Qed.

Lemma filter_fixed {A} (p : A -> bool) (l : list A) :
  Forall (fun x => p x = true) l -> filter p l = l.
Proof.
  induction 1 as [|x l Hx _ IH]; simpl; [reflexivity|]. now rewrite Hx, IH.
Qed.

Lemma filter_all {A} (p : A -> bool) (l : list A) :
  Forall (fun x => p x = true) (filter p l).
Proof.
  induction l as [|x l IH]; simpl; [constructor|].
  destruct (p x) eqn:E; [constructor; assumption | assumption].
Qed.

(** C10, as amended. Unless the input is blank (empty or white space
    only, which is returned unchanged), the output of
    [filterNixpkgsMinorUpdates] is the LF-join of a subsequence of the
    lines of the input (split on CR LF or LF): lines are only deleted,
    never added, rewritten or reordered. Splitting the output on LF gives
    back exactly the retained lines when at least one line is retained;
    when none is, the output is the empty string. *)
Theorem filter_only_deletes_lines (d : jsstring) :
  (blank d = true -> filterNixpkgsMinorUpdates d = d) /\
  (blank d = false ->
   exists kept : list jsstring,
     subseq kept (splitLines d) /\
     filterNixpkgsMinorUpdates d = join [LF] kept /\
     (kept <> [] -> splitLF (filterNixpkgsMinorUpdates d) = kept) /\
     (kept = [] -> filterNixpkgsMinorUpdates d = [])).
Proof.
  split; [apply filterNixpkgsMinorUpdates_blank|].
  intros Hb. exists (dropHeaders (filteredLinesOf d)).
  pose proof (kept_subseq d) as Hsub.
  rewrite (filterNixpkgsMinorUpdates_lines d Hb).
  split; [exact Hsub|]. split; [reflexivity|]. split.
  - intros Hne. apply splitLF_join; [exact Hne|].
    eapply subseq_Forall; [exact Hsub | apply splitLines_noLF].
  - intros ->. reflexivity.
Qed.

(** C9, as amended. When no line of the input but the last ends in a
    carriage return, and the lines left after the minor-update lines are
    removed have no two CHANGED headers in a row in front of a blank
    line, filtering the filtered text again changes nothing. *)
Theorem filter_idempotent (d : jsstring) :
  crSafe (splitLines d) = true ->
  stackedHeaders (filteredLinesOf d) = false ->
  filterNixpkgsMinorUpdates (filterNixpkgsMinorUpdates d) = filterNixpkgsMinorUpdates d.
Proof.
  intros Hcr Hst.
  destruct (blank d) eqn:Hb.
  { now rewrite !(filterNixpkgsMinorUpdates_blank _ Hb). }
  rewrite (filterNixpkgsMinorUpdates_lines d Hb).
  set (kept := dropHeaders (filteredLinesOf d)).
  destruct (blank (join [LF] kept)) eqn:Hb2.
  { now apply filterNixpkgsMinorUpdates_blank. }
  rewrite (filterNixpkgsMinorUpdates_lines _ Hb2).
  assert (Hne : kept <> []).
  { intros E. rewrite E in Hb2. discriminate. }
  pose proof (kept_subseq d) as Hsub. fold kept in Hsub.
  assert (Hsplit : splitLines (join [LF] kept) = kept).
  { apply splitLines_join; [exact Hne | |].
    - eapply subseq_Forall; [exact Hsub | apply splitLines_noLF].
    - unfold crSafe in *. eapply subseq_removelast; eassumption. }
  unfold filteredLinesOf at 1. rewrite Hsplit.
  rewrite filter_fixed.
  - unfold kept. now rewrite dropHeaders_idem.
  - eapply subseq_Forall; [apply subseq_dropHeaders|]. apply filter_all.
Qed.

End MinorUpdateFilter.

(** The LF-only text with two CHANGED headers in a row and a blank line:
    the first pass removes the second header, the second pass the first.
    This refutes C9 as stated. *)
Lemma filter_not_idempotent :
  Utils.filterNixpkgsMinorUpdates (Utils.filterNixpkgsMinorUpdates diffStackedHeaders)
  <> Utils.filterNixpkgsMinorUpdates diffStackedHeaders.
Proof. vm_compute. discriminate. Qed.

Lemma filter_idempotent_witness :
  crSafe (splitLines diffMinorUpdate) = true /\
  stackedHeaders (Utils.filteredLinesOf diffMinorUpdate) = false /\
  Utils.filterNixpkgsMinorUpdates (Utils.filterNixpkgsMinorUpdates diffMinorUpdate)
  = Utils.filterNixpkgsMinorUpdates diffMinorUpdate.
Proof.
  split; [vm_compute; reflexivity|]. split; [vm_compute; reflexivity|].
  apply (filter_idempotent diffMinorUpdate); vm_compute; reflexivity.
Defined.

(** A blank input with CR LF is returned as it is, so that its lines
    split on LF are not among the lines of the input split on CR LF or LF.
    This refutes C10 as stated. *)
Lemma filter_blank_crlf_not_subseq :
  ~ subseq (splitLF (Utils.filterNixpkgsMinorUpdates [CR; LF])) (splitLines [CR; LF]).
Proof. intros H. apply subseqb_complete in H. vm_compute in H. discriminate. Qed.

Lemma filter_only_deletes_lines_witness :
  Utils.blank diffMinorUpdate = false /\
  exists kept : list jsstring,
    subseq kept (splitLines diffMinorUpdate) /\
    Utils.filterNixpkgsMinorUpdates diffMinorUpdate = join [LF] kept /\
    (kept <> [] -> splitLF (Utils.filterNixpkgsMinorUpdates diffMinorUpdate) = kept) /\
    (kept = [] -> Utils.filterNixpkgsMinorUpdates diffMinorUpdate = []).
Proof.
  split; [vm_compute; reflexivity|].
  apply (proj2 (filter_only_deletes_lines diffMinorUpdate)). vm_compute; reflexivity.
Defined.

(** The tests of the source: the minor update of the system goes, the
    update of [hello] stays. *)
Example filter_removes_minor_update :
  Utils.filterNixpkgsMinorUpdates diffMinorUpdate =
  str "<<< /nix/store/old-nixos-system-eule-26.05.20251225.3e2499d.drv" ++ nl ++
  str ">>> /nix/store/new-nixos-system-eule-26.05.20251228.c0b0e0f.drv" ++ nl ++ nl ++
  str "CHANGED" ++ nl ++
  str "[U.] hello 1.0.drv -> 1.1.drv" ++ nl ++ nl ++
  str "SIZE: 10.0 MiB -> 10.0 MiB" ++ nl ++
  str "DIFF: 100 KiB".
Proof. vm_compute. reflexivity. Qed.

(** Which lines count as minor updates of the system. *)
Example isNixpkgsMinorUpdateLine_tests :
  Utils.isNixpkgsMinorUpdateLine
    (str "[U.] nixos-system-eule 26.05.20251225.3e2499d.drv -> 26.05.20251228.c0b0e0f.drv")
  = true /\
  Utils.isNixpkgsMinorUpdateLine
    (str "[U.] darwin-system 26.05.c2b3620.drv -> 26.05.d9a1b77.drv") = true /\
  Utils.isNixpkgsMinorUpdateLine (str "[U.] hello 1.0.drv -> 1.1.drv") = false /\
  Utils.isNixpkgsMinorUpdateLine
    (str "[U.] nixos-system-eule 25.11.20251101.aaaaaaa.drv -> 26.05.20251228.bbbbbbb.drv")
  = false /\
  Utils.isNixpkgsMinorUpdateLine
    (str "[D.] nixos-system-eule 26.05.20251225.3e2499d.drv -> 26.05.20251228.c0b0e0f.drv")
  = false.
Proof. repeat split; vm_compute; reflexivity. Qed.

(** The emptied CHANGED section goes with its only entry. *)
Example filter_removes_emptied_section :
  includes (Utils.filterNixpkgsMinorUpdates diffOnlyMinorUpdate) (nl ++ str "CHANGED" ++ nl)
  = false /\
  includes (Utils.filterNixpkgsMinorUpdates diffOnlyMinorUpdate)
           (str "SIZE: 10.0 MiB -> 10.0 MiB") = true.
Proof. split; vm_compute; reflexivity. Qed.

(* ===================================================================== *)
(** * Regular expressions: what a match means *)
(* ===================================================================== *)

Section RegexMeaning.

Import Regex.

Lemma eats_app (w1 w2 : jsstring) (x : ctx) : eats (w1 ++ w2) x = eats w2 (eats w1 x).
Proof. unfold eats. apply fold_left_app. Qed.

Lemma eats_cons (c : N) (w : jsstring) (x : ctx) : eats (c :: w) x = eats w (eat c x).
Proof. reflexivity. Qed.

Lemma one_sound cls k x s r :
  one cls k x s = Some r ->
  exists c s', s = c :: s' /\ cls c = true /\ k (eat c x) s' = Some r.
Proof.
  unfold one. destruct s as [|c s']; [discriminate|].
  destruct (cls c) eqn:E; [|discriminate]. intros H. now exists c, s'.
Qed.

Lemma greedy_sound cls k s : forall x r,
  greedy cls k x s = Some r ->
  exists w s', s = w ++ s' /\ forallb cls w = true /\ k (eats w x) s' = Some r.
Proof.
  induction s as [|c s' IH]; intros x r H; simpl in H.
  - now exists [], [].
  - destruct (cls c) eqn:Ec; [|now exists [], (c :: s')].
    unfold orElse in H. destruct (greedy cls k (eat c x) s') eqn:E.
    + inversion H; subst. destruct (IH _ _ E) as (w & s'' & -> & Hw & Hk).
      exists (c :: w), s''. simpl. now rewrite Ec, Hw.
    + now exists [], (c :: s').
Qed.

Lemma lazy_sound cls k s : forall x r,
  lazy cls k x s = Some r ->
  exists w s', s = w ++ s' /\ forallb cls w = true /\ k (eats w x) s' = Some r.
Proof.
  induction s as [|c s' IH]; intros x r H; simpl in H; unfold orElse in H.
  - destruct (k x []) eqn:E; [|discriminate]. inversion H; subst. now exists [], [].
  - destruct (k x (c :: s')) eqn:E.
    + inversion H; subst. now exists [], (c :: s').
    + destruct (cls c) eqn:Ec; [|discriminate].
      destruct (IH _ _ H) as (w & s'' & -> & Hw & Hk).
      exists (c :: w), s''. simpl. now rewrite Ec, Hw.
Qed.

Lemma step_sound multiline n k x s r :
  step multiline n k x s = Some r ->
  exists x' s', nodeTakes multiline n x s x' s' /\ k x' s' = Some r.
Proof.
  destruct n as [cls q| | | |]; simpl.
  - destruct q; intros H.
    + apply one_sound in H as (c & s' & -> & Hc & Hk).
      exists (eat c x), s'. split; [|exact Hk].
      exists [c]. simpl. now rewrite Hc.
    + unfold orElse in H. destruct (one cls k x s) eqn:E.
      * inversion H; subst. apply one_sound in E as (c & s' & -> & Hc & Hk).
        exists (eat c x), s'. split; [|exact Hk].
        exists [c]. simpl. rewrite Hc. repeat split. lia.
      * exists x, s. split; [|exact H]. exists []. simpl. repeat split. lia.
    + apply greedy_sound in H as (w & s' & -> & Hw & Hk).
      exists (eats w x), s'. split; [|exact Hk]. now exists w.
    + apply one_sound in H as (c & s1 & -> & Hc & H).
      apply greedy_sound in H as (w & s' & -> & Hw & Hk).
      exists (eats (c :: w) x), s'. split; [|exact Hk].
      exists (c :: w). simpl. rewrite Hc, Hw. repeat split. lia.
    + apply one_sound in H as (c & s1 & -> & Hc & H).
      apply lazy_sound in H as (w & s' & -> & Hw & Hk).
      exists (eats (c :: w) x), s'. split; [|exact Hk].
      exists (c :: w). simpl. rewrite Hc, Hw. repeat split. lia.
  - destruct (atLineStart multiline x) eqn:E; [|discriminate]. intros H. now exists x, s.
  - destruct (atLineEnd multiline s) eqn:E; [|discriminate]. intros H. now exists x, s.
  - intros H. eexists _, s. split; [|exact H]. now split.
  - destruct (opened x) as [|g gs] eqn:E; [discriminate|]. intros H.
    eexists _, s. split; [|exact H]. exists g, gs. now repeat split.
Qed.

(** The matcher is sound: a match it finds is a match of the pattern. *)
Lemma steps_sound multiline re : forall k x s r,
  fold_right (step multiline) k re x s = Some r ->
  exists x' s', patternTakes multiline re x s x' s' /\ k x' s' = Some r.
Proof.
  induction re as [|n re IH]; intros k x s r H.
  - exists x, s. now split.
  - cbn [fold_right] in H.
    apply step_sound in H as (x1 & s1 & Hn & H).
    apply IH in H as (x2 & s2 & Hre & Hk).
    exists x2, s2. split; [|exact Hk]. now exists x1, s1.
Qed.

Lemma lastOr_snoc before skipped c : lastOr before (skipped ++ [c]) = Some c.
Proof. unfold lastOr. now rewrite rev_app_distr. Qed.

(** The search starts the match after some skipped text. *)
Lemma search_sound multiline re s : forall before r,
  search multiline re before s = Some r ->
  exists skipped s0,
    s = skipped ++ s0 /\
    matcher multiline re {| prev := lastOr before skipped; opened := [[]]; closed := [] |} s0
    = Some r.
Proof.
  induction s as [|c s IH]; intros before r H; simpl in H; unfold orElse in H.
  - destruct (matcher multiline re _ []) eqn:E; [|discriminate].
    inversion H; subst. now exists [], [].
  - destruct (matcher multiline re _ (c :: s)) eqn:E.
    + inversion H; subst. now exists [], (c :: s).
    + apply IH in H as (skipped & s0 & -> & Hm).
      exists (c :: skipped), s0. split; [reflexivity|].
      replace (lastOr before (c :: skipped)) with (lastOr (Some c) skipped); [exact Hm|].
      unfold lastOr. simpl. destruct (rev skipped); reflexivity.
Qed.

Lemma opened_eats w x : opened (eats w x) = List.map (fun g => rev w ++ g) (opened x).
Proof.
  revert x. induction w as [|c w IH]; intros x.
  - simpl. symmetry. apply map_id.
  - rewrite eats_cons, IH. unfold eat. cbn [opened]. rewrite map_map.
    apply map_ext. intros g. simpl. now rewrite <- app_assoc.
Qed.

Lemma closed_eats w x : closed (eats w x) = closed x.
Proof. revert x. induction w as [|c w IH]; intros x; [reflexivity|]. now rewrite eats_cons, IH. Qed.

Lemma atLineStart_lastOr skipped :
  atLineStart true {| prev := lastOr None skipped; opened := [[]]; closed := [] |} = true ->
  endsLine skipped.
Proof.
  unfold atLineStart, lastOr, endsLine. cbn [prev].
  destruct (rev skipped) as [|c t] eqn:E.
  - left. apply (f_equal (@rev N)) in E. now rewrite rev_involutive in E.
  - intros H. right. exists (rev t), c. split; [|exact H].
    apply (f_equal (@rev N)) in E. now rewrite rev_involutive in E.
Qed.

Lemma atLineEnd_startsLine post : atLineEnd true post = true -> startsLine post.
Proof.
  unfold atLineEnd, startsLine. destruct post as [|c post']; [now left|].
  intros H. right. now exists c, post'.
Qed.

Lemma lits_takes multiline (a : ascii) x s x' s' :
  nodeTakes multiline (Chars (lit a) One) x s x' s' ->
  s = N_of_ascii a :: s' /\ x' = eat (N_of_ascii a) x.
Proof.
  intros (w & -> & -> & Hw & Hn). simpl in Hn.
  destruct w as [|c [|]]; try discriminate. simpl in Hw.
  rewrite andb_true_r in Hw. apply N.eqb_eq in Hw. subst c. now split.
Qed.

(** What a parsed path line is: at the start of a line the marker, then
    white space, then the captured path, which is not empty, holds no
    line terminator and runs to the end of its line. *)
Lemma path_line_parse (a b c : ascii) (d : jsstring) (arr : list jsstring) :
  jsmatch true (rePathLine (String.String a (String.String b (String.String c String.EmptyString)))) d
  = Some arr ->
  exists pre ws capture post,
    let marker := [N_of_ascii a; N_of_ascii b; N_of_ascii c] in
    d = pre ++ marker ++ ws ++ capture ++ post /\
    arr = [marker ++ ws ++ capture; capture] /\
    endsLine pre /\
    forallb isSpace ws = true /\
    capture <> [] /\ forallb (fun u => negb (isLineTerminator u)) capture = true /\
    startsLine post.
Proof.
  unfold jsmatch. destruct (search true _ None d) as [r|] eqn:E; [|discriminate].
  intros H. simpl in H. inversion H; subst arr. clear H.
  apply search_sound in E as (pre & s0 & -> & E).
  apply steps_sound in E as (x' & s' & Hp & Hk).
  unfold accept in Hk. inversion Hk; subst r. clear Hk.
  cbn [rePathLine lits String.list_ascii_of_string List.map app patternTakes] in Hp.
  destruct Hp as (x1 & s1 & (Hbol & -> & ->) & Hp).
  destruct Hp as (x2 & s2 & Ha & Hp). apply lits_takes in Ha as (-> & ->).
  destruct Hp as (x3 & s3 & Hb & Hp). apply lits_takes in Hb as (-> & ->).
  destruct Hp as (x4 & s4 & Hc & Hp). apply lits_takes in Hc as (-> & ->).
  destruct Hp as (x5 & s5 & (ws & -> & -> & Hws & _) & Hp).
  destruct Hp as (x6 & s6 & (-> & ->) & Hp).
  destruct Hp as (x7 & s7 & (cap & -> & -> & Hcap & Hlen) & Hp).
  destruct Hp as (x8 & s8 & (g & gs & Ho & -> & ->) & Hp).
  destruct Hp as (x9 & s9 & (Heol & -> & ->) & -> & ->).
  exists pre, ws, cap, s7. cbv zeta.
  rewrite opened_eats in Ho. cbn [opened List.map] in Ho.
  rewrite opened_eats in Ho. cbn [eat opened List.map] in Ho.
  inversion Ho; subst g gs. clear Ho.
  unfold matchArray. cbn [fst opened closed].
  rewrite closed_eats. cbn [closed]. rewrite closed_eats. cbn [eat closed rev app].
  rewrite app_nil_r, rev_involutive.
  split; [reflexivity|]. split.
  { rewrite !rev_app_distr, !rev_involutive. reflexivity. }
  split; [now apply atLineStart_lastOr|]. split; [exact Hws|].
  split; [intros ->; simpl in Hlen; lia|].
  split; [exact Hcap | now apply atLineEnd_startsLine].
Qed.

End RegexMeaning.

(* ===================================================================== *)
(** * services/utils.ts: change detection *)
(* ===================================================================== *)

Section ChangeDetection.

Import Utils Regex.

(** What the two path lines of a diff text are, when they parse. *)
Lemma base_path_line (d : jsstring) (arr : list jsstring) :
  jsmatch true reBasePath d = Some arr ->
  exists pre ws capture post,
    d = pre ++ str "<<<" ++ ws ++ capture ++ post /\
    arr = [str "<<<" ++ ws ++ capture; capture] /\
    endsLine pre /\ forallb isSpace ws = true /\
    capture <> [] /\ forallb (fun u => negb (isLineTerminator u)) capture = true /\
    startsLine post.
Proof. exact (path_line_parse "<" "<" "<" d arr). Qed.

Lemma pr_path_line (d : jsstring) (arr : list jsstring) :
  jsmatch true rePrPath d = Some arr ->
  exists pre ws capture post,
    d = pre ++ str ">>>" ++ ws ++ capture ++ post /\
    arr = [str ">>>" ++ ws ++ capture; capture] /\
    endsLine pre /\ forallb isSpace ws = true /\
    capture <> [] /\ forallb (fun u => negb (isLineTerminator u)) capture = true /\
    startsLine post.
Proof. exact (path_line_parse ">" ">" ">" d arr). Qed.

(** C3, as amended. A blank diff text (empty or white space only), like
    no diff text at all, has no changes, whatever it parses to. For every
    other diff text,
    [hasDixChanges] returns false if and only if the "<<<" path line and
    the ">>>" path line both parse and the captured paths are equal after
    trimming; when either line fails to parse the result is true. *)
Theorem hasDixChanges_false_iff (d : jsstring) :
  hasDixChanges None = false /\
  (blank d = true -> hasDixChanges (Some d) = false) /\
  (blank d = false ->
   (hasDixChanges (Some d) = false <->
    exists wholeBase basePath wholePr prPath,
      jsmatch true reBasePath d = Some [wholeBase; basePath] /\
      jsmatch true rePrPath d = Some [wholePr; prPath] /\
      trim basePath = trim prPath) /\
   (jsmatch true reBasePath d = None \/ jsmatch true rePrPath d = None ->
    hasDixChanges (Some d) = true)).
Proof.
  unfold hasDixChanges. split; [reflexivity|]. split; [now intros ->|]. intros ->. split.
  - split.
    + intros H.
      destruct (jsmatch true reBasePath d) as [bm|] eqn:Eb; [|discriminate].
      destruct (jsmatch true rePrPath d) as [pm|] eqn:Ep; [|discriminate].
      destruct (base_path_line _ _ Eb) as (? & ? & b & ? & _ & -> & _).
      destruct (pr_path_line _ _ Ep) as (? & ? & p & ? & _ & -> & _).
      eexists _, b, _, p. repeat split.
      apply negb_false_iff in H. now apply jseq_eq in H.
    + intros (wb & b & wp & p & -> & -> & E). simpl.
      apply negb_false_iff. now apply jseq_eq.
  - intros [-> | ->]; [reflexivity|].
    now destruct (jsmatch true reBasePath d).
Qed.

(** The empty diff text: no path line parses, and yet the result is
    false. This refutes C3 as stated. *)
Lemma hasDixChanges_empty_unparsed :
  ~ (jsmatch true reBasePath [] = None \/ jsmatch true rePrPath [] = None ->
     hasDixChanges (Some []) = true).
Proof. intros H. specialize (H (or_introl eq_refl)). discriminate. Qed.

Lemma hasDixChanges_false_iff_witness :
  blank diffSamePaths = false /\
  (hasDixChanges (Some diffSamePaths) = false <->
   exists wholeBase basePath wholePr prPath,
     jsmatch true reBasePath diffSamePaths = Some [wholeBase; basePath] /\
     jsmatch true rePrPath diffSamePaths = Some [wholePr; prPath] /\
     trim basePath = trim prPath) /\
  hasDixChanges (Some diffSamePaths) = false.
Proof.
  split; [vm_compute; reflexivity|].
  split; [|vm_compute; reflexivity].
  apply (proj2 (proj2 (hasDixChanges_false_iff diffSamePaths))). vm_compute; reflexivity.
Defined.

(** The tests of the source. *)
Example hasDixChanges_tests :
  hasDixChanges None = false /\
  hasDixChanges (Some []) = false /\
  hasDixChanges (Some (str "   " ++ nl ++ str "  ")) = false /\
  hasDixChanges (Some diffSamePaths) = false /\
  hasDixChanges (Some diffPathsDiffer) = true /\
  hasDixChanges (Some diffNoBasePath) = true /\
  hasDixChanges (Some diffNoPrPath) = true.
Proof. repeat split; vm_compute; reflexivity. Qed.

End ChangeDetection.

(* ===================================================================== *)
(** * The Effect runtime: how the combinators run *)
(* ===================================================================== *)

Section Runtime.

Import Effect.

Context {A B E : Type}.

Lemma flatMap_success (m : Effect A E) (k : A -> Effect B E) h hist st a em1 st1 :
  m h hist st = (Success a, em1, st1) ->
  flatMap m k h hist st =
  (exitOf (k a h (hist ++ em1) st1),
   em1 ++ emittedOf (k a h (hist ++ em1) st1),
   storeOf (k a h (hist ++ em1) st1)).
Proof.
  intros H. unfold flatMap. rewrite H.
  now destruct (k a h (hist ++ em1) st1) as [[r em2] st2].
Qed.

Lemma flatMap_failure (m : Effect A E) (k : A -> Effect B E) h hist st e em1 st1 :
  m h hist st = (Failure e, em1, st1) ->
  flatMap m k h hist st = (Failure e, em1, st1).
Proof. intros H. unfold flatMap. now rewrite H. Qed.

(** A sequence succeeds only when both of its parts do. *)
Lemma flatMap_inv_success (m : Effect A E) (k : A -> Effect B E) h hist st b em st' :
  flatMap m k h hist st = (Success b, em, st') ->
  exists a em1 st1 em2,
    m h hist st = (Success a, em1, st1) /\
    k a h (hist ++ em1) st1 = (Success b, em2, st') /\
    em = em1 ++ em2.
Proof.
  unfold flatMap. destruct (m h hist st) as [[[a|e] em1] st1]; [|discriminate].
  destruct (k a h (hist ++ em1) st1) as [[r em2] st2] eqn:Ek.
  intros H. inversion H; subst. now exists a, em1, st1, em2.
Qed.

End Runtime.

Lemma surjective_outcome {A E} (o : Effect.Exit A E * Effect.Trace * Effect.Store) :
  o = (exitOf o, emittedOf o, storeOf o).
Proof. now destruct o as [[r em] st]. Qed.

(* ===================================================================== *)
(** * services/nix.ts *)
(* ===================================================================== *)

Section NixService.

Import Effect Nix.

Lemma execNix_run args h hist st :
  execNix args true h hist st = (Success (nixResult h hist args), nixSteps h hist args, st).
Proof.
  unfold execNix, map, catchAll, flatMap, exec, as_, map, flatMap, logWarning, emit, succeed,
    nixResult, nixSteps.
  destruct (proc h hist Nix args) as [|code out err]; reflexivity.
Qed.

Lemma widen_execNix_run (E : Type) args h hist st :
  widen (E := E) (execNix args true) h hist st
  = (Success (nixResult h hist args), nixSteps h hist args, st).
Proof. unfold widen. now rewrite execNix_run. Qed.

(** [getNixPath] in full: the outcome and the steps, by the answers of
    the host. *)
Lemma getNixPath_run flakeRef build h hist st :
  getNixPath NixServiceLive flakeRef build h hist st =
  let b := nixResult h hist (buildArgs flakeRef) in
  let bsteps := if build then nixSteps h hist (buildArgs flakeRef) else [] in
  if build && negb (Z.eqb (exitCode b) 0)
  then (Failure (NixBuildError flakeRef (orDefault (stderr b) (str "unknown error"))),
        bsteps, st)
  else
    let q := nixResult h (hist ++ bsteps) (pathInfoArgs flakeRef build) in
    let qsteps := nixSteps h (hist ++ bsteps) (pathInfoArgs flakeRef build) in
    (if negb (Z.eqb (exitCode q) 0)
     then Failure (NixPathInfoError flakeRef (orDefault (stderr q) (str "unknown error")))
     else if isEmpty (stdout q)
          then Failure (NixPathInfoError flakeRef (str "nix path-info returned empty output"))
          else Success (stdout q),
     bsteps ++ qsteps, st).
Proof.
  cbv zeta. cbn [getNixPath NixServiceLive].
  destruct build; cbn [andb].
  - fold (buildArgs flakeRef). fold (pathInfoArgs flakeRef true).
    unfold flatMap. rewrite widen_execNix_run. cbv beta iota zeta.
    destruct (negb (Z.eqb (exitCode (nixResult h hist (buildArgs flakeRef))) 0)) eqn:Eb.
    + unfold fail. now rewrite app_nil_r.
    + unfold void, succeed. rewrite app_nil_r.
      rewrite widen_execNix_run. cbv beta iota zeta.
      destruct (negb (Z.eqb (exitCode (nixResult _ _ (pathInfoArgs flakeRef true))) 0)).
      * unfold fail. now rewrite app_nil_r.
      * destruct (isEmpty (stdout (nixResult _ _ (pathInfoArgs flakeRef true))));
          unfold fail, succeed; now rewrite app_nil_r.
  - fold (pathInfoArgs flakeRef false).
    unfold flatMap, void, succeed. cbv beta iota zeta. rewrite !app_nil_r.
    rewrite widen_execNix_run. cbv beta iota zeta.
    destruct (negb (Z.eqb (exitCode (nixResult _ _ (pathInfoArgs flakeRef false))) 0)).
    + unfold fail. now rewrite app_nil_r.
    + destruct (isEmpty (stdout (nixResult _ _ (pathInfoArgs flakeRef false))));
        unfold fail, succeed; now rewrite app_nil_r.
Qed.

End NixService.

Section ArtifactResolution.

Import Effect Nix.

Lemma orDefault_nonempty (a b : jsstring) : a <> [] -> orDefault a b = a.
Proof. destruct a; [congruence | reflexivity]. Qed.

(** C4, as amended. [getNixPath] with [build] set first realizes the
    reference; when that exits non-zero it fails with a [NixBuildError]
    carrying the reference and, as its message, the captured stderr, or
    "unknown error" when the captured stderr is empty. Whenever the path
    query is made (no build, or the build exited with 0), a query that
    exits non-zero or prints nothing fails with a [NixPathInfoError] for
    the reference, and otherwise its output is returned: the output path
    of [nix path-info] with [build], the derivation path of
    [nix path-info --derivation] without. A returned path is never empty. *)
Theorem getNixPath_outcomes (flakeRef : jsstring) (build : bool)
        (h : Host) (hist : Trace) (st : Store) :
  let b := nixResult h hist [str "build"; flakeRef; str "--no-link"] in
  let hist' : Trace :=
    (hist ++ if build then nixSteps h hist [str "build"; flakeRef; str "--no-link"] else [])%list in
  let q := nixResult h hist' (if build then [str "path-info"; flakeRef]
                              else [str "path-info"; str "--derivation"; flakeRef]) in
  let r := exitOf (getNixPath NixServiceLive flakeRef build h hist st) in
  (build = true -> exitCode b <> 0%Z ->
   r = Failure (NixBuildError flakeRef
                  (if isEmpty (stderr b) then str "unknown error" else stderr b))) /\
  (build = false \/ exitCode b = 0%Z ->
   (exitCode q <> 0%Z \/ stdout q = [] ->
    exists message, r = Failure (NixPathInfoError flakeRef message)) /\
   (exitCode q = 0%Z -> stdout q <> [] -> r = Success (stdout q))) /\
  (forall p, r = Success p -> p <> []).
Proof.
  intros b hist' q r.
  assert (R : r =
              if build && negb (Z.eqb (exitCode b) 0)
              then Failure (NixBuildError flakeRef
                              (orDefault (stderr b) (str "unknown error")))
              else if negb (Z.eqb (exitCode q) 0)
                   then Failure (NixPathInfoError flakeRef
                                   (orDefault (stderr q) (str "unknown error")))
                   else if isEmpty (stdout q)
                        then Failure (NixPathInfoError flakeRef
                                        (str "nix path-info returned empty output"))
                        else Success (stdout q)).
  { subst r. rewrite getNixPath_run. cbv zeta.
    destruct (build && negb (Z.eqb (exitCode (nixResult h hist (buildArgs flakeRef))) 0)) eqn:E;
      unfold b; unfold buildArgs in E; rewrite E; reflexivity. }
  clearbody r b q. clear hist'. subst r.
  split; [|split].
  - intros -> Hb. apply Z.eqb_neq in Hb. simpl. now rewrite Hb.
  - intros Hq.
    assert (Hgo : build && negb (Z.eqb (exitCode b) 0) = false).
    { destruct Hq as [-> | Hb]; [reflexivity|]. rewrite Hb. apply andb_false_r. }
    rewrite Hgo. split.
    + intros [Hc | Ho].
      * apply Z.eqb_neq in Hc. rewrite Hc. simpl. eauto.
      * destruct (negb (Z.eqb (exitCode q) 0)); [eauto|]. rewrite Ho. simpl. eauto.
    + intros Hc Ho. rewrite Hc. simpl. destruct (stdout q); [congruence | reflexivity].
  - intros p.
    destruct (build && negb (Z.eqb (exitCode b) 0)); [discriminate|].
    destruct (negb (Z.eqb (exitCode q) 0)); [discriminate|].
    destruct (stdout q) eqn:Eo; simpl; [discriminate|]. intros H. inversion H. discriminate.
Qed.

(** A build that exits with status 1 and an empty stderr: the message of
    the error is not the captured stderr. This refutes C4 as stated. *)
Lemma getNixPath_silent_build_failure :
  exitOf (getNixPath NixServiceLive sampleRef true hostBuildSilent [] store0)
  <> Failure (NixBuildError sampleRef
                (stderr (nixResult hostBuildSilent [] (buildArgs sampleRef)))).
Proof. vm_compute. discriminate. Qed.

Lemma getNixPath_outcomes_witness :
  exitOf (getNixPath NixServiceLive sampleRef true hostBuildFails [] store0)
  = Failure (NixBuildError sampleRef (str "error: builder failed"))
  /\ exitOf (getNixPath NixServiceLive sampleRef false hostOk [] store0)
     = Success (str "/nix/store/abc-system.drv").
Proof.
  split.
  - pose proof (getNixPath_outcomes sampleRef true hostBuildFails [] store0) as H.
    cbv zeta in H. destruct H as [H _].
    apply H; [reflexivity | vm_compute; discriminate].
  - pose proof (getNixPath_outcomes sampleRef false hostOk [] store0) as H.
    cbv zeta in H. destruct H as [_ [H _]].
    apply H; [left; reflexivity | reflexivity | vm_compute; discriminate].
Defined.

End ArtifactResolution.

(* ===================================================================== *)
(** * services/git.ts *)
(* ===================================================================== *)

Section CheckoutRelease.

Import Effect Git.

(** The existence probe in full. *)
Lemma worktreeExists_run path h hist st :
  worktreeExists path h hist st =
  (Success (probeFinds h hist path),
   Solo (Exec Git worktreeListArgs false)
   :: (if probeFails h hist
       then [Solo (Log Warning
                     (str "Failed to check worktree existence: "
                          ++ describe h Git (proc h hist Git worktreeListArgs)))]
       else []),
   st).
Proof.
  unfold worktreeExists, catchAll, map, flatMap, exec, as_, map, flatMap, logWarning, emit,
    succeed, probeFinds, probeFails.
  fold worktreeListArgs.
  destruct (proc h hist Git worktreeListArgs) as [|code out err]; [reflexivity|].
  simpl. destruct (Z.eqb code 0); reflexivity.
Qed.

(** The release in full. *)
Lemma removeWorktree_run path h hist st :
  removeWorktree path h hist st =
  (Success tt,
   emittedOf (worktreeExists path h hist st)
   ++ (if probeFinds h hist path
       then [Solo (Exec Git (worktreeRemoveArgs path) true)]
       else []),
   st).
Proof.
  unfold removeWorktree, ignore, catchAll, as_, map, flatMap, widen.
  rewrite worktreeExists_run. unfold emittedOf. cbn [fst snd].
  destruct (probeFinds h hist path).
  - unfold execGit, mapError, map, flatMap, exec, succeed. fold (worktreeRemoveArgs path).
    destruct (proc h _ Git (worktreeRemoveArgs path)) as [|code out err]; simpl;
      now rewrite ?app_nil_r.
  - unfold void, succeed. simpl. now rewrite ?app_nil_r.
Qed.

(** C5. [removeWorktree] always succeeds and leaves the store alone. It
    probes first: when the probe fails the answer is "does not exist";
    when the answer is "does not exist" nothing but the probe is done;
    when it is "exists" the forced removal follows, and its failure is
    swallowed. *)
Theorem removeWorktree_never_fails (path : jsstring) (h : Host) (hist : Trace) (st : Store) :
  exitOf (removeWorktree path h hist st) = Success tt /\
  storeOf (removeWorktree path h hist st) = st /\
  (probeFails h hist = true -> exitOf (worktreeExists path h hist st) = Success false) /\
  (exitOf (worktreeExists path h hist st) = Success false ->
   emittedOf (removeWorktree path h hist st) = emittedOf (worktreeExists path h hist st)) /\
  (exitOf (worktreeExists path h hist st) = Success true ->
   emittedOf (removeWorktree path h hist st)
   = emittedOf (worktreeExists path h hist st)
     ++ [Solo (Exec Git [str "worktree"; str "remove"; str "--force"; path] true)]).
Proof.
  rewrite removeWorktree_run. unfold exitOf, storeOf, emittedOf at 1 3. cbn [fst snd].
  split; [reflexivity|]. split; [reflexivity|].
  rewrite worktreeExists_run. cbn [fst snd]. split; [|split].
  - unfold probeFails, probeFinds.
    destruct (proc h hist Git worktreeListArgs) as [|code out err]; [reflexivity|].
    intros H. apply negb_true_iff in H. now rewrite H.
  - intros H. inversion H as [H']. rewrite H'. now rewrite app_nil_r.
  - intros H. inversion H as [H']. now rewrite H'.
Qed.

Lemma removeWorktree_never_fails_witness :
  exitOf (worktreeExists (str "/tmp/dix-base-main-42") hostNoGit [] store0) = Success false
  /\ emittedOf (removeWorktree (str "/tmp/dix-base-main-42") hostNoGit [] store0)
     = emittedOf (worktreeExists (str "/tmp/dix-base-main-42") hostNoGit [] store0)
  /\ emittedOf (removeWorktree (str "/tmp/dix-base-main-42") hostStaleWorktree [] store0)
     = emittedOf (worktreeExists (str "/tmp/dix-base-main-42") hostStaleWorktree [] store0)
       ++ [Solo (Exec Git [str "worktree"; str "remove"; str "--force";
                           str "/tmp/dix-base-main-42"] true)]
  /\ exitOf (removeWorktree (str "/tmp/dix-base-main-42") hostStaleWorktree [] store0)
     = Success tt.
Proof.
  pose proof (removeWorktree_never_fails (str "/tmp/dix-base-main-42") hostNoGit [] store0)
    as (_ & _ & H1 & H2 & _).
  pose proof (removeWorktree_never_fails (str "/tmp/dix-base-main-42") hostStaleWorktree
                                         [] store0)
    as (H3 & _ & _ & _ & H4).
  split; [apply H1; reflexivity|].
  split; [apply H2; apply H1; reflexivity|].
  split; [apply H4; vm_compute; reflexivity | exact H3].
Defined.

End CheckoutRelease.

(* ===================================================================== *)
(** * What an effect emits *)
(* ===================================================================== *)

Section Emits.

Import Effect.

Lemma commands_app (a b : Trace) : commands (a ++ b) = commands a ++ commands b.
Proof. unfold commands. apply flat_map_app. Qed.

Context {h : Host} {P : Cmd -> Prop}.


Lemma emitsOn_succeed {A E} (a : A) : emitsOn h P (succeed (E := E) a).
Proof. intros hist st. constructor. Qed.

Lemma emitsOn_fail {A E} (e : E) : emitsOn h P (fail (A := A) e).
Proof. intros hist st. constructor. Qed.

Lemma emitsOn_emit {E} (c : Cmd) : P c -> emitsOn h P (emit (E := E) c).
Proof. intros H hist st. repeat constructor. exact H. Qed.

Lemma emitsOn_exec tool args rc : P (Exec tool args rc) -> emitsOn h P (exec tool args rc).
Proof. intros H hist st. repeat constructor. exact H. Qed.

Lemma emitsOn_flatMap {A B E} (m : Effect A E) (k : A -> Effect B E) :
  emitsOn h P m ->
  (forall a hist st, exitOf (m h hist st) = Success a -> emitsOn h P (k a)) ->
  emitsOn h P (flatMap m k).
Proof.
  intros Hm Hk hist st. specialize (Hm hist st). unfold flatMap.
  destruct (m h hist st) as [[[a|e] em1] st1] eqn:Em; unfold emittedOf in *; cbn [fst snd] in *.
  - assert (Ha : exitOf (m h hist st) = Success a) by now rewrite Em.
    specialize (Hk a hist st Ha (hist ++ em1) st1). unfold emittedOf in Hk.
    destruct (k a h (hist ++ em1) st1) as [[r em2] st2]. cbn [fst snd] in *.
    rewrite commands_app. apply Forall_app. now split.
  - exact Hm.
Qed.

Lemma emitsOn_bind {A B E} (m : Effect A E) (k : A -> Effect B E) :
  emitsOn h P m -> (forall a, emitsOn h P (k a)) -> emitsOn h P (flatMap m k).
Proof. intros Hm Hk. apply emitsOn_flatMap; auto. Qed.

Lemma emitsOn_map {A B E} (f : A -> B) (m : Effect A E) : emitsOn h P m -> emitsOn h P (map f m).
Proof. intros H. apply emitsOn_bind; [exact H | intros; apply emitsOn_succeed]. Qed.

Lemma emitsOn_widen {A E} (m : Effect A Empty_set) : emitsOn h P m -> emitsOn h P (widen (E := E) m).
Proof.
  intros H hist st. specialize (H hist st). unfold widen.
  destruct (m h hist st) as [[[a|[]] em] st1]. exact H.
Qed.

Lemma emitsOn_mapError {A E E'} (f : E -> E') (m : Effect A E) :
  emitsOn h P m -> emitsOn h P (mapError f m).
Proof.
  intros H hist st. specialize (H hist st). unfold mapError.
  destruct (m h hist st) as [[[a|e] em] st1]; exact H.
Qed.

Lemma emitsOn_catchAll {A E E'} (m : Effect A E) (handler : E -> Effect A E') :
  emitsOn h P m -> (forall e, emitsOn h P (handler e)) -> emitsOn h P (catchAll m handler).
Proof.
  intros Hm Hk hist st. specialize (Hm hist st). unfold catchAll.
  destruct (m h hist st) as [[[a|e] em1] st1]; unfold emittedOf in *; cbn [fst snd] in *.
  - exact Hm.
  - specialize (Hk e (hist ++ em1) st1). unfold emittedOf in Hk.
    destruct (handler e h (hist ++ em1) st1) as [[r em2] st2]. cbn [fst snd] in *.
    rewrite commands_app. apply Forall_app. now split.
Qed.

Lemma emitsOn_ignore {A E} (m : Effect A E) : emitsOn h P m -> emitsOn h P (ignore m).
Proof.
  intros H. apply emitsOn_catchAll; [now apply emitsOn_map | intros; apply emitsOn_succeed].
Qed.

Lemma emitsOn_forEach {A B E} (xs : list A) (f : A -> Effect B E) :
  (forall x, In x xs -> emitsOn h P (f x)) -> emitsOn h P (forEach xs f).
Proof.
  induction xs as [|x xs IH]; intros H; simpl.
  - apply emitsOn_succeed.
  - apply emitsOn_bind; [apply H; now left|].
    intros y. apply emitsOn_bind; [apply IH; intros; apply H; now right|].
    intros ys. apply emitsOn_succeed.
Qed.

Lemma runFibers_commands {A} (es : list (Effect A Empty_set)) hist :
  (forall e, In e es -> emitsOn h P e) ->
  forall st, Forall P (flat_map commands (snd (fst (runFibers es h hist st)))).
Proof.
  induction es as [|e es IH]; intros H st; simpl; [constructor|].
  pose proof (H e (or_introl eq_refl) hist st) as He. unfold emittedOf in He.
  destruct (e h hist st) as [[[a|[]] em] st1]. cbn [fst snd] in He.
  specialize (IH (fun e' Hin => H e' (or_intror Hin)) st1).
  destruct (runFibers es h hist st1) as [[xs ems] st2]. cbn [fst snd] in *.
  apply Forall_app. now split.
Qed.

Lemma emitsOn_allConcurrent {A E} (es : list (Effect A Empty_set)) :
  (forall e, In e es -> emitsOn h P e) -> emitsOn h P (allConcurrent (E := E) es).
Proof.
  intros H hist st. pose proof (runFibers_commands es hist H st) as Hf.
  unfold allConcurrent. destruct (runFibers es h hist st) as [[xs ems] st2].
  unfold emittedOf, commands. cbn [fst snd flat_map stepCmds] in *.
  rewrite app_nil_r. exact Hf.
Qed.


End Emits.

(* ===================================================================== *)
(** * programs/full.ts: the resolution context of the structural diff *)
(* ===================================================================== *)

Section ResolutionContext.

Import Effect Git Nix Full.










Lemma exit_flatMap {A B E} (m : Effect A E) (k : A -> Effect B E) h hist st b :
  exitOf (flatMap m k h hist st) = Success b ->
  exists a hist' st', exitOf (m h hist st) = Success a /\ exitOf (k a h hist' st') = Success b.
Proof.
  unfold flatMap. destruct (m h hist st) as [[[a|e] em1] st1]; [|discriminate].
  intros H. exists a, (hist ++ em1), st1. split; [reflexivity|].
  now destruct (k a h (hist ++ em1) st1) as [[r em2] st2].
Qed.

(** The checkout [createWorktree] returns is at the composed path. *)
Lemma createWorktree_path h hist st baseRef runId w :
  exitOf (createWorktree GitServiceLive baseRef runId h hist st) = Success w ->
  w = {| path := worktreePathOf h baseRef runId |}.
Proof.
  cbn [createWorktree GitServiceLive]. unfold acquireRelease.
  match goal with |- context [match ?m h hist st with _ => _ end] => set (acq := m) end.
  destruct (acq h hist st) as [[[a|e] em] st1] eqn:Ea; [|discriminate].
  intros H. unfold exitOf in H. cbn [fst] in H. inversion H; subst a. clear H.
  assert (Hx : exitOf (acq h hist st) = Success w) by now rewrite Ea.
  unfold acq in Hx.
  repeat (apply exit_flatMap in Hx; destruct Hx as (? & ? & ? & _ & Hx)).
  unfold succeed, exitOf in Hx. cbn [fst] in Hx. now inversion Hx.
Qed.




End ResolutionContext.

(* ===================================================================== *)
(** * programs/full.ts: the results of a run *)
(* ===================================================================== *)

Section Results.

Import Effect Git Nix Full.

Lemma forEach_success {A B E} (xs : list A) (f : A -> Effect B E) h :
  forall hist st ys,
    exitOf (forEach xs f h hist st) = Success ys ->
    Forall2 (fun x y => exists hist' st', exitOf (f x h hist' st') = Success y) xs ys.
Proof.
  induction xs as [|x xs IH]; intros hist st ys H; simpl in H.
  - unfold succeed, exitOf in H. cbn [fst] in H. inversion H. constructor.
  - apply exit_flatMap in H as (y & hist1 & st1 & Hy & H).
    apply exit_flatMap in H as (ys' & hist2 & st2 & Hys & H).
    unfold succeed, exitOf in H. cbn [fst] in H. inversion H; subst ys.
    constructor; [now exists hist, st | eapply IH; eassumption].
Qed.

Variable git : GitService.
Variable nix : NixService.

Lemma processNixOutput_success config baseFlakeRef prFlakeRef baseSha headSha build
      worktreePath h hist st r :
  exitOf (processNixOutput nix config baseFlakeRef prFlakeRef baseSha headSha build
                           worktreePath h hist st) = Success r ->
  dr_displayName r = displayName config /\
  dr_attributePath r = attribute config /\
  dr_baseRef r = baseSha /\
  dr_prRef r = headSha /\
  exists basePath prPath hist' st',
    exitOf (getDixDiff nix basePath prPath worktreePath h hist' st') = Success (dr_diff r).
Proof.
  unfold processNixOutput. intros H.
  apply exit_flatMap in H as (? & ? & ? & _ & H).
  apply exit_flatMap in H as (paths & ? & ? & _ & H).
  apply exit_flatMap in H as (? & ? & ? & _ & H).
  apply exit_flatMap in H as (? & ? & ? & _ & H).
  apply exit_flatMap in H as (diff & hist' & st' & Hd & H).
  unfold succeed, exitOf in H. cbn [fst] in H. inversion H; subst r. cbn.
  repeat split. eauto.
Qed.

(** C6. A run that completes successfully returns exactly one
    [DiffResult] per requested target, in the order of the targets: the
    i-th result carries the display name and the attribute path of the
    i-th target, the commit SHAs given to the run as [baseRef] and
    [prRef], and as [diff] what the structural diff returned. This holds
    for every implementation of the two services. An empty diff is a
    result like any other: the live [getDixDiff] succeeds with the
    trimmed output of the tool, empty or not, whenever the tool exits
    with status 0. *)
Theorem processDiffResults_results
        (options : ProcessDiffOptions) (h : Host) (hist : Trace) (st : Store)
        (results : list DiffResult) :
  exitOf (processDiffResults git nix options h hist st) = Success results ->
  List.length results = List.length (attributes options) /\
  Forall2 (fun config r =>
             dr_displayName r = displayName config /\
             dr_attributePath r = attribute config /\
             dr_baseRef r = baseSha options /\
             dr_prRef r = headSha options /\
             exists basePath prPath worktreePath hist' st',
               exitOf (getDixDiff nix basePath prPath worktreePath h hist' st')
               = Success (dr_diff r))
          (attributes options) results /\
  (forall basePath prPath worktreePath hist' st',
      exitCode (nixResult h hist' (dixArgs basePath prPath worktreePath)) = 0%Z ->
      exitOf (getDixDiff NixServiceLive basePath prPath worktreePath h hist' st')
      = Success (stdout (nixResult h hist' (dixArgs basePath prPath worktreePath)))).
Proof.
  intros H.
  assert (HF : Forall2 (fun config r =>
             dr_displayName r = displayName config /\
             dr_attributePath r = attribute config /\
             dr_baseRef r = baseSha options /\
             dr_prRef r = headSha options /\
             exists basePath prPath worktreePath hist' st',
               exitOf (getDixDiff nix basePath prPath worktreePath h hist' st')
               = Success (dr_diff r))
          (attributes options) results).
  { unfold processDiffResults in H.
    apply exit_flatMap in H as (w & hist1 & st1 & _ & H). cbv beta in H.
    apply exit_flatMap in H as (? & hist2 & st2 & _ & H).
    apply forEach_success in H.
    eapply Forall2_impl; [|exact H]. intros config r (hist' & st' & Hr).
    apply processNixOutput_success in Hr as (H1 & H2 & H3 & H4 & b & p & hist'' & st'' & H5).
    repeat split; try assumption. eauto 6. }
  split; [symmetry; eapply Forall2_length; exact HF|]. split; [exact HF|].
  intros basePath prPath worktreePath hist' st' Hc.
  cbn [getDixDiff NixServiceLive]. fold (dixArgs basePath prPath worktreePath).
  unfold flatMap. rewrite widen_execNix_run. cbv beta iota zeta. rewrite Hc. simpl negb.
  cbv iota.
  destruct (negb (isEmpty (stderr (nixResult h hist' (dixArgs basePath prPath worktreePath)))));
    reflexivity.
Qed.

End Results.

Lemma processDiffResults_results_witness :
  exitOf sampleRun = Effect.Success sampleResults /\
  List.length sampleResults = 2 /\
  Forall (fun r => dr_baseRef r = str "abc123def456" /\ dr_prRef r = str "789ghi012jkl"
                   /\ dr_diff r = [])
         sampleResults.
Proof.
  assert (H : exitOf sampleRun = Effect.Success sampleResults) by (vm_compute; reflexivity).
  split; [exact H|].
  destruct (processDiffResults_results Git.GitServiceLive Nix.NixServiceLive
                                       sampleOptions hostOk [] store0 sampleResults H)
    as (Hlen & _ & _).
  split; [exact Hlen|]. repeat constructor.
Defined.

(* ===================================================================== *)
(** * programs/full.ts: the schedule of a run *)
(* ===================================================================== *)

Section Quiet.

Import Effect.

Lemma schedule_app (a b : Trace) : schedule (a ++ b) = schedule a ++ schedule b.
Proof. unfold schedule. apply flat_map_app. Qed.

Context {h : Host}.

Lemma quiet_succeed {A E} (a : A) : quiet h (succeed (E := E) a).
Proof. intros hist st. reflexivity. Qed.

Lemma quiet_fail {A E} (e : E) : quiet h (fail (A := A) e).
Proof. intros hist st. reflexivity. Qed.

Lemma quiet_emit {E} (c : Cmd) : phaseOf c = [] -> quiet h (emit (E := E) c).
Proof. intros H hist st. unfold emit, emittedOf, schedule. simpl. now rewrite H. Qed.

Lemma quiet_exec_git args rc : quiet h (exec Git args rc).
Proof. intros hist st. reflexivity. Qed.

Lemma quiet_flatMap {A B E} (m : Effect A E) (k : A -> Effect B E) :
  quiet h m -> (forall a, quiet h (k a)) -> quiet h (flatMap m k).
Proof.
  intros Hm Hk hist st. specialize (Hm hist st). unfold flatMap.
  destruct (m h hist st) as [[[a|e] em1] st1]; unfold emittedOf in *; cbn [fst snd] in *.
  - specialize (Hk a (hist ++ em1) st1). unfold emittedOf in Hk.
    destruct (k a h (hist ++ em1) st1) as [[r em2] st2]. cbn [fst snd] in *.
    now rewrite schedule_app, Hm, Hk.
  - exact Hm.
Qed.

Lemma quiet_map {A B E} (f : A -> B) (m : Effect A E) : quiet h m -> quiet h (map f m).
Proof. intros H. apply quiet_flatMap; [exact H | intros; apply quiet_succeed]. Qed.

Lemma quiet_widen {A E} (m : Effect A Empty_set) : quiet h m -> quiet h (widen (E := E) m).
Proof.
  intros H hist st. specialize (H hist st). unfold widen.
  destruct (m h hist st) as [[[a|[]] em] st1]. exact H.
Qed.

Lemma quiet_mapError {A E E'} (f : E -> E') (m : Effect A E) : quiet h m -> quiet h (mapError f m).
Proof.
  intros H hist st. specialize (H hist st). unfold mapError.
  destruct (m h hist st) as [[[a|e] em] st1]; exact H.
Qed.

Lemma quiet_catchAll {A E E'} (m : Effect A E) (handler : E -> Effect A E') :
  quiet h m -> (forall e, quiet h (handler e)) -> quiet h (catchAll m handler).
Proof.
  intros Hm Hk hist st. specialize (Hm hist st). unfold catchAll.
  destruct (m h hist st) as [[[a|e] em1] st1]; unfold emittedOf in *; cbn [fst snd] in *.
  - exact Hm.
  - specialize (Hk e (hist ++ em1) st1). unfold emittedOf in Hk.
    destruct (handler e h (hist ++ em1) st1) as [[r em2] st2]. cbn [fst snd] in *.
    now rewrite schedule_app, Hm, Hk.
Qed.

Lemma quiet_ignore {A E} (m : Effect A E) : quiet h m -> quiet h (ignore m).
Proof.
  intros H. apply quiet_catchAll; [now apply quiet_map | intros; apply quiet_succeed].
Qed.

Lemma quiet_acquireRelease {A E} (acquire : Effect A E) release :
  quiet h acquire -> quiet h (acquireRelease acquire release).
Proof.
  intros H hist st. specialize (H hist st). unfold acquireRelease.
  destruct (acquire h hist st) as [[[a|e] em] st1]; exact H.
Qed.

Lemma quiet_ext {A E} (m m' : Effect A E) :
  (forall hist st, m h hist st = m' h hist st) -> quiet h m' -> quiet h m.
Proof. intros H H' hist st. rewrite H. apply H'. Qed.

End Quiet.

(** The combinators are quiet when their parts are. *)
Ltac quiet_steps :=
  repeat first
         [ apply quiet_succeed | apply quiet_fail | apply quiet_exec_git
         | apply quiet_emit; reflexivity
         | apply quiet_acquireRelease | apply quiet_ignore
         | apply quiet_widen | apply quiet_mapError
         | apply quiet_catchAll; [|intros ?]
         | apply quiet_flatMap; [|intros ?] ].

Section RunsTo.

Import Effect.

Context {h : Host}.

Lemma isPrefix_refl {A} (l : list A) : isPrefix l l.
Proof. exists []. now rewrite app_nil_r. Qed.

Lemma isPrefix_nil {A} (l : list A) : isPrefix [] l.
Proof. now exists l. Qed.

Lemma isPrefix_app_r {A} (a b c : list A) : isPrefix a b -> isPrefix a (b ++ c).
Proof. intros [rest ->]. exists (rest ++ c). now rewrite app_assoc. Qed.

Lemma isPrefix_app_l {A} (a b c : list A) : isPrefix b c -> isPrefix (a ++ b) (a ++ c).
Proof. intros [rest ->]. exists rest. now rewrite app_assoc. Qed.

Lemma quiet_runsTo {A E} (m : Effect A E) : quiet h m -> runsTo h [] m.
Proof.
  intros H hist st. rewrite (H hist st). split; [apply isPrefix_refl | reflexivity].
Qed.

Lemma runsTo_fail {A E} (e : E) slots : runsTo h slots (fail (A := A) e).
Proof. intros hist st. split; [apply isPrefix_nil | discriminate]. Qed.

Lemma runsTo_flatMap {A B E} (m : Effect A E) (k : A -> Effect B E) s1 s2 :
  runsTo h s1 m ->
  (forall a hist st, exitOf (m h hist st) = Success a -> runsTo h s2 (k a)) ->
  runsTo h (s1 ++ s2) (flatMap m k).
Proof.
  intros Hm Hk hist st. destruct (Hm hist st) as [Hp Hs]. unfold flatMap.
  destruct (m h hist st) as [[[a|e] em1] st1] eqn:Em; unfold emittedOf, exitOf in *;
    cbn [fst snd] in *.
  - specialize (Hs a eq_refl).
    assert (Ha : fst (fst (m h hist st)) = Success a) by now rewrite Em.
    destruct (Hk a hist st Ha (hist ++ em1) st1) as [Hp2 Hs2].
    unfold emittedOf, exitOf in *.
    destruct (k a h (hist ++ em1) st1) as [[r em2] st2]. cbn [fst snd] in *.
    rewrite schedule_app, Hs. split.
    + now apply isPrefix_app_l.
    + intros b Hb. now rewrite (Hs2 b Hb).
  - split; [now apply isPrefix_app_r | discriminate].
Qed.

Lemma runsTo_bind {A B E} (m : Effect A E) (k : A -> Effect B E) s1 s2 :
  runsTo h s1 m -> (forall a, runsTo h s2 (k a)) -> runsTo h (s1 ++ s2) (flatMap m k).
Proof. intros Hm Hk. apply runsTo_flatMap; auto. Qed.

Lemma runsTo_eq {A E} (m : Effect A E) s s' : s = s' -> runsTo h s m -> runsTo h s' m.
Proof. now intros ->. Qed.

Lemma runsTo_ext {A E} (m m' : Effect A E) s :
  (forall hist st, m h hist st = m' h hist st) -> runsTo h s m' -> runsTo h s m.
Proof. intros H H' hist st. rewrite H. apply H'. Qed.

Lemma runsTo_forEach {A B E} (xs : list A) (f : A -> Effect B E) (slots : A -> list Slot) :
  (forall x, runsTo h (slots x) (f x)) -> runsTo h (flat_map slots xs) (forEach xs f).
Proof.
  intros H. induction xs as [|x xs IH]; simpl.
  - apply quiet_runsTo, quiet_succeed.
  - apply runsTo_bind; [apply H | intros y].
    eapply runsTo_eq; [apply app_nil_r|].
    apply runsTo_bind; [exact IH | intros ys]. apply quiet_runsTo, quiet_succeed.
Qed.

End RunsTo.

Section Schedule.

Import Effect Git Nix Full.

Lemma schedule_nixSteps h hist args : schedule (nixSteps h hist args) = [Seq (classify args)].
Proof. unfold nixSteps. now destruct (proc h hist Nix args). Qed.

Lemma execNix_runsTo (E : Type) h args :
  runsTo h [Seq (classify args)] (widen (E := E) (execNix args true)).
Proof.
  intros hist st. rewrite widen_execNix_run. unfold emittedOf, exitOf. cbn [fst snd].
  rewrite schedule_nixSteps. split; [apply isPrefix_refl | reflexivity].
Qed.

Lemma getNixPath_runsTo h flakeRef build :
  runsTo h (resolveSlots build flakeRef) (getNixPath NixServiceLive flakeRef build).
Proof.
  cbn [getNixPath NixServiceLive]. destruct build.
  - apply runsTo_bind with (s1 := [Seq (Build flakeRef)]) (s2 := [Seq (PathInfo flakeRef false)]).
    + eapply runsTo_eq; [apply app_nil_r|]. apply runsTo_bind.
      * apply (execNix_runsTo AppError h [str "build"; flakeRef; str "--no-link"]).
      * intros r. destruct (negb _); [apply runsTo_fail | apply quiet_runsTo, quiet_succeed].
    + intros _. eapply runsTo_eq; [apply app_nil_r|]. apply runsTo_bind.
      * apply (execNix_runsTo AppError h [str "path-info"; flakeRef]).
      * intros r. destruct (negb _); [apply runsTo_fail|].
        destruct (isEmpty _); [apply runsTo_fail | apply quiet_runsTo, quiet_succeed].
  - apply runsTo_bind with (s1 := []) (s2 := [Seq (PathInfo flakeRef true)]).
    + apply quiet_runsTo, quiet_succeed.
    + intros _. eapply runsTo_eq; [apply app_nil_r|]. apply runsTo_bind.
      * apply (execNix_runsTo AppError h [str "path-info"; str "--derivation"; flakeRef]).
      * intros r. destruct (negb _); [apply runsTo_fail|].
        destruct (isEmpty _); [apply runsTo_fail | apply quiet_runsTo, quiet_succeed].
Qed.

Lemma getDixDiff_runsTo h basePath prPath inputsFromPath :
  runsTo h [Seq (Diff (str "path:" ++ inputsFromPath))]
         (getDixDiff NixServiceLive basePath prPath inputsFromPath).
Proof.
  cbn [getDixDiff NixServiceLive]. eapply runsTo_eq; [apply app_nil_r|]. apply runsTo_bind.
  - apply (execNix_runsTo AppError h (dixArgs basePath prPath inputsFromPath)).
  - intros r. destruct (negb (Z.eqb _ 0)); [apply runsTo_fail|].
    apply quiet_runsTo, quiet_flatMap; [|intros; apply quiet_succeed].
    destruct (negb (isEmpty _)); [now apply quiet_emit | apply quiet_succeed].
Qed.

Lemma processNixOutput_runsTo h config baseFlakeRef prFlakeRef baseSha headSha build worktreePath :
  runsTo h (targetSlots build baseFlakeRef prFlakeRef worktreePath config)
         (processNixOutput NixServiceLive config baseFlakeRef prFlakeRef baseSha headSha
                           build worktreePath).
Proof.
  unfold processNixOutput, targetSlots.
  apply runsTo_bind with (s1 := []); [apply quiet_runsTo; now apply quiet_emit | intros _].
  apply runsTo_eq
    with (s := (resolveSlots build (baseFlakeRef ++ str "#" ++ attribute config)
                ++ resolveSlots build (prFlakeRef ++ str "#" ++ attribute config))
               ++ [Seq (Diff (str "path:" ++ worktreePath))]);
    [now rewrite <- app_assoc|].
  apply runsTo_bind.
  - unfold all2. apply runsTo_bind; [apply getNixPath_runsTo | intros x].
    eapply runsTo_eq; [apply app_nil_r|].
    apply runsTo_bind; [apply getNixPath_runsTo | intros y]. apply quiet_runsTo, quiet_succeed.
  - intros paths.
    apply runsTo_bind with (s1 := []); [apply quiet_runsTo; now apply quiet_emit | intros _].
    apply runsTo_bind with (s1 := []); [apply quiet_runsTo; now apply quiet_emit | intros _].
    eapply runsTo_eq; [apply app_nil_r|].
    apply runsTo_bind; [apply getDixDiff_runsTo | intros diff]. apply quiet_runsTo, quiet_succeed.
Qed.

Lemma removeWorktree_quiet h path : quiet h (removeWorktree path).
Proof.
  unfold removeWorktree, worktreeExists, execGit, as_, map. quiet_steps.
  match goal with |- quiet _ (if ?b then _ else _) => destruct b end; quiet_steps.
Qed.

Lemma createWorktree_quiet h baseRef runId : quiet h (createWorktree GitServiceLive baseRef runId).
Proof.
  intros hist st. cbn [createWorktree GitServiceLive].
  apply quiet_acquireRelease.
  apply quiet_flatMap; [apply quiet_widen, removeWorktree_quiet | intros _].
  unfold fetchRef, addWorktree, logInfo, map. quiet_steps.
Qed.

(** A prefetch is one [nix flake prefetch-inputs] and at most a log line. *)
Lemma prefetch_run h flakeRef hist st :
  exists a st',
    prefetchFlakeInputs NixServiceLive flakeRef h hist st
    = (Success a, emittedOf (prefetchFlakeInputs NixServiceLive flakeRef h hist st), st') /\
    flat_map phaseOf (commands (emittedOf (prefetchFlakeInputs NixServiceLive flakeRef h hist st)))
    = [Prefetch flakeRef].
Proof.
  cbn [prefetchFlakeInputs NixServiceLive].
  unfold execPrefetch, orElseSucceed, catchAll, map, flatMap, exec, succeed, void,
    getPrefetchLogged, setPrefetchLogged, logInfo, emit, emittedOf.
  destruct (proc h hist Nix _) as [|code out err]; cbn.
  - destruct (prefetchLogged st); cbn; eauto.
  - destruct (Z.eqb code 0); cbn; [eauto|]. destruct (prefetchLogged st); cbn; eauto.
Qed.

Lemma prefetch_pair_runsTo (E : Type) h baseFlakeRef prFlakeRef :
  runsTo h [Par [[Prefetch baseFlakeRef]; [Prefetch prFlakeRef]]]
         (allConcurrent (E := E)
                        [prefetchFlakeInputs NixServiceLive baseFlakeRef;
                         prefetchFlakeInputs NixServiceLive prFlakeRef]).
Proof.
  intros hist st. unfold allConcurrent. cbn [runFibers].
  destruct (prefetch_run h baseFlakeRef hist st) as (a1 & st1 & E1 & P1). rewrite E1.
  destruct (prefetch_run h prFlakeRef hist st1) as (a2 & st2 & E2 & P2). rewrite E2.
  unfold emittedOf, exitOf, schedule in *. cbn [fst snd flat_map slotOf List.map app].
  rewrite P1, P2. split; [apply isPrefix_refl | reflexivity].
Qed.

Lemma processDiffResults_runsTo h options :
  runsTo h (pipelineSlots h options) (processDiffResults GitServiceLive NixServiceLive options).
Proof.
  unfold processDiffResults, pipelineSlots. cbv zeta.
  apply runsTo_flatMap with (s1 := []); [apply quiet_runsTo, createWorktree_quiet|].
  intros w hist st Hw. apply createWorktree_path in Hw. subst w. cbn [path].
  eapply runsTo_ext; [intros; cbv beta; reflexivity|].
  apply runsTo_bind with (s1 := [Par [[Prefetch _]; [Prefetch _]]]); [apply prefetch_pair_runsTo | intros _].
  apply runsTo_forEach. intros config. apply processNixOutput_runsTo.
Qed.

Lemma resolvesConcurrently_prefix (a b : list Slot) :
  isPrefix a b -> resolvesConcurrently b = false -> resolvesConcurrently a = false.
Proof.
  intros [rest ->]. unfold resolvesConcurrently. rewrite existsb_app.
  intros H. now apply orb_false_iff in H.
Qed.

Lemma resolvesConcurrently_targets build baseFlakeRef prFlakeRef worktreePath configs :
  resolvesConcurrently (flat_map (targetSlots build baseFlakeRef prFlakeRef worktreePath) configs)
  = false.
Proof.
  unfold resolvesConcurrently. induction configs as [|c cs IH]; [reflexivity|].
  cbn [flat_map]. rewrite existsb_app, IH, orb_false_r.
  unfold targetSlots, resolveSlots. now destruct build.
Qed.

(** C7, as amended. Within one comparison target the base-rooted artifact
    resolution runs first and the head-rooted one after it, one after the
    other and never concurrently; both are complete before the diff
    invocation of that target; the targets are processed strictly one
    after the other in declaration order. Only the two prefetches run
    concurrently with each other. Every run emits an initial part of this
    schedule, and a successful run all of it. *)
Theorem pipeline_schedule
        (options : ProcessDiffOptions) (h : Host) (hist : Trace) (st : Store) :
  let run := processDiffResults GitServiceLive NixServiceLive options h hist st in
  let checkout := worktreePathOf h (baseRef options) (runId options) in
  let baseFlakeRef := baseFlakeRefOf h options {| path := checkout |} in
  let expected :=
    Par [[Prefetch baseFlakeRef]; [Prefetch (directory options)]]
    :: flat_map
         (fun config =>
            resolveSlots (build options) (baseFlakeRef ++ str "#" ++ attribute config)
            ++ resolveSlots (build options) (directory options ++ str "#" ++ attribute config)
            ++ [Seq (Diff (str "path:" ++ checkout))])
         (attributes options) in
  isPrefix (schedule (emittedOf run)) expected /\
  (forall results, exitOf run = Success results -> schedule (emittedOf run) = expected) /\
  resolvesConcurrently (schedule (emittedOf run)) = false.
Proof.
  intros run checkout baseFlakeRef expected.
  destruct (processDiffResults_runsTo h options hist st) as [Hp Hs].
  change (pipelineSlots h options) with expected in Hp, Hs.
  split; [exact Hp|]. split; [exact Hs|].
  eapply resolvesConcurrently_prefix; [exact Hp|].
  unfold expected, resolvesConcurrently. cbn [existsb isResolution orb].
  apply (resolvesConcurrently_targets (build options) baseFlakeRef (directory options) checkout).
Qed.

(** In the sample run no concurrent group holds an artifact resolution:
    the base and head resolutions of a target do not run concurrently.
    This refutes C7 as stated. *)
Lemma resolutions_not_concurrent :
  ~ exists fibers,
      In (Par fibers) (schedule (emittedOf sampleRun)) /\
      existsb (existsb isResolution) fibers = true.
Proof.
  intros (fibers & Hin & Hex).
  assert (H : resolvesConcurrently (schedule (emittedOf sampleRun)) = true).
  { unfold resolvesConcurrently. apply existsb_exists. now exists (Par fibers). }
  vm_compute in H. discriminate.
Qed.

Lemma pipeline_schedule_witness :
  schedule (emittedOf sampleRun)
  = [ Par [[Prefetch (str "path:/tmp/dix-base-main-42")]; [Prefetch (str "/workspace/repo")]];
      Seq (PathInfo (str "path:/tmp/dix-base-main-42#nixosConfigurations.host1") true);
      Seq (PathInfo (str "/workspace/repo#nixosConfigurations.host1") true);
      Seq (Diff (str "path:/tmp/dix-base-main-42"));
      Seq (PathInfo (str "path:/tmp/dix-base-main-42#nixosConfigurations.host2") true);
      Seq (PathInfo (str "/workspace/repo#nixosConfigurations.host2") true);
      Seq (Diff (str "path:/tmp/dix-base-main-42")) ].
Proof.
  pose proof (pipeline_schedule sampleOptions hostOk [] store0) as H.
  cbv zeta in H. destruct H as (_ & H & _).
  unfold sampleRun.
  rewrite (H sampleResults); [vm_compute; reflexivity | vm_compute; reflexivity].
Defined.

(** A failure stops the run where it occurs: when the base resolution of
    the first target fails, the head resolution is not started. *)
Example failed_base_resolution_stops_run :
  schedule (emittedOf (processDiffResults GitServiceLive NixServiceLive sampleOptions
                                          hostPathInfoFails [] store0))
  = [ Par [[Prefetch (str "path:/tmp/dix-base-main-42")]; [Prefetch (str "/workspace/repo")]];
      Seq (PathInfo (str "path:/tmp/dix-base-main-42#nixosConfigurations.host1") true) ]
  /\ exitOf (processDiffResults GitServiceLive NixServiceLive sampleOptions
                                hostPathInfoFails [] store0)
     = Failure (NixPathInfoError (str "path:/tmp/dix-base-main-42#nixosConfigurations.host1")
                                 (str "error: flake has no such attribute")).
Proof. split; vm_compute; reflexivity. Qed.

End Schedule.

(* ===================================================================== *)
(** * services/git.ts: the checkout path *)
(* ===================================================================== *)

Section CheckoutPath.

Import Effect Git.

Lemma sanitizeBranchName_map (ref : jsstring) :
  sanitizeBranchName ref = List.map (fun c => if branchChar c then c else DASH) ref.
Proof.
  unfold sanitizeBranchName, replaceEach.
  induction ref as [|c ref IH]; [reflexivity|].
  cbn [flat_map List.map]. rewrite IH. now destruct (branchChar c).
Qed.

(** C8. [sanitizeBranchName] replaces every code unit outside
    [[A-Za-z0-9-]] with "-" and keeps the others, so that its output has
    code units of [[A-Za-z0-9-]] only; and on one host the checkout path
    is a function of the pair of the base ref and the run id: two calls
    of [createWorktree] with the same pair that succeed, whatever
    happened before, return the same path, the temp directory joined with
    [dix-base-<sanitized ref>-<run id>]. *)
Theorem sanitized_checkout_path (ref : jsstring) :
  sanitizeBranchName ref = List.map (fun c => if branchChar c then c else DASH) ref /\
  Forall (fun c => branchChar c = true) (sanitizeBranchName ref) /\
  (forall (h : Host) (runId ref' runId' : jsstring) (hist hist' : Trace) (st st' : Store)
          (w w' : WorktreeInfo),
      (ref, runId) = (ref', runId') ->
      exitOf (createWorktree GitServiceLive ref runId h hist st) = Success w ->
      exitOf (createWorktree GitServiceLive ref' runId' h hist' st') = Success w' ->
      path w = path w' /\
      path w = pathJoin h (tmpdirReal h)
                        (str "dix-base-" ++ sanitizeBranchName ref ++ str "-" ++ runId)).
Proof.
  split; [apply sanitizeBranchName_map|]. split.
  - rewrite sanitizeBranchName_map. apply Forall_forall. intros c Hc.
    apply in_map_iff in Hc as (x & <- & _). now destruct (branchChar x) eqn:E.
  - intros h runId ref' runId' hist hist' st st' w w' Hp Hw Hw'.
    inversion Hp; subst ref' runId'.
    apply createWorktree_path in Hw, Hw'. subst w w'. now split.
Qed.

Lemma sanitized_checkout_path_witness :
  path {| path := str "/tmp/dix-base-feature-new-feature-42" |}
  = pathJoin hostOk (tmpdirReal hostOk)
             (str "dix-base-" ++ sanitizeBranchName (str "feature/new-feature")
                  ++ str "-" ++ str "42").
Proof.
  pose proof (sanitized_checkout_path (str "feature/new-feature")) as (_ & _ & H).
  apply (H hostOk (str "42") (str "feature/new-feature") (str "42") [] [] store0 store0
           {| path := str "/tmp/dix-base-feature-new-feature-42" |}
           {| path := str "/tmp/dix-base-feature-new-feature-42" |});
    vm_compute; reflexivity.
Defined.

(** The tests of the source. *)
Example sanitizeBranchName_tests :
  sanitizeBranchName (str "main") = str "main" /\
  sanitizeBranchName (str "feature-123") = str "feature-123" /\
  sanitizeBranchName (str "user/name/branch") = str "user-name-branch" /\
  sanitizeBranchName (str "branch:name") = str "branch-name" /\
  sanitizeBranchName (str "branch.name") = str "branch-name" /\
  sanitizeBranchName (str "branch@name") = str "branch-name" /\
  sanitizeBranchName (str "refs/heads/feature/test") = str "refs-heads-feature-test".
Proof. repeat split. Qed.

End CheckoutPath.

(* ===================================================================== *)
(** * services/github.ts: fair truncation *)
(* ===================================================================== *)

Section FairTruncation.

Import Github.

Lemma truncateDiff_over (diff : jsstring) (maxLength : nat) :
  maxLength < List.length diff ->
  truncateDiff diff maxLength
  = {| text := firstn maxLength diff ++ truncationMarker (List.length diff);
       truncated := true |}.
Proof. intros H. unfold truncateDiff. apply Nat.ltb_lt in H. now rewrite H. Qed.

Lemma truncateDiff_within (diff : jsstring) (maxLength : nat) :
  List.length diff <= maxLength ->
  truncateDiff diff maxLength = {| text := diff; truncated := false |}.
Proof. intros H. unfold truncateDiff. apply Nat.ltb_ge in H. now rewrite H. Qed.

Lemma list_sum_head (a : nat) (l : list nat) : list_sum (a :: l) = a + list_sum l.
Proof. reflexivity. Qed.

Lemma body_length (diff : jsstring) (budget : nat) :
  List.length (text (truncateDiff diff budget))
  <= budget + (if truncated (truncateDiff diff budget)
               then List.length (truncationMarker (List.length diff)) else 0).
Proof.
  unfold truncateDiff. destruct (Nat.ltb budget (List.length diff)) eqn:E; cbn [text truncated].
  - apply Nat.ltb_lt in E. rewrite length_app, length_firstn. lia.
  - apply Nat.ltb_ge in E. lia.
Qed.

Lemma bodies_bound (budget : nat) (results : list DiffResult) :
  bodiesLength budget results
  <= List.length results * budget + markersLength budget results.
Proof.
  unfold bodiesLength, markersLength. induction results as [|r rs IH]; [simpl; lia|].
  cbn [List.map List.length]. rewrite !list_sum_head.
  pose proof (body_length (dr_diff r) budget). lia.
Qed.

Lemma length_sections (budget : nat) (results : list DiffResult) :
  List.length (concat (List.map (formatSection budget) results))
  = list_sum (List.map (fun r => List.length (sectionOpen r) + List.length (sectionClose r))
                       results)
    + bodiesLength budget results.
Proof.
  unfold bodiesLength. induction results as [|r rs IH]; [reflexivity|].
  cbn [List.map concat]. rewrite !list_sum_head, length_app, IH. unfold formatSection.
  rewrite !length_app. lia.
Qed.

Lemma report_length results commitSha options :
  List.length (formatAggregatedComment results commitSha options)
  = overheadLength results commitSha options
    + bodiesLength (perResultBudget MAX_DIFF_LENGTH (List.length results)) results.
Proof.
  unfold formatAggregatedComment, overheadLength. cbv zeta.
  rewrite !length_app, length_sections. lia.
Qed.

(** The first three clauses of C2 hold for every input: a diff longer
    than the allotment is cut to the allotment and gets the marker with
    its original length; a diff at or under the allotment, one exactly at
    it included, passes unmodified and unmarked. *)
Lemma truncateDiff_cases (diff : jsstring) (maxLength : nat) :
  (maxLength < List.length diff ->
   truncateDiff diff maxLength
   = {| text := firstn maxLength diff
                ++ str "... (truncated, " ++ decimal (List.length diff) ++ str " chars total)";
        truncated := true |}
   /\ List.length (firstn maxLength diff) = maxLength) /\
  (List.length diff <= maxLength ->
   truncateDiff diff maxLength = {| text := diff; truncated := false |}).
Proof.
  split.
  - intros H. split; [now apply truncateDiff_over|]. rewrite length_firstn. lia.
  - apply truncateDiff_within.
Qed.

(** The budget bounds the cut diffs only: the bodies of a report take at
    most the global budget and the markers of the truncated results. *)
Lemma bodies_within_budget_and_markers (results : list DiffResult) :
  let budget := perResultBudget MAX_DIFF_LENGTH (List.length results) in
  bodiesLength budget results <= MAX_DIFF_LENGTH + markersLength budget results.
Proof.
  intros budget. pose proof (bodies_bound budget results) as H.
  pose proof (Nat.Div0.mul_div_le MAX_DIFF_LENGTH (List.length results)) as Hd.
  unfold budget, perResultBudget in *. lia.
Qed.

Lemma allDistinct_NoDup (names : list jsstring) : allDistinct names = true -> NoDup names.
Proof.
  induction names as [|n rest IH]; intros H; [constructor|].
  cbn [allDistinct] in H. apply andb_true_iff in H as [Hn Hr].
  constructor; [|now apply IH].
  intros Hin. apply negb_true_iff in Hn.
  assert (Hex : existsb (jseq n) rest = true).
  { apply existsb_exists. exists n. split; [exact Hin | apply jseq_refl]. }
  congruence.
Qed.

(** C2. The report of three hundred targets with distinct names, each
    with a diff of 201 characters: every target is allotted
    60000 / 300 = 200 characters, every diff exceeds its allotment, is cut
    to 200 characters and gets the marker with its original length 201,
    as the claim says. The report holds these three hundred bodies, which
    alone take 69600 characters: it is longer than the ceiling of 65536
    characters that the claim, and the tests of the aggregator, say it
    stays under. *)
Theorem fair_truncation_exceeds_ceiling :
  let results := manyTargets in
  let budget := perResultBudget MAX_DIFF_LENGTH (List.length results) in
  let report := formatAggregatedComment results sampleSha noOptions in
  List.length results = 300 /\
  NoDup (List.map dr_displayName results) /\
  budget = 200 /\
  Forall (fun r => List.length (dr_diff r) = 201 /\
                   truncateDiff (dr_diff r) budget
                   = {| text := firstn 200 (dr_diff r)
                                ++ str "... (truncated, 201 chars total)";
                        truncated := true |})
         results /\
  occurrences (str "... (truncated, 201 chars total)") report = 300 /\
  N.of_nat (bodiesLength budget results) = 69600%N /\
  bodiesLength budget results <= List.length report /\
  MAX_COMMENT_LENGTH < List.length report.
Proof.
  cbv zeta.
  assert (Hbudget : perResultBudget MAX_DIFF_LENGTH (List.length manyTargets) = 200)
    by (vm_compute; reflexivity).
  rewrite Hbudget.
  split; [vm_compute; reflexivity|].
  split; [apply allDistinct_NoDup; vm_compute; reflexivity|].
  split; [reflexivity|].
  split.
  { apply Forall_forall. intros r Hr.
    assert (Hall : forallb (fun r =>
                              Nat.eqb (List.length (dr_diff r)) 201
                              && jseq (text (truncateDiff (dr_diff r) 200))
                                      (firstn 200 (dr_diff r)
                                       ++ str "... (truncated, 201 chars total)")
                              && truncated (truncateDiff (dr_diff r) 200))
                           manyTargets = true) by (vm_compute; reflexivity).
    rewrite forallb_forall in Hall. specialize (Hall r Hr).
    apply andb_true_iff in Hall as [Hall Htr].
    apply andb_true_iff in Hall as [Hlen Htext].
    apply Nat.eqb_eq in Hlen. apply jseq_eq in Htext.
    split; [exact Hlen|].
    destruct (truncateDiff (dr_diff r) 200) as [t b]. cbn [text truncated] in *.
    now subst. }
  split; [vm_compute; reflexivity|].
  split; [vm_compute; reflexivity|].
  split.
  - rewrite report_length, Hbudget. lia.
  - apply Nat.ltb_lt. vm_compute. reflexivity.
Qed.

(** The reports the tests of the aggregator check stay under the
    ceiling: two targets with diffs of 50000 characters are both
    truncated, and five targets with diffs of 30000 characters fit. *)
Example tested_reports_fit :
  occurrences (str "truncated") (formatAggregatedComment twoLargeResults sampleSha noOptions)
  = 2
  /\ Nat.ltb (List.length (formatAggregatedComment twoLargeResults sampleSha noOptions))
              MAX_COMMENT_LENGTH = true
  /\ Nat.ltb (List.length (formatAggregatedComment fiveLargeResults sampleSha noOptions))
              MAX_COMMENT_LENGTH = true.
Proof. repeat split; vm_compute; reflexivity. Qed.

(** The scenarios of the specification: a diff of 70000 characters is
    reported with its original length, under the ceiling. *)
Example large_diff_report :
  includes (formatAggregatedComment oneLargeResult sampleSha noOptions)
           (str "... (truncated, 70000 chars total)") = true
  /\ Nat.ltb (List.length (formatAggregatedComment oneLargeResult sampleSha noOptions))
             MAX_COMMENT_LENGTH = true.
Proof. split; vm_compute; reflexivity. Qed.

End FairTruncation.

(* ===================================================================== *)
(** * Further properties of the text filters *)
(* ===================================================================== *)

Section Trimming.

Lemma trimStart_clean (s : jsstring) : startsClean (trimStart s) = true.
Proof.
  induction s as [|c s IH]; [reflexivity|]. simpl.
  destruct (isSpace c) eqn:E; [exact IH|]. simpl. now rewrite E.
Qed.

Lemma trimStart_fixed (s : jsstring) : startsClean s = true -> trimStart s = s.
Proof.
  destruct s as [|c s]; [reflexivity|]. simpl. intros H.
  apply negb_true_iff in H. now rewrite H.
Qed.

Lemma trimStart_suffix (s : jsstring) :
  exists p, s = p ++ trimStart s /\ forallb isSpace p = true.
Proof.
  induction s as [|c s (p & E & Hp)]; [now exists []|]. simpl.
  destruct (isSpace c) eqn:Ec.
  - exists (c :: p). simpl. rewrite Ec, Hp. split; [now f_equal | reflexivity].
  - now exists [].
Qed.

Lemma trimEnd_prefix (s : jsstring) :
  exists q, s = trimEnd s ++ q /\ forallb isSpace q = true.
Proof.
  unfold trimEnd. destruct (trimStart_suffix (rev s)) as (p & E & Hp).
  exists (rev p). split.
  - apply (f_equal (@rev N)) in E. rewrite rev_involutive, rev_app_distr in E. exact E.
  - rewrite forallb_forall in *. intros x Hx. apply Hp. now apply in_rev.
Qed.

Lemma trimEnd_clean (s : jsstring) : endsClean (trimEnd s) = true.
Proof. unfold endsClean, trimEnd. rewrite rev_involutive. apply trimStart_clean. Qed.

Lemma trimEnd_keeps_start (s : jsstring) : startsClean s = true -> startsClean (trimEnd s) = true.
Proof.
  intros H. destruct (trimEnd_prefix s) as (q & E & _).
  destruct (trimEnd s) as [|c t]; [reflexivity|]. rewrite E in H. exact H.
Qed.

Lemma trim_clean (s : jsstring) : startsClean (trim s) = true /\ endsClean (trim s) = true.
Proof.
  unfold trim. split; [apply trimEnd_keeps_start, trimStart_clean | apply trimEnd_clean].
Qed.

Lemma trim_fixed (s : jsstring) : startsClean s = true -> endsClean s = true -> trim s = s.
Proof.
  intros H1 H2. unfold trim. rewrite (trimStart_fixed s H1).
  unfold trimEnd. rewrite (trimStart_fixed (rev s) H2). apply rev_involutive.
Qed.

Lemma trim_idempotent (s : jsstring) : trim (trim s) = trim s.
Proof. destruct (trim_clean s). now apply trim_fixed. Qed.

Lemma trimStart_spaces (s : jsstring) : forallb isSpace s = true -> trimStart s = [].
Proof.
  induction s as [|c s IH]; [reflexivity|]. simpl. intros H.
  apply andb_true_iff in H as [Hc Hs]. rewrite Hc. now apply IH.
Qed.

Lemma trim_spaces (s : jsstring) : forallb isSpace s = true -> trim s = [].
Proof. intros H. unfold trim. now rewrite (trimStart_spaces s H). Qed.

(** The middle of a text survives trimming. *)
Lemma trim_decompose (s : jsstring) :
  exists p q, s = p ++ trim s ++ q /\ forallb isSpace p = true /\ forallb isSpace q = true.
Proof.
  destruct (trimStart_suffix s) as (p & E & Hp).
  destruct (trimEnd_prefix (trimStart s)) as (q & E' & Hq).
  exists p, q. unfold trim. split; [|now split]. rewrite <- E'. exact E.
Qed.

End Trimming.

(* ===================================================================== *)
(** * services/nix.ts: what the resolver returns *)
(* ===================================================================== *)

Section ResolvedPaths.

Import Effect Nix.

(** X1. A path [getNixPath] returns is the trimmed output of a
    [nix path-info] command that exited with status 0: it is not empty
    and neither begins nor ends with white space. *)
Theorem getNixPath_returns_trimmed_path
        (flakeRef : jsstring) (build : bool) (h : Host) (hist : Trace) (st : Store)
        (p : jsstring) :
  exitOf (getNixPath NixServiceLive flakeRef build h hist st) = Success p ->
  p <> [] /\ startsClean p = true /\ endsClean p = true /\
  exists hist' out err,
    proc h hist' Nix (if build then [str "path-info"; flakeRef]
                      else [str "path-info"; str "--derivation"; flakeRef])
    = Exited 0 out err /\
    p = trim out.
Proof.
  rewrite getNixPath_run. cbv zeta. fold (pathInfoArgs flakeRef build).
  destruct (build && negb (Z.eqb (exitCode (nixResult h hist (buildArgs flakeRef))) 0));
    [discriminate|].
  unfold exitOf. cbn [fst].
  match goal with |- context [nixResult h ?hh (pathInfoArgs flakeRef build)] => set (hist' := hh) end.
  unfold nixResult.
  destruct (proc h hist' Nix (pathInfoArgs flakeRef build)) as [|code out err] eqn:Ep;
    cbn [exitCode stdout stderr]; [discriminate|].
  destruct (Z.eqb code 0) eqn:Ec; [|discriminate]. apply Z.eqb_eq in Ec. subst code.
  cbn [negb]. destruct (trim out) as [|c t] eqn:Et; [discriminate|]. cbn [isEmpty].
  intros H. inversion H; subst p. clear H.
  destruct (trim_clean out) as [H1 H2]. rewrite Et in H1, H2.
  split; [discriminate|]. split; [exact H1|]. split; [exact H2|].
  exists hist', out, err. now split.
Qed.

Lemma getNixPath_returns_trimmed_path_witness :
  str "/nix/store/abc-system.drv" <> [] /\
  endsClean (str "/nix/store/abc-system.drv") = true.
Proof.
  destruct (getNixPath_returns_trimmed_path sampleRef false hostOk [] store0
              (str "/nix/store/abc-system.drv")) as (H1 & _ & H2 & _);
    [vm_compute; reflexivity|].
  now split.
Defined.

(** X2. Without a build, a path query that exits with status 0 and
    prints white space only fails with a [NixPathInfoError]: output that
    trims to nothing is empty output. *)
Theorem getNixPath_blank_output_fails
        (flakeRef : jsstring) (h : Host) (hist : Trace) (st : Store) (out err : jsstring) :
  proc h hist Nix [str "path-info"; str "--derivation"; flakeRef] = Exited 0 out err ->
  forallb isSpace out = true ->
  exitOf (getNixPath NixServiceLive flakeRef false h hist st)
  = Failure (NixPathInfoError flakeRef (str "nix path-info returned empty output")).
Proof.
  intros Hp Hs. rewrite getNixPath_run. cbv zeta. cbn [andb].
  rewrite app_nil_r. unfold pathInfoArgs, nixResult. rewrite Hp.
  cbn [exitCode stdout]. rewrite (trim_spaces out Hs). reflexivity.
Qed.

End ResolvedPaths.

Lemma getNixPath_blank_output_fails_witness :
  exitOf (Nix.getNixPath Nix.NixServiceLive sampleRef false hostBlankPathInfo [] store0)
  = Effect.Failure (NixPathInfoError sampleRef (str "nix path-info returned empty output")).
Proof.
  apply (getNixPath_blank_output_fails sampleRef hostBlankPathInfo [] store0
                                       (str "  " ++ nl) []); reflexivity.
Defined.

Section StructuralDiff.

Import Effect Nix.

(** [getDixDiff] in full. *)
Lemma getDixDiff_run basePath prPath inputsFromPath h hist st :
  getDixDiff NixServiceLive basePath prPath inputsFromPath h hist st =
  let r := nixResult h hist (dixArgs basePath prPath inputsFromPath) in
  (if negb (Z.eqb (exitCode r) 0)
   then Failure (NixDixError basePath prPath
                             (orDefault (stderr r) (str "dix failed with no error message")))
   else Success (stdout r),
   nixSteps h hist (dixArgs basePath prPath inputsFromPath)
   ++ (if Z.eqb (exitCode r) 0 && negb (isEmpty (stderr r))
       then [Solo (Log Info (str "dix stderr: " ++ stderr r))] else []),
   st).
Proof.
  cbv zeta. cbn [getDixDiff NixServiceLive]. fold (dixArgs basePath prPath inputsFromPath).
  unfold flatMap. rewrite widen_execNix_run. cbv beta iota zeta.
  destruct (Z.eqb (exitCode (nixResult h hist (dixArgs basePath prPath inputsFromPath))) 0);
    cbn [negb andb]; [|reflexivity].
  destruct (negb (isEmpty (stderr (nixResult h hist (dixArgs basePath prPath inputsFromPath)))));
    reflexivity.
Qed.

(** X3. The structural diff fails exactly when the tool does not exit
    with status 0, with a [NixDixError] that carries the two paths and the
    trimmed stderr of the tool (or "dix failed with no error message" when
    that is empty). When the tool exits with status 0 its trimmed output
    is returned, and what it wrote to stderr is logged as information,
    never raised as an error. *)
Theorem getDixDiff_outcomes
        (basePath prPath inputsFromPath : jsstring) (h : Host) (hist : Trace) (st : Store) :
  let r := nixResult h hist [str "run"; str "nixpkgs#dix"; str "--inputs-from";
                             str "path:" ++ inputsFromPath; str "--"; basePath; prPath] in
  let run := getDixDiff NixServiceLive basePath prPath inputsFromPath h hist st in
  (exitCode r <> 0%Z ->
   exitOf run = Failure (NixDixError basePath prPath
                           (if isEmpty (stderr r)
                            then str "dix failed with no error message" else stderr r)) /\
   Forall (fun c => forall message, c <> Log Info message) (commands (emittedOf run))) /\
  (exitCode r = 0%Z ->
   exitOf run = Success (stdout r) /\
   (stderr r <> [] ->
    In (Log Info (str "dix stderr: " ++ stderr r)) (commands (emittedOf run)))).
Proof.
  intros r run. unfold run. rewrite getDixDiff_run. cbv zeta.
  change (nixResult h hist (dixArgs basePath prPath inputsFromPath)) with r.
  unfold exitOf, emittedOf. cbn [fst snd]. split.
  - intros Hc. apply Z.eqb_neq in Hc. rewrite Hc. cbn [negb andb]. split; [reflexivity|].
    rewrite app_nil_r. unfold nixSteps.
    destruct (proc h hist Nix (dixArgs basePath prPath inputsFromPath));
      repeat constructor; discriminate.
  - intros Hc. rewrite Hc. cbn [Z.eqb negb andb]. split; [reflexivity|].
    intros Hne. rewrite commands_app. apply in_or_app. right.
    destruct (stderr r); [congruence|]. now left.
Qed.

Lemma getDixDiff_outcomes_witness :
  exitOf (getDixDiff NixServiceLive (str "/a") (str "/b") (str "/tmp/w") hostDixFails [] store0)
  = Failure (NixDixError (str "/a") (str "/b") (str "dix failed with no error message"))
  /\ In (Log Info (str "dix stderr: warning: Git tree is dirty"))
        (commands (emittedOf (getDixDiff NixServiceLive (str "/a") (str "/b") (str "/tmp/w")
                                         hostDixChatters [] store0))).
Proof.
  split.
  - pose proof (getDixDiff_outcomes (str "/a") (str "/b") (str "/tmp/w") hostDixFails [] store0)
      as H.
    cbv zeta in H. destruct H as [H _]. apply H. vm_compute. discriminate.
  - pose proof (getDixDiff_outcomes (str "/a") (str "/b") (str "/tmp/w") hostDixChatters
                                    [] store0) as H.
    cbv zeta in H. destruct H as [_ H].
    destruct H as [_ H]; [reflexivity|]. apply H. vm_compute. discriminate.
Defined.

End StructuralDiff.

Section Lines.

Import Utils.

Lemma join_more (sep x : jsstring) (xs : list jsstring) :
  xs <> [] -> join sep (x :: xs) = x ++ sep ++ join sep xs.
Proof. destruct xs; [congruence | reflexivity]. Qed.

Lemma join_head (sep : jsstring) (c : N) (l : jsstring) (ls : list jsstring) :
  join sep ((c :: l) :: ls) = c :: join sep (l :: ls).
Proof. destruct ls; reflexivity. Qed.

(** The pieces of [split(/\r?\n/)] are one more than the line feeds. *)
Lemma splitLines_length (d : jsstring) : List.length (splitLines d) = S (countLF d).
Proof.
  unfold countLF.
  induction d as [|c r IH1 IH2] using jsstring_ind2; [reflexivity|].
  cbn [splitLines count_occ].
  destruct (N.eqb c LF) eqn:Ec.
  - apply N.eqb_eq in Ec. subst c.
    destruct (N.eq_dec LF LF) as [_|n]; [|congruence]. cbn [List.length]. now rewrite IH1.
  - apply N.eqb_neq in Ec. destruct (N.eq_dec c LF) as [e|_]; [congruence|].
    assert (Hkeep : List.length match splitLines r with
                                | l :: ls => (c :: l) :: ls
                                | [] => [[c]]
                                end = S (count_occ N.eq_dec r LF)).
    { rewrite <- IH1. destruct (splitLines r) eqn:E; [|reflexivity].
      now apply splitLines_nonempty in E. }
    destruct r as [|d r']; [exact Hkeep|].
    destruct (N.eqb c CR && N.eqb d LF) eqn:E; [|exact Hkeep].
    apply andb_true_iff in E as [_ Ed]. apply N.eqb_eq in Ed. subst d.
    cbn [List.length count_occ]. destruct (N.eq_dec LF LF) as [_|n]; [|congruence].
    now rewrite (IH2 LF r' eq_refl).
Qed.

(** Joining the pieces of [split(/\r?\n/)] with LF gives the text back
    with its CR LF line ends turned into LF. *)
Lemma join_splitLines (d : jsstring) : join [LF] (splitLines d) = normalizeCRLF d.
Proof.
  induction d as [|c r IH1 IH2] using jsstring_ind2; [reflexivity|].
  cbn [splitLines normalizeCRLF].
  assert (Hkeep : N.eqb c LF = false ->
                  join [LF] match splitLines r with
                            | l :: ls => (c :: l) :: ls
                            | [] => [[c]]
                            end = c :: normalizeCRLF r).
  { intros _. rewrite <- IH1. destruct (splitLines r) eqn:E.
    - now apply splitLines_nonempty in E.
    - apply join_head. }
  destruct (N.eqb c LF) eqn:Ec.
  - apply N.eqb_eq in Ec. subst c.
    rewrite join_more by apply splitLines_nonempty. rewrite IH1.
    destruct r as [|d r']; reflexivity.
  - destruct r as [|d r']; [reflexivity|].
    destruct (N.eqb c CR && N.eqb d LF) eqn:E; [|now apply Hkeep].
    rewrite join_more by apply splitLines_nonempty. now rewrite (IH2 d r' eq_refl).
Qed.

Lemma normalizeCRLF_noCR (d : jsstring) : ~ In CR d -> normalizeCRLF d = d.
Proof.
  induction d as [|c r IH]; intros H; [reflexivity|].
  cbn [normalizeCRLF]. destruct r as [|d r']; [reflexivity|].
  assert (Ec : N.eqb c CR = false).
  { apply N.eqb_neq. intros E. apply H. now left. }
  rewrite Ec. cbn [andb]. f_equal. apply IH. intros Hin. apply H. now right.
Qed.

Lemma dropHeaders_none (ls : list jsstring) :
  headerBeforeBlank ls = false -> dropHeaders ls = ls.
Proof.
  induction ls as [|l rest IH]; intros H; [reflexivity|].
  cbn [headerBeforeBlank] in H. apply orb_false_iff in H as [H1 H2].
  cbn [dropHeaders]. rewrite H1. f_equal. now apply IH.
Qed.

Lemma filter_plain_dropHeaders (ls : list jsstring) :
  filter plainLine (dropHeaders ls) = filter plainLine ls.
Proof.
  induction ls as [|l rest IH]; [reflexivity|].
  cbn [dropHeaders]. destruct (isChangedHeader l && blankAt rest 0) eqn:E.
  - apply andb_true_iff in E as [E _]. cbn [filter]. unfold plainLine at 2.
    rewrite E, andb_false_r. exact IH.
  - cbn [filter]. now rewrite IH.
Qed.

Lemma filter_plain_minor (ls : list jsstring) :
  filter plainLine (filter (fun line => negb (isNixpkgsMinorUpdateLine line)) ls)
  = filter plainLine ls.
Proof.
  induction ls as [|l rest IH]; [reflexivity|].
  cbn [filter]. destruct (isNixpkgsMinorUpdateLine l) eqn:E; cbn [negb].
  - unfold plainLine at 2. rewrite E. cbn [negb andb]. exact IH.
  - cbn [filter]. now rewrite IH.
Qed.

(** X4. [hasPackageChanges] counts line feeds: it answers true exactly
    for a report that is not blank and holds at least five line feeds
    (six lines or more), whatever the lines say; a CR LF line end counts
    once. *)
Theorem hasPackageChanges_counts_line_feeds (d : jsstring) :
  hasPackageChanges (Some d) = negb (blank d) && Nat.leb 5 (countLF d).
Proof.
  unfold hasPackageChanges. destruct (blank d); [reflexivity|].
  rewrite splitLines_length. reflexivity.
Qed.

(** X5. A report that is not blank, has no minor system update line and
    no CHANGED header directly before a blank line comes back from
    [filterNixpkgsMinorUpdates] with every CR LF line end turned into LF
    and nothing else changed; without any carriage return it comes back
    as it was. *)
Theorem filter_nothing_to_remove (d : jsstring) :
  noMinorUpdates (splitLines d) = true ->
  headerBeforeBlank (splitLines d) = false ->
  (blank d = false -> filterNixpkgsMinorUpdates d = normalizeCRLF d) /\
  (~ In CR d -> filterNixpkgsMinorUpdates d = d).
Proof.
  intros Hminor Hhead.
  assert (H : blank d = false -> filterNixpkgsMinorUpdates d = normalizeCRLF d).
  { intros Hb. rewrite filterNixpkgsMinorUpdates_lines by exact Hb.
    unfold filteredLinesOf. rewrite filter_fixed.
    - rewrite dropHeaders_none by exact Hhead. apply join_splitLines.
    - apply Forall_forall. intros l Hl.
      exact (proj1 (forallb_forall _ _) Hminor l Hl). }
  split; [exact H|].
  intros Hcr. destruct (blank d) eqn:Hb.
  - now apply filterNixpkgsMinorUpdates_blank.
  - rewrite H by reflexivity. now apply normalizeCRLF_noCR.
Qed.

Lemma filter_nothing_to_remove_witness :
  filterNixpkgsMinorUpdates diffWindowsLineEnds = normalizeCRLF diffWindowsLineEnds /\
  filterNixpkgsMinorUpdates diffSixLines = diffSixLines.
Proof.
  split.
  - apply (filter_nothing_to_remove diffWindowsLineEnds); reflexivity.
  - apply (filter_nothing_to_remove diffSixLines); [reflexivity | reflexivity |].
    vm_compute. intros H. repeat (destruct H as [H|H]; [discriminate H|]). exact H.
Defined.

(** X6. The lines of the output of [filterNixpkgsMinorUpdates] on a
    report that is not blank keep, in order and as often as they occur,
    every line of the report that is neither a minor system update line
    nor a CHANGED header: the filter removes lines of these two kinds
    only. *)
Theorem filter_keeps_plain_lines (d : jsstring) :
  blank d = false ->
  exists kept : list jsstring,
    filterNixpkgsMinorUpdates d = join [LF] kept /\
    filter plainLine kept = filter plainLine (splitLines d).
Proof.
  intros Hb. exists (dropHeaders (filteredLinesOf d)). split.
  - now apply filterNixpkgsMinorUpdates_lines.
  - rewrite filter_plain_dropHeaders. apply filter_plain_minor.
Qed.

Lemma filter_keeps_plain_lines_witness :
  exists kept : list jsstring,
    filterNixpkgsMinorUpdates diffMinorUpdate = join [LF] kept /\
    filter plainLine kept = filter plainLine (splitLines diffMinorUpdate).
Proof. apply (filter_keeps_plain_lines diffMinorUpdate). reflexivity. Defined.

End Lines.

Section CheckoutAcquisition.

Import Effect Git.

(** What the release of a checkout emits: the removal, then one log line. *)
Lemma releaseOf_steps path h hist :
  releaseOf path h hist
  = emittedOf (removeWorktree path h hist store0)
    ++ [Solo (Log Info (str "Cleaned up worktree at " ++ path))].
Proof.
  unfold releaseOf, flatMap. rewrite removeWorktree_run. reflexivity.
Qed.

(** [createWorktree] in full. *)
Lemma createWorktree_run baseRef runId h hist st :
  createWorktree GitServiceLive baseRef runId h hist st =
  let p := worktreePathOf h baseRef runId in
  let stale := emittedOf (removeWorktree p h hist st) in
  let fetch := Solo (Exec Git (fetchArgs baseRef) false) in
  let add := Solo (Exec Git (addArgs p baseRef) false) in
  if negb (gitOk h (hist ++ stale) (fetchArgs baseRef))
  then (Failure (GitWorktreeError (str "fetch") (str "Failed to fetch " ++ baseRef)),
        stale ++ [fetch], st)
  else if negb (gitOk h (hist ++ stale ++ [fetch]) (addArgs p baseRef))
  then (Failure (GitWorktreeError (str "create")
                                  (str "Failed to create worktree for " ++ baseRef)),
        stale ++ [fetch; add], st)
  else (Success {| path := p |},
        stale ++ [fetch; add;
                  Solo (SaveState (str "worktreePath") p);
                  Solo (Log Info (str "Created worktree for base branch " ++ baseRef
                                      ++ str " at " ++ p))],
        {| prefetchLogged := prefetchLogged st;
           finalizers := releaseOf p :: finalizers st |}).
Proof.
  cbv zeta. cbn [createWorktree GitServiceLive]. unfold acquireRelease.
  set (p := worktreePathOf h baseRef runId).
  set (stale := emittedOf (removeWorktree p h hist st)).
  assert (Hrm : removeWorktree p h hist st = (Success tt, stale, st)).
  { unfold stale. rewrite removeWorktree_run. reflexivity. }
  unfold flatMap at 1. unfold widen. rewrite Hrm.
  unfold flatMap at 1. unfold fetchRef, mapError, map. unfold flatMap at 1.
  unfold exec at 1. fold (fetchArgs baseRef). unfold gitOk at 1.
  destruct (proc h (hist ++ stale) Git (fetchArgs baseRef)) as [|code out err];
    [reflexivity|].
  cbn [negb andb]. destruct (Z.eqb code 0); cbn [negb]; [|reflexivity].
  unfold succeed at 1. cbn [exitCode].
  unfold flatMap at 1. unfold addWorktree, mapError, map. unfold flatMap at 1.
  unfold exec at 1. fold (addArgs p baseRef). unfold gitOk.
  rewrite <- ?app_assoc. cbn [app].
  unfold succeed, logInfo, emit.
  destruct (proc h (hist ++ stale ++ [Solo (Exec Git (fetchArgs baseRef) false)]) Git
                 (addArgs p baseRef)) as [|code2 out2 err2].
  - cbn [negb]. rewrite <- ?app_assoc. reflexivity.
  - cbn [negb andb]. destruct (Z.eqb code2 0); cbn [negb].
    + unfold flatMap. cbn [app exitCode]. rewrite <- ?app_assoc. reflexivity.
    + rewrite <- ?app_assoc. reflexivity.
Qed.

(** X7. [createWorktree] first removes a checkout left at its path,
    which cannot fail, then fetches the base ref and adds the checkout.
    When the fetch does not exit with status 0 the error is
    [GitWorktreeError "fetch"], and nothing is added; when the addition
    does not, it is [GitWorktreeError "create"]. In both cases no state
    is saved and no release is registered. Only when both succeed is the
    path saved under "worktreePath", the checkout at that path returned
    and its release registered in the scope. *)
Theorem createWorktree_outcomes
        (baseRef runId : jsstring) (h : Host) (hist : Trace) (st : Store) :
  let p := worktreePathOf h baseRef runId in
  let run := createWorktree GitServiceLive baseRef runId h hist st in
  let stale := emittedOf (removeWorktree p h hist st) in
  let fetch := Solo (Exec Git [str "fetch"; str "origin";
                               str "+" ++ baseRef ++ str ":refs/remotes/origin/" ++ baseRef;
                               str "--depth=1"] false) in
  let add := Solo (Exec Git [str "worktree"; str "add"; str "--detach"; p;
                             str "origin/" ++ baseRef] false) in
  let fetched := gitOk h (hist ++ stale) (fetchArgs baseRef) in
  let added := gitOk h (hist ++ stale ++ [fetch]) (addArgs p baseRef) in
  (fetched = false ->
   run = (Failure (GitWorktreeError (str "fetch") (str "Failed to fetch " ++ baseRef)),
          stale ++ [fetch], st)) /\
  (fetched = true -> added = false ->
   run = (Failure (GitWorktreeError (str "create")
                                    (str "Failed to create worktree for " ++ baseRef)),
          stale ++ [fetch; add], st)) /\
  (fetched = true -> added = true ->
   exitOf run = Success {| path := p |} /\
   emittedOf run
   = stale ++ [fetch; add; Solo (SaveState (str "worktreePath") p);
               Solo (Log Info (str "Created worktree for base branch " ++ baseRef
                                   ++ str " at " ++ p))] /\
   prefetchLogged (storeOf run) = prefetchLogged st /\
   finalizers (storeOf run) = releaseOf p :: finalizers st).
Proof.
  intros p run stale fetch add fetched added.
  unfold run. rewrite createWorktree_run. cbv zeta.
  fold p. fold stale. change (Solo (Exec Git (fetchArgs baseRef) false)) with fetch.
  change (Solo (Exec Git (addArgs p baseRef) false)) with add.
  fold fetched. fold added.
  split; [|split].
  - intros ->. reflexivity.
  - intros -> ->. reflexivity.
  - intros -> ->. cbn [negb]. unfold exitOf, emittedOf, storeOf. cbn [fst snd].
    repeat split.
Qed.

Lemma createWorktree_outcomes_witness :
  createWorktree GitServiceLive (str "main") (str "42") hostFetchFails [] store0
  = (Failure (GitWorktreeError (str "fetch") (str "Failed to fetch main")),
     [Solo (Exec Git [str "worktree"; str "list"; str "--porcelain"] false);
      Solo (Exec Git [str "fetch"; str "origin"; str "+main:refs/remotes/origin/main";
                      str "--depth=1"] false)],
     store0)
  /\ exitOf (createWorktree GitServiceLive (str "main") (str "42") hostAddFails [] store0)
     = Failure (GitWorktreeError (str "create") (str "Failed to create worktree for main"))
  /\ exitOf (createWorktree GitServiceLive (str "feature/x") (str "42") hostOk [] store0)
     = Success {| path := str "/tmp/dix-base-feature-x-42" |}.
Proof.
  split; [|split].
  - pose proof (createWorktree_outcomes (str "main") (str "42") hostFetchFails [] store0) as H.
    cbv zeta in H. destruct H as [H _]. apply H. reflexivity.
  - pose proof (createWorktree_outcomes (str "main") (str "42") hostAddFails [] store0) as H.
    cbv zeta in H. destruct H as (_ & H & _). rewrite H; reflexivity.
  - pose proof (createWorktree_outcomes (str "feature/x") (str "42") hostOk [] store0) as H.
    cbv zeta in H. destruct H as (_ & _ & H). apply H; reflexivity.
Defined.

End CheckoutAcquisition.

Section Finalizers.

Import Effect.

Context {h : Host}.

Lemma keeps_succeed {A E} (a : A) : keepsFinalizers h (succeed (E := E) a).
Proof. intros hist st. reflexivity. Qed.

Lemma keeps_fail {A E} (e : E) : keepsFinalizers h (fail (A := A) e).
Proof. intros hist st. reflexivity. Qed.

Lemma keeps_emit {E} (c : Cmd) : keepsFinalizers h (emit (E := E) c).
Proof. intros hist st. reflexivity. Qed.

Lemma keeps_exec tool args rc : keepsFinalizers h (exec tool args rc).
Proof. intros hist st. reflexivity. Qed.

Lemma keeps_flatMap {A B E} (m : Effect A E) (k : A -> Effect B E) :
  keepsFinalizers h m -> (forall a, keepsFinalizers h (k a)) -> keepsFinalizers h (flatMap m k).
Proof.
  intros Hm Hk hist st. specialize (Hm hist st). unfold flatMap, storeOf in *.
  destruct (m h hist st) as [[[a|e] em1] st1]; cbn [snd] in *; [|exact Hm].
  specialize (Hk a (hist ++ em1) st1). unfold storeOf in Hk.
  destruct (k a h (hist ++ em1) st1) as [[r em2] st2]. cbn [snd] in *. congruence.
Qed.

Lemma store_flatMap {A B E} (m : Effect A E) (k : A -> Effect B E) hist st :
  storeOf (flatMap m k h hist st)
  = match m h hist st with
    | (Success a, em1, st1) => storeOf (k a h (hist ++ em1) st1)
    | (Failure e, em1, st1) => st1
    end.
Proof.
  unfold flatMap, storeOf. destruct (m h hist st) as [[[a|e] em1] st1]; [|reflexivity].
  now destruct (k a h (hist ++ em1) st1) as [[r em2] st2].
Qed.

Lemma keeps_map {A B E} (f : A -> B) (m : Effect A E) :
  keepsFinalizers h m -> keepsFinalizers h (map f m).
Proof. intros H. apply keeps_flatMap; [exact H | intros; apply keeps_succeed]. Qed.

Lemma keeps_widen {A E} (m : Effect A Empty_set) :
  keepsFinalizers h m -> keepsFinalizers h (widen (E := E) m).
Proof.
  intros H hist st. specialize (H hist st). unfold widen.
  destruct (m h hist st) as [[[a|[]] em] st1]. exact H.
Qed.

Lemma keeps_catchAll {A E E'} (m : Effect A E) (handler : E -> Effect A E') :
  keepsFinalizers h m -> (forall e, keepsFinalizers h (handler e)) ->
  keepsFinalizers h (catchAll m handler).
Proof.
  intros Hm Hk hist st. specialize (Hm hist st). unfold catchAll, storeOf in *.
  destruct (m h hist st) as [[[a|e] em1] st1]; cbn [snd] in *; [exact Hm|].
  specialize (Hk e (hist ++ em1) st1). unfold storeOf in Hk.
  destruct (handler e h (hist ++ em1) st1) as [[r em2] st2]. cbn [snd] in *. congruence.
Qed.

Lemma keeps_forEach {A B E} (xs : list A) (f : A -> Effect B E) :
  (forall x, keepsFinalizers h (f x)) -> keepsFinalizers h (forEach xs f).
Proof.
  intros H. induction xs as [|x xs IH]; simpl.
  - apply keeps_succeed.
  - apply keeps_flatMap; [apply H | intros y].
    apply keeps_flatMap; [exact IH | intros ys; apply keeps_succeed].
Qed.

Lemma keeps_runFibers {A} (es : list (Effect A Empty_set)) hist :
  (forall e, In e es -> keepsFinalizers h e) ->
  forall st, finalizers (snd (runFibers es h hist st)) = finalizers st.
Proof.
  induction es as [|e es IH]; intros H st; simpl; [reflexivity|].
  pose proof (H e (or_introl eq_refl) hist st) as He. unfold storeOf in He.
  destruct (e h hist st) as [[[a|[]] em] st1]. cbn [snd] in He.
  specialize (IH (fun e' Hin => H e' (or_intror Hin)) st1).
  destruct (runFibers es h hist st1) as [[xs ems] st2]. cbn [snd] in *. congruence.
Qed.

Lemma keeps_allConcurrent {A E} (es : list (Effect A Empty_set)) :
  (forall e, In e es -> keepsFinalizers h e) -> keepsFinalizers h (allConcurrent (E := E) es).
Proof.
  intros H hist st. pose proof (keeps_runFibers es hist H st) as Hf.
  unfold allConcurrent. destruct (runFibers es h hist st) as [[xs ems] st2]. exact Hf.
Qed.

End Finalizers.

Section ScopedRelease.

Import Effect Git Nix Full.

Lemma prefetchFlakeInputs_keeps h flakeRef :
  keepsFinalizers h (prefetchFlakeInputs NixServiceLive flakeRef).
Proof.
  intros hist st. cbn [prefetchFlakeInputs NixServiceLive].
  unfold execPrefetch, orElseSucceed, catchAll, map, flatMap, exec, succeed, void,
    getPrefetchLogged, setPrefetchLogged, logInfo, emit, storeOf.
  destruct (proc h hist Nix _) as [|code out err]; cbn.
  - destruct (prefetchLogged st); reflexivity.
  - destruct (Z.eqb code 0); cbn; [reflexivity|]. destruct (prefetchLogged st); reflexivity.
Qed.

Lemma getNixPath_keeps h flakeRef build :
  keepsFinalizers h (getNixPath NixServiceLive flakeRef build).
Proof.
  intros hist st. rewrite getNixPath_run. cbv zeta.
  destruct (build && negb _); reflexivity.
Qed.

Lemma getDixDiff_keeps h basePath prPath inputsFromPath :
  keepsFinalizers h (getDixDiff NixServiceLive basePath prPath inputsFromPath).
Proof. intros hist st. rewrite getDixDiff_run. reflexivity. Qed.

Lemma processNixOutput_keeps h config baseFlakeRef prFlakeRef baseSha headSha build
      worktreePath :
  keepsFinalizers h (processNixOutput NixServiceLive config baseFlakeRef prFlakeRef
                                      baseSha headSha build worktreePath).
Proof.
  unfold processNixOutput, all2, logInfo.
  repeat first [ apply keeps_succeed | apply keeps_emit | apply getNixPath_keeps
               | apply getDixDiff_keeps | apply keeps_flatMap; [|intros ?] ].
Qed.

(** What is registered in the scope when the pipeline ends: the release
    of the checkout when it was acquired, nothing otherwise. *)
Lemma processDiffResults_finalizers options h hist st :
  finalizers (storeOf (processDiffResults GitServiceLive NixServiceLive options h hist st))
  = match exitOf (createWorktree GitServiceLive (baseRef options) (runId options) h hist st)
    with
    | Success _ =>
      releaseOf (worktreePathOf h (baseRef options) (runId options)) :: finalizers st
    | Failure _ => finalizers st
    end.
Proof.
  unfold processDiffResults. rewrite store_flatMap.
  rewrite createWorktree_run. cbv zeta.
  destruct (negb (gitOk h _ (fetchArgs (baseRef options)))); [reflexivity|].
  destruct (negb (gitOk h _ (addArgs _ (baseRef options)))); [reflexivity|].
  unfold exitOf. cbn [fst]. cbv beta.
  match goal with
  | |- finalizers (storeOf (?m h _ _)) = _ => assert (Hk : keepsFinalizers h m)
  end.
  { apply (keeps_flatMap (h := h)).
    - apply keeps_allConcurrent.
      intros e [<- | [<- | []]]; apply prefetchFlakeInputs_keeps.
    - intros _. apply keeps_forEach. intros config. apply processNixOutput_keeps. }
  rewrite Hk. reflexivity.
Qed.

(** X8. Running the pipeline in its scope does not change the outcome
    and leaves the enclosing scope as it was. When the checkout was
    acquired, the run ends, whether the pipeline then succeeded or
    failed, with the release of that checkout: its removal, after every
    other step, then the log line "Cleaned up worktree at <path>". When
    the acquisition failed nothing is released. *)
Theorem scoped_run_releases_checkout
        (options : ProcessDiffOptions) (h : Host) (hist : Trace) (st : Store) :
  let p := worktreePathOf h (baseRef options) (runId options) in
  let body := processDiffResults GitServiceLive NixServiceLive options h hist (freshScope st) in
  let acquired :=
      exitOf (createWorktree GitServiceLive (baseRef options) (runId options) h hist
                             (freshScope st)) in
  let run := runScoped GitServiceLive NixServiceLive options h hist st in
  exitOf run = exitOf body /\
  finalizers (storeOf run) = finalizers st /\
  (forall w, acquired = Success w ->
             emittedOf run
             = emittedOf body
               ++ emittedOf (removeWorktree p h (hist ++ emittedOf body) store0)
               ++ [Solo (Log Info (str "Cleaned up worktree at " ++ p))]) /\
  (forall e, acquired = Failure e -> emittedOf run = emittedOf body).
Proof.
  intros p body acquired run.
  pose proof (processDiffResults_finalizers options h hist (freshScope st)) as Hf.
  fold body in Hf. fold acquired in Hf. fold p in Hf.
  unfold run, runScoped, scoped. fold (freshScope st). fold body.
  destruct body as [[r em] st1]. unfold exitOf, emittedOf, storeOf in *. cbn [fst snd] in *.
  split; [reflexivity|]. split; [reflexivity|]. split.
  - intros w Hw. rewrite Hw in Hf. rewrite Hf. cbn [freshScope finalizers runFinalizers].
    rewrite app_nil_r. f_equal. apply releaseOf_steps.
  - intros e He. rewrite He in Hf. rewrite Hf. cbn [freshScope finalizers runFinalizers].
    apply app_nil_r.
Qed.

Lemma scoped_run_releases_checkout_witness :
  emittedOf (runScoped GitServiceLive NixServiceLive sampleOptions hostDixFails [] storeOuter)
  = emittedOf (processDiffResults GitServiceLive NixServiceLive sampleOptions hostDixFails []
                                  (freshScope storeOuter))
    ++ emittedOf (removeWorktree (str "/tmp/dix-base-main-42") hostDixFails
                    ([] ++ emittedOf (processDiffResults GitServiceLive NixServiceLive
                                        sampleOptions hostDixFails [] (freshScope storeOuter)))
                    store0)
    ++ [Solo (Log Info (str "Cleaned up worktree at /tmp/dix-base-main-42"))]
  /\ emittedOf (runScoped GitServiceLive NixServiceLive sampleOptions hostFetchFails []
                          storeOuter)
     = emittedOf (processDiffResults GitServiceLive NixServiceLive sampleOptions
                                     hostFetchFails [] (freshScope storeOuter)).
Proof.
  split.
  - pose proof (scoped_run_releases_checkout sampleOptions hostDixFails [] storeOuter) as H.
    cbv zeta in H. destruct H as (_ & _ & H & _).
    apply (H {| path := str "/tmp/dix-base-main-42" |}). reflexivity.
  - pose proof (scoped_run_releases_checkout sampleOptions hostFetchFails [] storeOuter) as H.
    cbv zeta in H. destruct H as (_ & _ & _ & H).
    apply (H (GitWorktreeError (str "fetch") (str "Failed to fetch main"))). reflexivity.
Defined.

End ScopedRelease.

Section Prefetch.

Import Effect Nix.

(** One prefetch in full. *)
Lemma prefetchFlakeInputs_run flakeRef h hist st :
  prefetchFlakeInputs NixServiceLive flakeRef h hist st =
  let first := negb (prefetchOk h hist flakeRef) && negb (prefetchLogged st) in
  (Success tt,
   Solo (Exec Nix (prefetchArgs flakeRef) true)
   :: (if first then [Solo (Log Info skipNotice)] else []),
   if first then {| prefetchLogged := true; finalizers := finalizers st |} else st).
Proof.
  cbv zeta. cbn [prefetchFlakeInputs NixServiceLive].
  unfold execPrefetch, orElseSucceed, catchAll, map, flatMap, exec, succeed, void,
    getPrefetchLogged, setPrefetchLogged, logInfo, emit, prefetchOk.
  fold (prefetchArgs flakeRef). fold skipNotice.
  destruct (proc h hist Nix (prefetchArgs flakeRef)) as [|code out err]; cbn.
  - destruct (prefetchLogged st); reflexivity.
  - destruct (Z.eqb code 0); cbn; [reflexivity|]. destruct (prefetchLogged st); reflexivity.
Qed.

Lemma notices_fibers (refs : list jsstring) (h : Host) (hist : Trace) : forall st,
  let failed := negb (forallb (prefetchOk h hist) refs) in
  let '(xs, ems, st') :=
      runFibers (List.map (prefetchFlakeInputs NixServiceLive) refs) h hist st in
  List.length xs = List.length refs /\
  List.length (filter isSkipNotice (flat_map commands ems))
  = (if failed && negb (prefetchLogged st) then 1 else 0) /\
  prefetchLogged st' = prefetchLogged st || failed /\
  finalizers st' = finalizers st.
Proof.
  induction refs as [|ref refs IH]; intros st; cbn [List.map runFibers forallb].
  - cbv zeta. cbn. rewrite orb_false_r. auto.
  - rewrite prefetchFlakeInputs_run. cbv beta iota zeta.
    set (first := negb (prefetchOk h hist ref) && negb (prefetchLogged st)).
    set (st1 := if first then {| prefetchLogged := true; finalizers := finalizers st |}
                else st).
    specialize (IH st1). cbv zeta in IH.
    destruct (runFibers (List.map (prefetchFlakeInputs NixServiceLive) refs) h hist st1)
      as [[xs ems] st'].
    destruct IH as (Hl & Hn & Hp & Hf).
    cbn [List.length flat_map].
    rewrite filter_app, length_app, Hn, Hp, Hf, Hl.
    unfold st1, first.
    clear Hn Hp Hf Hl.
    destruct (prefetchOk h hist ref), (prefetchLogged st) eqn:El,
      (forallb (prefetchOk h hist) refs); cbn; rewrite ?El; cbn; auto.
Qed.

(** X9. The two prefetches of a run, and any number of them run as one
    concurrent group with the store accesses of each fiber taken
    together, log the notice "Skipping parallel input fetch: ..." exactly
    once when some prefetch does not exit with status 0 and the notice
    was not logged before, and not at all otherwise; the group succeeds
    whatever the prefetches do, and remembers that the notice was
    logged. *)
Theorem prefetch_notice_logged_once
        (E : Type) (refs : list jsstring) (h : Host) (hist : Trace) (st : Store) :
  let run := allConcurrent (E := E) (List.map (prefetchFlakeInputs NixServiceLive) refs)
                           h hist st in
  let failed := negb (forallb (prefetchOk h hist) refs) in
  (exists units, exitOf run = Success units) /\
  notices (emittedOf run) = (if failed && negb (prefetchLogged st) then 1 else 0) /\
  prefetchLogged (storeOf run) = prefetchLogged st || failed /\
  finalizers (storeOf run) = finalizers st.
Proof.
  intros run failed. unfold run, allConcurrent.
  pose proof (notices_fibers refs h hist st) as H. cbv zeta in H.
  destruct (runFibers (List.map (prefetchFlakeInputs NixServiceLive) refs) h hist st)
    as [[xs ems] st'].
  destruct H as (_ & Hn & Hp & Hf).
  unfold exitOf, emittedOf, storeOf, notices. cbn [fst snd].
  split; [now exists xs|]. split; [|now split].
  unfold commands at 1. cbn [flat_map stepCmds]. rewrite app_nil_r. exact Hn.
Qed.

End Prefetch.

Section SavedState.

Import Effect Git Nix Full.

Lemma emitted_flatMap {A B E} (m : Effect A E) (k : A -> Effect B E) h hist st :
  emittedOf (flatMap m k h hist st)
  = match m h hist st with
    | (Success a, em1, st1) => em1 ++ emittedOf (k a h (hist ++ em1) st1)
    | (Failure e, em1, st1) => em1
    end.
Proof.
  unfold flatMap, emittedOf. destruct (m h hist st) as [[[a|e] em1] st1]; [|reflexivity].
  now destruct (k a h (hist ++ em1) st1) as [[r em2] st2].
Qed.

Lemma savedValues_app (a b : Trace) name :
  savedValues (a ++ b) name = savedValues a name ++ savedValues b name.
Proof. unfold savedValues. rewrite commands_app. apply flat_map_app. Qed.

Lemma savedValues_none (t : Trace) name :
  Forall (fun c => savesOf name c = []) (commands t) -> savedValues t name = [].
Proof.
  unfold savedValues. induction 1 as [|c cs Hc _ IH]; [reflexivity|].
  cbn [flat_map]. now rewrite Hc, IH.
Qed.

(** The combinators save no state when their parts save none; a
    subprocess and a log line save none. *)
Ltac saves_none :=
  repeat first
         [ apply emitsOn_succeed | apply emitsOn_fail
         | apply emitsOn_exec; reflexivity
         | apply emitsOn_emit; reflexivity
         | apply emitsOn_ignore | apply emitsOn_widen | apply emitsOn_mapError
         | apply emitsOn_catchAll; [|intros ?]
         | apply emitsOn_bind; [|intros ?]
         | match goal with |- emitsOn _ _ (if ?b then _ else _) => destruct b end ].

Lemma removeWorktree_saves_none h name path :
  emitsOn h (fun c => savesOf name c = []) (removeWorktree path).
Proof. unfold removeWorktree, worktreeExists, execGit, as_, map, logWarning. saves_none. Qed.

Lemma prefetchFlakeInputs_saves_none h name flakeRef :
  emitsOn h (fun c => savesOf name c = []) (prefetchFlakeInputs NixServiceLive flakeRef).
Proof.
  intros hist st. rewrite prefetchFlakeInputs_run. cbv zeta. unfold emittedOf. cbn [fst snd].
  destruct (negb _ && negb _); repeat constructor.
Qed.

Lemma processNixOutput_saves_none h name config baseFlakeRef prFlakeRef baseSha headSha build
      worktreePath :
  emitsOn h (fun c => savesOf name c = [])
          (processNixOutput NixServiceLive config baseFlakeRef prFlakeRef baseSha headSha
                            build worktreePath).
Proof.
  unfold processNixOutput, all2. cbn [getNixPath getDixDiff NixServiceLive].
  unfold execNix, logInfo, logWarning, as_, map, void. saves_none.
Qed.

(** The state a run of the pipeline saves: the path of the checkout, once,
    when it was acquired; nothing otherwise. *)
Lemma processDiffResults_saved options h hist st :
  savedValues (emittedOf (processDiffResults GitServiceLive NixServiceLive options h hist st))
              (str "worktreePath")
  = match exitOf (createWorktree GitServiceLive (baseRef options) (runId options) h hist st)
    with
    | Success _ => [worktreePathOf h (baseRef options) (runId options)]
    | Failure _ => []
    end.
Proof.
  unfold processDiffResults. rewrite emitted_flatMap.
  rewrite createWorktree_run. cbv zeta.
  set (p := worktreePathOf h (baseRef options) (runId options)).
  pose proof (savedValues_none _ _ (removeWorktree_saves_none h (str "worktreePath") p hist st))
    as Hs.
  destruct (negb (gitOk h _ (fetchArgs (baseRef options)))).
  { unfold exitOf. cbn [fst]. rewrite savedValues_app, Hs. reflexivity. }
  destruct (negb (gitOk h _ (addArgs p (baseRef options)))).
  { unfold exitOf. cbn [fst]. rewrite savedValues_app, Hs. reflexivity. }
  unfold exitOf. cbn [fst]. cbv beta.
  rewrite !savedValues_app, Hs. cbn [app].
  match goal with
  | |- _ ++ savedValues (emittedOf (?m h ?hi ?s)) _ = _ =>
    assert (Hk : emitsOn h (fun c => savesOf (str "worktreePath") c = []) m)
  end.
  { apply emitsOn_bind.
    - apply emitsOn_allConcurrent.
      intros e [<- | [<- | []]]; apply prefetchFlakeInputs_saves_none.
    - intros _. apply emitsOn_forEach. intros config _. apply processNixOutput_saves_none. }
  rewrite (savedValues_none _ _ (Hk _ _)). reflexivity.
Qed.

(** The steps of the scoped run: those of the pipeline, then the release
    of the checkout when it was acquired. *)
Lemma runScoped_emitted options h hist st :
  let body := processDiffResults GitServiceLive NixServiceLive options h hist (freshScope st) in
  emittedOf (runScoped GitServiceLive NixServiceLive options h hist st)
  = emittedOf body
    ++ match exitOf (createWorktree GitServiceLive (baseRef options) (runId options) h hist
                                    (freshScope st))
       with
       | Success _ => releaseOf (worktreePathOf h (baseRef options) (runId options)) h
                                (hist ++ emittedOf body)
       | Failure _ => []
       end.
Proof.
  intros body.
  pose proof (processDiffResults_finalizers options h hist (freshScope st)) as Hf.
  fold body in Hf. unfold runScoped, scoped. fold (freshScope st). fold body.
  destruct body as [[r em] st1]. unfold emittedOf, storeOf in *. cbn [fst snd] in *.
  rewrite Hf. destruct (exitOf _); cbn [freshScope finalizers runFinalizers];
    now rewrite ?app_nil_r.
Qed.

(** X10. The post step undoes the main step. Reading the state the main
    run saved, the post step removes the checkout of that run, at the
    same path, and logs "Cleaned up worktree at <path>", when the main
    run had acquired the checkout; when the acquisition had failed it
    only logs that no path was saved and runs no git command. It never
    fails and leaves the store alone. *)
Theorem cleanup_undoes_main_step
        (options : ProcessDiffOptions) (h : Host) (hist : Trace) (st : Store)
        (h' : Host) (hist' : Trace) (st' : Store) :
  let p := worktreePathOf h (baseRef options) (runId options) in
  let run := runScoped GitServiceLive NixServiceLive options h hist st in
  let acquired :=
      exitOf (createWorktree GitServiceLive (baseRef options) (runId options) h hist
                             (freshScope st)) in
  let post := Cleanup.run (savedState (emittedOf run)) h' hist' st' in
  p <> [] ->
  (forall w, acquired = Success w ->
             post = (Success tt,
                     emittedOf (removeWorktree p h' hist' st')
                     ++ [Solo (Log Info (str "Cleaned up worktree at " ++ p))],
                     st')) /\
  (forall e, acquired = Failure e ->
             post = (Success tt,
                     [Solo (Log Info (str "No worktree path saved, skipping cleanup"))],
                     st')).
Proof.
  intros p run acquired post Hp.
  assert (Hsaved : savedValues (emittedOf run) (str "worktreePath")
                   = match acquired with Success _ => [p] | Failure _ => [] end).
  { unfold run. rewrite runScoped_emitted. cbv zeta. rewrite savedValues_app.
    rewrite processDiffResults_saved. fold acquired. fold p.
    destruct acquired; [|reflexivity].
    rewrite releaseOf_steps, savedValues_app.
    rewrite (savedValues_none _ _ (removeWorktree_saves_none h (str "worktreePath") p _ _)).
    reflexivity. }
  unfold post, Cleanup.run, Cleanup.cleanup, catchAll, savedState. rewrite Hsaved.
  split.
  - intros w ->. cbn [last]. destruct p as [|c p']; [congruence|]. cbn [isEmpty].
    unfold flatMap. rewrite removeWorktree_run. reflexivity.
  - intros e ->. reflexivity.
Qed.

Lemma cleanup_undoes_main_step_witness :
  Cleanup.run (savedState (emittedOf (runScoped GitServiceLive NixServiceLive sampleOptions
                                                hostOk [] store0)))
              hostStaleWorktree [] store0
  = (Success tt,
     emittedOf (removeWorktree (str "/tmp/dix-base-main-42") hostStaleWorktree [] store0)
     ++ [Solo (Log Info (str "Cleaned up worktree at /tmp/dix-base-main-42"))],
     store0)
  /\ Cleanup.run (savedState (emittedOf (runScoped GitServiceLive NixServiceLive sampleOptions
                                                   hostFetchFails [] store0)))
                 hostStaleWorktree [] store0
     = (Success tt, [Solo (Log Info (str "No worktree path saved, skipping cleanup"))], store0).
Proof.
  split.
  - pose proof (cleanup_undoes_main_step sampleOptions hostOk [] store0
                                         hostStaleWorktree [] store0) as H.
    cbv zeta in H. destruct H as [H _]; [vm_compute; discriminate|].
    apply (H {| path := str "/tmp/dix-base-main-42" |}). reflexivity.
  - pose proof (cleanup_undoes_main_step sampleOptions hostFetchFails [] store0
                                         hostStaleWorktree [] store0) as H.
    cbv zeta in H. destruct H as [_ H]; [vm_compute; discriminate|].
    apply (H (GitWorktreeError (str "fetch") (str "Failed to fetch main"))). reflexivity.
Defined.

End SavedState.

Section Failures.

Import Effect Git Nix Full.

Lemma exit_flatMap_failure {A B E} (m : Effect A E) (k : A -> Effect B E) h hist st e :
  exitOf (flatMap m k h hist st) = Failure e ->
  exitOf (m h hist st) = Failure e \/
  exists a hist' st', exitOf (m h hist st) = Success a /\ exitOf (k a h hist' st') = Failure e.
Proof.
  unfold flatMap. destruct (m h hist st) as [[[a|e'] em1] st1]; [|intros H; left; inversion H; reflexivity].
  intros H. right. exists a, (hist ++ em1), st1. split; [reflexivity|].
  now destruct (k a h (hist ++ em1) st1) as [[r em2] st2].
Qed.

Lemma flatMap_failure_ext {A B E} (m : Effect A E) (k1 k2 : A -> Effect B E) h hist st e :
  exitOf (flatMap m k2 h hist st) = Failure e ->
  (forall a hist' st', exitOf (k2 a h hist' st') = Failure e ->
                       k1 a h hist' st' = k2 a h hist' st') ->
  flatMap m k1 h hist st = flatMap m k2 h hist st.
Proof.
  unfold flatMap. destruct (m h hist st) as [[[a|e'] em1] st1]; [|reflexivity].
  intros H Hk. rewrite Hk; [reflexivity|].
  unfold exitOf in *. now destruct (k2 a h (hist ++ em1) st1) as [[r em2] st2].
Qed.

Lemma failsOn_flatMap {A B E} h (Q : E -> Prop) (m : Effect A E) (k : A -> Effect B E) :
  failsOn h Q m ->
  (forall a hist st, exitOf (m h hist st) = Success a -> failsOn h Q (k a)) ->
  failsOn h Q (flatMap m k).
Proof.
  intros Hm Hk hist st e H. apply exit_flatMap_failure in H as [H | (a & hist' & st' & Ha & H)].
  - exact (Hm _ _ _ H).
  - exact (Hk a hist st Ha _ _ _ H).
Qed.

Lemma failsOn_succeed {A E} h (Q : E -> Prop) (a : A) : failsOn h Q (succeed a).
Proof. intros hist st e H. discriminate H. Qed.

Lemma failsOn_emit {E} h (Q : E -> Prop) (c : Cmd) : failsOn h Q (emit c).
Proof. intros hist st e H. discriminate H. Qed.

Lemma failsOn_forEach {A B E} h (Q : E -> Prop) (xs : list A) (f : A -> Effect B E) :
  (forall x, In x xs -> failsOn h Q (f x)) -> failsOn h Q (forEach xs f).
Proof.
  induction xs as [|x xs IH]; intros H; simpl.
  - apply failsOn_succeed.
  - apply failsOn_flatMap; [apply H; now left | intros y _ _ _].
    apply failsOn_flatMap; [apply IH; intros; apply H; now right | intros ys _ _ _].
    apply failsOn_succeed.
Qed.

Lemma failsOn_allConcurrent {A E} h (Q : E -> Prop) (es : list (Effect A Empty_set)) :
  failsOn h Q (allConcurrent es).
Proof.
  intros hist st e. unfold allConcurrent.
  destruct (runFibers es h hist st) as [[xs ems] st']. discriminate.
Qed.

Lemma Failure_inj {A E} (e e' : E) : @Failure A E e = Failure e' -> e = e'.
Proof. intros H. now inversion H. Qed.

Lemma orDefault_never_empty (a b : jsstring) : b <> [] -> orDefault a b <> [].
Proof. unfold orDefault. destruct a; [auto | discriminate]. Qed.

(** A run on more targets after a failure is the same run: the first
    failure ends the iteration. *)
Lemma forEach_app_failure {A B E} (f : A -> Effect B E) (ys : list A) h e :
  forall (xs : list A) hist st,
    exitOf (forEach xs f h hist st) = Failure e ->
    forEach (xs ++ ys) f h hist st = forEach xs f h hist st.
Proof.
  induction xs as [|x xs IH]; intros hist st H; [discriminate H|].
  cbn [forEach app] in *. unfold flatMap at 1 in H. unfold flatMap at 1 3.
  destruct (f x h hist st) as [[[y|e'] em1] st1]; [|reflexivity].
  assert (Hxs : exitOf (forEach xs f h (hist ++ em1) st1) = Failure e).
  { unfold flatMap in H. unfold exitOf in *.
    destruct (forEach xs f h (hist ++ em1) st1) as [[[zs|e'] em2] st2]; cbn [fst] in *;
      [discriminate H | exact H]. }
  unfold flatMap. now rewrite (IH _ _ Hxs).
Qed.

Lemma getNixPath_failsOn h (Q : AppError -> Prop) flakeRef build :
  (forall message, build = true -> message <> [] -> Q (NixBuildError flakeRef message)) ->
  (forall message, message <> [] -> Q (NixPathInfoError flakeRef message)) ->
  failsOn h Q (getNixPath NixServiceLive flakeRef build).
Proof.
  intros Hb Hp hist st e. rewrite getNixPath_run. cbv zeta.
  destruct (build && negb _) eqn:Eb; unfold exitOf; cbn [fst].
  - intros H. apply Failure_inj in H. subst e. apply andb_true_iff in Eb as [Eb _].
    apply Hb; [exact Eb | now apply orDefault_never_empty].
  - destruct (negb (Z.eqb (exitCode (nixResult h _ (pathInfoArgs flakeRef build))) 0)).
    + intros H. apply Failure_inj in H. subst e. apply Hp. now apply orDefault_never_empty.
    + destruct (isEmpty (stdout (nixResult h _ (pathInfoArgs flakeRef build))));
        [|discriminate].
      intros H. apply Failure_inj in H. subst e. now apply Hp.
Qed.

Lemma getNixPath_nonempty h flakeRef build hist st p :
  exitOf (getNixPath NixServiceLive flakeRef build h hist st) = Success p -> p <> [].
Proof.
  rewrite getNixPath_run. cbv zeta.
  destruct (build && negb _); unfold exitOf; cbn [fst]; [discriminate|].
  destruct (negb (Z.eqb (exitCode (nixResult h _ (pathInfoArgs flakeRef build))) 0));
    [discriminate|].
  destruct (stdout (nixResult h _ (pathInfoArgs flakeRef build))) eqn:Es; cbn [isEmpty];
    [discriminate|].
  intros H. inversion H. discriminate.
Qed.

Lemma processNixOutput_failsOn h options config baseFlakeRef :
  In config (attributes options) ->
  baseFlakeRef = baseFlakeRefOf h options
                                {| path := worktreePathOf h (baseRef options) (runId options) |} ->
  forall worktreePath,
    failsOn h (pipelineError h options)
            (processNixOutput NixServiceLive config baseFlakeRef (directory options)
                              (baseSha options) (headSha options) (build options)
                              worktreePath).
Proof.
  intros Hin -> worktreePath. unfold processNixOutput, logInfo.
  apply failsOn_flatMap; [apply failsOn_emit | intros _ _ _ _].
  apply failsOn_flatMap.
  { unfold all2. apply failsOn_flatMap.
    - apply getNixPath_failsOn.
      + intros message Hb Hm. apply (BuildFailed h options config); auto. now left.
      + intros message Hm. apply (PathInfoFailed h options config); auto. now left.
    - intros x _ _ _. apply failsOn_flatMap; [|intros; apply failsOn_succeed].
      apply getNixPath_failsOn.
      + intros message Hb Hm. apply (BuildFailed h options config); auto. right. now left.
      + intros message Hm. apply (PathInfoFailed h options config); auto. right. now left. }
  intros [basePath prPath] hist st Hpaths. cbn [fst snd].
  assert (Hne : basePath <> [] /\ prPath <> []).
  { unfold all2 in Hpaths.
    apply exit_flatMap in Hpaths as (x & hist1 & st1 & Hx & Hpaths).
    apply exit_flatMap in Hpaths as (y & hist2 & st2 & Hy & Hpaths).
    unfold succeed, exitOf in Hpaths. cbn [fst] in Hpaths. inversion Hpaths; subst x y.
    split; eapply getNixPath_nonempty; eassumption. }
  destruct Hne as [Hb Hp].
  apply failsOn_flatMap; [apply failsOn_emit | intros _ _ _ _].
  apply failsOn_flatMap; [apply failsOn_emit | intros _ _ _ _].
  apply failsOn_flatMap; [|intros; apply failsOn_succeed].
  intros hist' st' e. rewrite getDixDiff_run. cbv zeta. unfold exitOf. cbn [fst].
  destruct (negb _); [|discriminate].
  intros H. apply Failure_inj in H. subst e. apply DixFailed; auto.
  apply orDefault_never_empty. discriminate.
Qed.

(** X11. The first failure ends the run: when the pipeline fails on a
    list of targets, the run on that list followed by any further
    targets is the same run, with the same error, the same steps and the
    same store; nothing is done for the targets after the failing one.
    This holds for every implementation of the two services. *)
Theorem failed_target_stops_run
        (git : GitService) (nix : NixService) (options : ProcessDiffOptions)
        (targets more : list NixOutputConfig) (h : Host) (hist : Trace) (st : Store)
        (e : AppError) :
  exitOf (processDiffResults git nix (withAttributes options targets) h hist st) = Failure e ->
  processDiffResults git nix (withAttributes options (targets ++ more)) h hist st
  = processDiffResults git nix (withAttributes options targets) h hist st.
Proof.
  unfold processDiffResults. cbn [withAttributes baseRef runId attributes directory baseSha
                                  headSha build].
  intros H. apply flatMap_failure_ext with (e := e); [exact H|].
  intros w hist1 st1 H1. cbv beta in *.
  change (baseFlakeRefOf h (withAttributes options (targets ++ more)) w)
    with (baseFlakeRefOf h options w).
  change (baseFlakeRefOf h (withAttributes options targets) w)
    with (baseFlakeRefOf h options w) in *.
  apply flatMap_failure_ext with (e := e); [exact H1|].
  intros _ hist2 st2 H2. now apply forEach_app_failure with (e := e).
Qed.

Lemma failed_target_stops_run_witness :
  processDiffResults GitServiceLive NixServiceLive
                     (withAttributes sampleOptions
                                     (firstn 1 (attributes sampleOptions)
                                      ++ skipn 1 (attributes sampleOptions)))
                     hostDixFails [] store0
  = processDiffResults GitServiceLive NixServiceLive
                       (withAttributes sampleOptions (firstn 1 (attributes sampleOptions)))
                       hostDixFails [] store0.
Proof.
  apply (failed_target_stops_run
           GitServiceLive NixServiceLive sampleOptions
           (firstn 1 (attributes sampleOptions)) (skipn 1 (attributes sampleOptions))
           hostDixFails [] store0
           (NixDixError (str "/nix/store/abc-system.drv") (str "/nix/store/abc-system.drv")
                        (str "dix failed with no error message"))).
  reflexivity.
Defined.

Lemma createWorktree_failsOn h options :
  failsOn h (pipelineError h options)
          (createWorktree GitServiceLive (baseRef options) (runId options)).
Proof.
  intros hist st e. rewrite createWorktree_run. cbv zeta.
  destruct (negb (gitOk h _ (fetchArgs (baseRef options)))).
  { intros H. apply Failure_inj in H. subst e. constructor. }
  destruct (negb (gitOk h _ (addArgs _ (baseRef options)))); [|discriminate].
  intros H. apply Failure_inj in H. subst e. constructor.
Qed.

Lemma processDiffResults_failsOn h options :
  failsOn h (pipelineError h options)
          (processDiffResults GitServiceLive NixServiceLive options).
Proof.
  unfold processDiffResults. apply failsOn_flatMap; [apply createWorktree_failsOn|].
  intros w hist st Hw. apply createWorktree_path in Hw. subst w.
  intros hist' st' e. cbv beta. revert hist' st' e.
  apply failsOn_flatMap; [apply failsOn_allConcurrent | intros _ _ _ _].
  apply failsOn_forEach. intros config Hin.
  now apply processNixOutput_failsOn.
Qed.

(** X12. A run of the pipeline fails in one of five ways only: the fetch
    of the base ref, the creation of the checkout, the build of a
    configured target (only when a build was requested), the path query
    of a configured target, or the structural diff of two resolved
    paths. A Nix error names the target at the checkout of the base ref
    or at the directory of the pull request, and its message is never
    empty; the paths of a diff error are never empty. *)
Theorem pipeline_errors
        (options : ProcessDiffOptions) (h : Host) (hist : Trace) (st : Store) (e : AppError) :
  exitOf (runScoped GitServiceLive NixServiceLive options h hist st) = Failure e ->
  pipelineError h options e.
Proof.
  unfold runScoped, scoped. intros H.
  apply (processDiffResults_failsOn h options hist
                                    {| prefetchLogged := prefetchLogged st; finalizers := [] |}).
  unfold exitOf in *.
  destruct (processDiffResults GitServiceLive NixServiceLive options h hist _)
    as [[r em] st1].
  exact H.
Qed.

Lemma pipeline_errors_witness :
  pipelineError hostDixFails sampleOptions
                (NixDixError (str "/nix/store/abc-system.drv") (str "/nix/store/abc-system.drv")
                             (str "dix failed with no error message"))
  /\ pipelineError hostPathInfoFails sampleOptions
                   (NixPathInfoError (str "path:/tmp/dix-base-main-42#nixosConfigurations.host1")
                                     (str "error: flake has no such attribute")).
Proof.
  split.
  - apply (pipeline_errors sampleOptions hostDixFails [] store0). reflexivity.
  - apply (pipeline_errors sampleOptions hostPathInfoFails [] store0). reflexivity.
Defined.

End Failures.

Section UpdateLines.

Import Regex Utils.

(** The matcher context after [w], field by field. *)
Lemma eats_record (w : jsstring) : forall x : ctx,
  eats w x = {| prev := lastOr (prev x) w;
                opened := List.map (fun g => rev w ++ g) (opened x);
                closed := closed x |}.
Proof.
  induction w as [|c w IH]; intros x.
  - destruct x as [p o cl]. unfold eats, lastOr. cbn. now rewrite map_id.
  - rewrite eats_cons, IH. unfold eat. cbn [prev opened closed]. f_equal.
    + unfold lastOr. cbn [rev]. destruct (rev w); reflexivity.
    + rewrite map_map. apply map_ext. intros g. cbn [rev]. now rewrite <- app_assoc.
Qed.

Lemma lastOr_none (w : jsstring) : lastOr None w = None -> w = [].
Proof.
  unfold lastOr. destruct (rev w) eqn:E; [|discriminate].
  intros _. apply (f_equal (@rev N)) in E. now rewrite rev_involutive in E.
Qed.

Lemma plus_gap (ws : jsstring) :
  forallb space ws = true -> admits Plus (List.length ws) -> gap ws.
Proof.
  intros Hs Hl. split; [|exact Hs]. intros ->. simpl in Hl. lia.
Qed.

(** One node of a pattern at a time, keeping the matcher context a
    record of its three fields. *)
Ltac take_chars Hp w Hw Hl :=
  let x := fresh "x" in
  let s := fresh "s" in
  let Hx := fresh "Hx" in
  destruct Hp as (x & s & (w & -> & Hx & Hw & Hl) & Hp);
  rewrite eats_record in Hx; cbn [prev opened closed List.map] in Hx; subst x.

Ltac take_lit Hp :=
  let x := fresh "x" in
  let s := fresh "s" in
  let Ha := fresh "Ha" in
  let Hx := fresh "Hx" in
  destruct Hp as (x & s & Ha & Hp); apply lits_takes in Ha as (-> & Hx);
  unfold eat in Hx; cbn [prev opened closed List.map] in Hx; subst x.

Ltac open_group Hp :=
  let x := fresh "x" in
  let s := fresh "s" in
  let Hx := fresh "Hx" in
  destruct Hp as (x & s & (Hx & ->) & Hp);
  cbn [prev opened closed] in Hx; subst x.

Ltac close_group Hp :=
  let x := fresh "x" in
  let s := fresh "s" in
  let g := fresh "g" in
  let gs := fresh "gs" in
  let Ho := fresh "Ho" in
  let Hx := fresh "Hx" in
  destruct Hp as (x & s & (g & gs & Ho & Hx & ->) & Hp);
  cbn [prev opened closed] in Ho; inversion Ho; subst g gs; clear Ho;
  cbn [prev opened closed] in Hx; subst x.

(** What a line that matches the pattern of an update line is, and the
    match array it gives: the status in brackets, the package name, the
    version before and the version after the arrow. *)
Lemma update_line_parse (line : jsstring) (m : list jsstring) :
  jsmatch false reUpdateLine line = Some m ->
  exists status ws1 name ws2 before ws3 ws4 after,
    line = str "[" ++ status ++ str "]" ++ ws1 ++ name ++ ws2 ++ before ++ ws3
               ++ str "->" ++ ws4 ++ after /\
    m = [line; status; name; before; after] /\
    gap ws1 /\ gap ws2 /\ gap ws3 /\ gap ws4 /\
    forallb nonSpace name = true.
Proof.
  unfold jsmatch. destruct (search false _ None line) as [r|] eqn:E; [|discriminate].
  intros H. simpl in H. inversion H; subst m. clear H.
  apply search_sound in E as (pre & s0 & -> & E).
  apply steps_sound in E as (x' & s' & Hp & Hk).
  unfold accept in Hk. inversion Hk; subst r. clear Hk.
  cbn [reUpdateLine patternTakes] in Hp.
  destruct Hp as (x1 & s1 & (Hbol & -> & ->) & Hp).
  unfold atLineStart in Hbol. cbn [prev andb] in Hbol.
  destruct (lastOr None pre) eqn:Epre; [discriminate|]. apply lastOr_none in Epre. subst pre.
  clear Hbol.
  take_lit Hp. open_group Hp. take_chars Hp status Hstatus Hl0. close_group Hp.
  take_lit Hp. take_chars Hp ws1 Hws1 Hl1.
  open_group Hp. take_chars Hp name Hname Hln. close_group Hp.
  take_chars Hp ws2 Hws2 Hl2.
  open_group Hp. take_chars Hp before Hbefore Hlb. close_group Hp.
  take_chars Hp ws3 Hws3 Hl3. take_lit Hp. take_lit Hp. take_chars Hp ws4 Hws4 Hl4.
  open_group Hp. take_chars Hp after Hafter Hla. close_group Hp.
  destruct Hp as (x22 & s22 & (Heol & -> & ->) & -> & ->).
  unfold atLineEnd in Heol.
  match type of Heol with
  | match ?s with _ => _ end = true => destruct s as [|c0 s]; [|discriminate Heol]
  end.
  exists status, ws1, name, ws2, before, ws3, ws4, after.
  split; [now rewrite app_nil_r|]. split.
  { unfold matchArray. cbn [fst opened closed rev app].
    repeat first [ rewrite rev_app_distr | rewrite rev_involutive | rewrite app_nil_r
                 | progress cbn [rev app] | rewrite <- app_assoc ].
    reflexivity. }
  split; [now apply plus_gap|]. split; [now apply plus_gap|].
  split; [now apply plus_gap|]. split; [now apply plus_gap|]. exact Hname.
Qed.

(** X13. Only an update line of the system package is ever taken for
    a minor update (and so dropped by the filter): the line is "[U.]",
    the package name, the version before, "->" and the version after,
    separated by white space; the name starts with "nixos-system-" or is
    "darwin-system"; both versions, trimmed, end in ".drv", hold no comma
    and begin with the same "<digits>.<digits>" prefix, as
    [extractMajorMinor] reads it. *)
Theorem minor_update_line_shape (line : jsstring) :
  isNixpkgsMinorUpdateLine line = true ->
  exists ws1 name ws2 before ws3 ws4 after majorMinor,
    line = str "[U.]" ++ ws1 ++ name ++ ws2 ++ before ++ ws3 ++ str "->" ++ ws4 ++ after /\
    gap ws1 /\ gap ws2 /\ gap ws3 /\ gap ws4 /\
    forallb nonSpace name = true /\
    (startsWith name (str "nixos-system-") = true \/ name = str "darwin-system") /\
    endsWith (trim before) (str ".drv") = true /\
    endsWith (trim after) (str ".drv") = true /\
    includes (trim before) (str ",") = false /\
    includes (trim after) (str ",") = false /\
    extractMajorMinor (trim before) = Some majorMinor /\
    extractMajorMinor (trim after) = Some majorMinor.
Proof.
  unfold isNixpkgsMinorUpdateLine.
  destruct (jsmatch false reUpdateLine line) as [m|] eqn:Em; [|discriminate].
  apply update_line_parse in Em
    as (status & ws1 & name & ws2 & before & ws3 & ws4 & after & Hline & -> & H1 & H2 & H3
        & H4 & Hname).
  cbn [nth].
  destruct (jseq status (str "U.")) eqn:Es; cbn [negb]; [|discriminate].
  apply jseq_eq in Es. subst status.
  destruct (negb (startsWith name (str "nixos-system-"))
            && negb (jseq name (str "darwin-system"))) eqn:En; [discriminate|].
  destruct (includes (trim before) (str ",") || includes (trim after) (str ",")) eqn:Ec;
    [discriminate|].
  destruct (negb (endsWith (trim before) (str ".drv"))
            || negb (endsWith (trim after) (str ".drv"))) eqn:Ed; [discriminate|].
  destruct (extractMajorMinor (trim before)) as [mb|] eqn:Eb; [|discriminate].
  destruct (extractMajorMinor (trim after)) as [ma|] eqn:Ea; [|discriminate].
  intros Hmm. apply jseq_eq in Hmm. subst ma.
  apply orb_false_iff in Ec as [Ec1 Ec2].
  apply orb_false_iff in Ed as [Ed1 Ed2].
  apply negb_false_iff in Ed1, Ed2.
  exists ws1, name, ws2, before, ws3, ws4, after, mb.
  split; [exact Hline|]. repeat (split; [assumption|]).
  split.
  { apply andb_false_iff in En as [En|En]; apply negb_false_iff in En.
    - now left.
    - right. now apply jseq_eq. }
  repeat (split; [assumption|]). exact Ea.
Qed.

Lemma minor_update_line_shape_witness :
  exists ws1 name ws2 before ws3 ws4 after majorMinor,
    str "[U.] nixos-system-eule 26.05.20251225.3e2499d.drv -> 26.05.20251228.c0b0e0f.drv"
    = str "[U.]" ++ ws1 ++ name ++ ws2 ++ before ++ ws3 ++ str "->" ++ ws4 ++ after /\
    gap ws1 /\ gap ws2 /\ gap ws3 /\ gap ws4 /\
    forallb nonSpace name = true /\
    (startsWith name (str "nixos-system-") = true \/ name = str "darwin-system") /\
    endsWith (trim before) (str ".drv") = true /\
    endsWith (trim after) (str ".drv") = true /\
    includes (trim before) (str ",") = false /\
    includes (trim after) (str ",") = false /\
    extractMajorMinor (trim before) = Some majorMinor /\
    extractMajorMinor (trim after) = Some majorMinor.
Proof.
  apply (minor_update_line_shape
           (str "[U.] nixos-system-eule 26.05.20251225.3e2499d.drv -> 26.05.20251228.c0b0e0f.drv")).
  vm_compute. reflexivity.
Defined.

End UpdateLines.

Section HeaderLines.

Import Regex Utils.

(** A greedy repetition that can take all of [w], and after which the
    rest of the pattern matches, does so. *)
Lemma greedy_max cls k w s r : forall x,
  forallb cls w = true ->
  match s with c :: _ => cls c = false | [] => True end ->
  k (eats w x) s = Some r ->
  greedy cls k x (w ++ s) = Some r.
Proof.
  induction w as [|c w IH]; intros x Hw Hs Hk.
  - cbn [app]. destruct s as [|c s]; [exact Hk|]. cbn [greedy]. now rewrite Hs.
  - cbn [forallb] in Hw. apply andb_true_iff in Hw as [Hc Hw].
    cbn [app greedy]. rewrite Hc. rewrite (IH (eat c x) Hw Hs Hk). reflexivity.
Qed.

Lemma lit_refl (a : ascii) : lit a (N_of_ascii a) = true.
Proof. apply N.eqb_refl. Qed.

(** A header line at the start of a line is matched by its pattern, and
    the group captures the path. *)
Lemma path_line_match (a b c : ascii) (before : option N) (P post : jsstring) :
  atLineStart true {| prev := before; opened := [[]]; closed := [] |} = true ->
  pathText P = true -> lineBreak post = true ->
  let marker := [N_of_ascii a; N_of_ascii b; N_of_ascii c] in
  exists r,
    matcher true (rePathLine (String.String a (String.String b (String.String c
                                                                   String.EmptyString))))
            {| prev := before; opened := [[]]; closed := [] |}
            (marker ++ str " " ++ P ++ post) = Some r /\
    matchArray r = [marker ++ str " " ++ P; P].
Proof.
  intros Hbol HP Hpost. cbv zeta.
  destruct P as [|p0 P']; [discriminate HP|]. cbn [pathText forallb] in HP.
  apply andb_true_iff in HP as [Hp0 HP]. apply andb_true_iff in HP as [Hd0 HP'].
  apply negb_true_iff in Hp0.
  assert (Hend : atLineEnd true post = true).
  { destruct post as [|c0 post]; [reflexivity | exact Hpost]. }
  assert (Hstop : match post with c0 :: _ => dot c0 = false | [] => True end).
  { destruct post as [|c0 post]; [exact I|]. unfold dot. cbn [lineBreak] in Hpost.
    now rewrite Hpost. }
  eexists. split.
  - unfold matcher, rePathLine.
    cbn [lits String.list_ascii_of_string List.map app fold_right step].
    rewrite Hbol. cbn [one]. rewrite !lit_refl.
    change (str " " ++ (p0 :: P') ++ post) with ([32%N] ++ (p0 :: P') ++ post).
    apply greedy_max; [reflexivity | exact Hp0 |].
    cbn [app one]. rewrite Hd0.
    apply greedy_max; [exact HP' | exact Hstop |].
    rewrite !eats_record. cbn [eat eats fold_left prev opened closed List.map].
    rewrite Hend. reflexivity.
  - unfold matchArray. cbn [fst opened closed rev app].
    repeat first [ rewrite rev_app_distr | rewrite rev_involutive | rewrite app_nil_r
                 | progress cbn [rev app] | rewrite <- app_assoc ].
    reflexivity.
Qed.

Lemma search_here multiline re before s r :
  matcher multiline re {| prev := before; opened := [[]]; closed := [] |} s = Some r ->
  search multiline re before s = Some r.
Proof. intros H. destruct s; cbn [search]; now rewrite H. Qed.

(** The search for a pattern anchored at the start of a line passes over
    the rest of the current line. *)
Lemma search_next_line re' (s : jsstring) : forall (w : jsstring) (c0 : N),
  isLineTerminator c0 = false -> forallb dot w = true ->
  search true (Bol :: re') (Some c0) (w ++ LF :: s) = search true (Bol :: re') (Some LF) s.
Proof.
  induction w as [|c w IH]; intros c0 Hc0 Hw; cbn [app search].
  - unfold matcher. cbn [fold_right step]. unfold atLineStart. cbn [prev andb].
    now rewrite Hc0.
  - cbn [forallb] in Hw. apply andb_true_iff in Hw as [Hc Hw].
    unfold matcher at 1. cbn [fold_right step]. unfold atLineStart at 1. cbn [prev andb].
    rewrite Hc0. cbn [orElse]. apply IH; [|exact Hw].
    unfold dot in Hc. now apply negb_true_iff in Hc.
Qed.

Lemma pathText_dot (P : jsstring) : pathText P = true -> forallb dot P = true.
Proof.
  destruct P as [|c P]; [discriminate|]. cbn [pathText]. intros H.
  now apply andb_true_iff in H as [_ H].
Qed.

(** X14. On the output of the diff tool, which begins with the header
    lines "<<< <base path>" and ">>> <head path>", [hasDixChanges] says
    exactly whether the two paths differ after trimming: for all paths
    that are not empty, do not start with white space and hold no line
    terminator, whatever follows the second header line. *)
Theorem hasDixChanges_on_headers (P Q post : jsstring) :
  pathText P = true -> pathText Q = true -> lineBreak post = true ->
  hasDixChanges (Some (str "<<< " ++ P ++ nl ++ str ">>> " ++ Q ++ post))
  = negb (jseq (trim P) (trim Q)).
Proof.
  intros HP HQ Hpost. cbn [hasDixChanges].
  set (d := str "<<< " ++ P ++ nl ++ str ">>> " ++ Q ++ post).
  assert (Hb : blank d = false).
  { unfold blank. apply orb_false_iff. split; [reflexivity|].
    unfold trim. change (trimStart d) with d.
    destruct (trimEnd_prefix d) as (q & E & Hq).
    destruct (trimEnd d) as [|c t]; [|reflexivity].
    cbn [app] in E. rewrite <- E in Hq. discriminate Hq. }
  rewrite Hb.
  assert (Hbase : exists arr, jsmatch true reBasePath d = Some arr /\ nth 1 arr [] = P).
  { destruct (path_line_match "<" "<" "<" None P (nl ++ str ">>> " ++ Q ++ post))
      as (r & Hm & Ha); [reflexivity | exact HP | reflexivity |].
    cbv zeta in Hm, Ha. exists (matchArray r). split; [|now rewrite Ha].
    unfold jsmatch.
    assert (Hs : search true reBasePath None d = Some r) by (apply search_here; exact Hm).
    rewrite Hs. reflexivity. }
  assert (Hpr : exists arr, jsmatch true rePrPath d = Some arr /\ nth 1 arr [] = Q).
  { destruct (path_line_match ">" ">" ">" (Some LF) Q post)
      as (r & Hm & Ha); [reflexivity | exact HQ | exact Hpost |].
    cbv zeta in Hm, Ha. exists (matchArray r). split; [|now rewrite Ha].
    unfold jsmatch.
    assert (Hs : search true rePrPath None d = Some r).
    { unfold d.
      change (str "<<< " ++ P ++ nl ++ str ">>> " ++ Q ++ post)
        with (60%N :: (str "<< " ++ P) ++ LF :: (str ">>> " ++ Q ++ post)).
      cbn [search].
      assert (H0 : forall s, matcher true rePrPath
                                     {| prev := None; opened := [[]]; closed := [] |}
                                     (60%N :: s) = None) by reflexivity.
      rewrite H0. cbn [orElse].
      change rePrPath with (Bol :: tl rePrPath).
      rewrite search_next_line.
      - apply search_here. exact Hm.
      - reflexivity.
      - rewrite forallb_app. now rewrite (pathText_dot P HP). }
    rewrite Hs. reflexivity. }
  destruct Hbase as (arr1 & -> & ->). destruct Hpr as (arr2 & -> & ->). reflexivity.
Qed.

Lemma hasDixChanges_on_headers_witness :
  hasDixChanges (Some (str "<<< " ++ str "/nix/store/aaa-system.drv" ++ nl
                           ++ str ">>> " ++ str "/nix/store/bbb-system.drv"
                           ++ (nl ++ nl ++ str "CHANGED")))
  = negb (jseq (trim (str "/nix/store/aaa-system.drv")) (trim (str "/nix/store/bbb-system.drv"))).
Proof.
  apply (hasDixChanges_on_headers (str "/nix/store/aaa-system.drv")
                                  (str "/nix/store/bbb-system.drv")
                                  (nl ++ nl ++ str "CHANGED")); reflexivity.
Defined.

End HeaderLines.

Section BranchNames.

Import Effect Git.

(** X15. Sanitizing a branch name keeps its length, changes nothing in
    a name made of letters, digits and "-" only (and only such names are
    left unchanged), and sanitizing twice is the same as sanitizing
    once. *)
Theorem sanitizeBranchName_idempotent (ref : jsstring) :
  sanitizeBranchName (sanitizeBranchName ref) = sanitizeBranchName ref /\
  List.length (sanitizeBranchName ref) = List.length ref /\
  (sanitizeBranchName ref = ref <-> forallb branchChar ref = true).
Proof.
  rewrite !sanitizeBranchName_map. split; [|split].
  - rewrite map_map. apply map_ext. intros c.
    destruct (branchChar c) eqn:E; [now rewrite E | reflexivity].
  - apply length_map.
  - induction ref as [|c ref IH]; [now split|].
    cbn [List.map forallb]. split.
    + intros H. injection H as Hc Hr. apply IH in Hr. rewrite Hr, andb_true_r.
      destruct (branchChar c) eqn:E; [reflexivity|].
      rewrite <- Hc in E. discriminate E.
    + intros H. apply andb_true_iff in H as [Hc Hr]. rewrite Hc. f_equal. now apply IH.
Qed.

(** The sample run on a Nix without [flake prefetch-inputs] logs the
    notice once, although both prefetches fail. *)
Example old_nix_notice_once :
  notices (emittedOf (Full.processDiffResults GitServiceLive Nix.NixServiceLive sampleOptions
                                              hostOldNix [] store0)) = 1.
Proof. vm_compute. reflexivity. Qed.

End BranchNames.
